(** * Thucydides daily reader: chunker, publishing log and JSON recovery

    A shallow embedding of the text-processing core of the repository
    (src/parser.py, src/utils.py, fill_gaps_improved.py,
    fill_gaps_nuclear.py) together with the properties its
    specification states about it.

    Python [str] values are modelled as lists of 8-bit characters (code
    points below 256); Python [int] values as [Z]. *)

From Stdlib Require Import ZArith List Ascii String Bool Lia.
From stdpp Require Import gmap strings.
Import ListNotations.

Local Open Scope Z_scope.

#[global] Set Warnings "-register-all".


(** ** Python strings *)

Module PyStr.

Abbreviation str := (list ascii).

(** String literals; [lit] lets a literal spell the double quote as an
    apostrophe. *)
Definition py (s : string) : str := list_ascii_of_string s.

Definition dquote : ascii := "034"%char.
Definition newline : ascii := "010"%char.
Definition backslash : ascii := "092"%char.

Definition lit (s : string) : str :=
  map (fun c => if Ascii.eqb c "'"%char then dquote else c) (py s).

Definition code (c : ascii) : N := N_of_ascii c.

(** [str.isspace] on a single character, also the class [\s] of [re]. *)
Definition isspace (c : ascii) : bool :=
  let n := code c in
  ((9 <=? n) && (n <=? 13) || (28 <=? n) && (n <=? 32)
   || (n =? 133) || (n =? 160))%N.

Fixpoint lstrip (s : str) : str :=
  match s with
  | c :: s' => if isspace c then lstrip s' else s
  | [] => []
  end.

Definition rstrip (s : str) : str := reverse (lstrip (reverse s)).

Definition strip (s : str) : str := lstrip (rstrip s).

(** [s.split()]: the maximal runs of non-whitespace characters. *)
Fixpoint split_ws_from (cur : str) (s : str) : list str :=
  match s with
  | [] => match cur with [] => [] | _ => [reverse cur] end
  | c :: s' =>
      if isspace c
      then match cur with
           | [] => split_ws_from [] s'
           | _ => reverse cur :: split_ws_from [] s'
           end
      else split_ws_from (c :: cur) s'
  end.

Definition split_ws (s : str) : list str := split_ws_from [] s.

(** [sep.join(parts)] *)
Fixpoint join (sep : str) (parts : list str) : str :=
  match parts with
  | [] => []
  | [p] => p
  | p :: rest => p ++ sep ++ join sep rest
  end.

Fixpoint starts_with (p s : str) : bool :=
  match p, s with
  | [], _ => true
  | a :: p', b :: s' => Ascii.eqb a b && starts_with p' s'
  | _ :: _, [] => false
  end.

(** [s.replace(old, new)] for a non-empty [old]: occurrences are replaced
    left to right without overlap; [skip] counts the characters of a
    matched occurrence still to be passed over. *)
Fixpoint replace_from (old new : str) (skip : nat) (s : str) : str :=
  match s with
  | [] => []
  | c :: s' =>
      match skip with
      | S k => replace_from old new k s'
      | O =>
          if starts_with old s
          then new ++ replace_from old new (Nat.pred (length old)) s'
          else c :: replace_from old new O s'
      end
  end.

Definition replace (old new s : str) : str := replace_from old new O s.

(** [s.find(c)] and [s.rfind(c)] for a one-character needle; -1 when the
    character does not occur. *)
Fixpoint find_from (c : ascii) (i : Z) (s : str) : Z :=
  match s with
  | [] => -1
  | d :: s' => if Ascii.eqb c d then i else find_from c (i + 1) s'
  end.

Definition find (c : ascii) (s : str) : Z := find_from c 0 s.

Fixpoint rfind_from (c : ascii) (i : Z) (best : Z) (s : str) : Z :=
  match s with
  | [] => best
  | d :: s' => rfind_from c (i + 1) (if Ascii.eqb c d then i else best) s'
  end.

Definition rfind (c : ascii) (s : str) : Z := rfind_from c 0 (-1) s.

(** [s[a:b]] for indices [0 <= a]. *)
Definition slice (a b : Z) (s : str) : str :=
  firstn (Z.to_nat (b - a)) (skipn (Z.to_nat a) s).

Definition len (s : str) : Z := Z.of_nat (length s).

(** [s] ends with the character [c]. *)
Definition ends_with (c : ascii) (s : str) : Prop := exists u, s = u ++ [c].

(** [s.find(needle)] for a needle of any length. *)
Fixpoint find_sub_from (needle : str) (i : Z) (s : str) : Z :=
  if starts_with needle s then i
  else match s with
       | [] => -1
       | _ :: s' => find_sub_from needle (i + 1) s'
       end.

Definition find_sub (needle s : str) : Z := find_sub_from needle 0 s.

(** [s.find(needle, start)] for [0 <= start]. *)
Definition find_sub_at (needle : str) (start : Z) (s : str) : Z :=
  if len s <? start then -1
  else find_sub_from needle start (skipn (Z.to_nat start) s).

(** [s[a:]] for [0 <= a], and [s[:b]], where a negative [b] counts from
    the end. *)
Definition slice_from (a : Z) (s : str) : str := skipn (Z.to_nat a) s.

Definition slice_to (b : Z) (s : str) : str :=
  firstn (Z.to_nat (if b <? 0 then Z.max 0 (len s + b) else b)) s.

(** The characters of [s] that are not whitespace. *)
Definition visible (s : str) : str := List.filter (fun c => negb (isspace c)) s.

End PyStr.

(** ** The [re] module: a backtracking matcher

    Patterns are given as syntax trees; the matcher explores alternatives
    in the priority order of Python's engine (leftmost alternative first,
    greedy repetition longest first, lazy repetition shortest first), so
    that the first success is the match [re] reports. *)

Module Re.
Import PyStr.

Inductive regex : Type :=
| Eps
| Cls (p : ascii -> bool)
| Seq (r1 r2 : regex)
| Alt (r1 r2 : regex)
| Star (r : regex)
| StarLazy (r : regex)
| Grp (n : nat) (r : regex)
| Bol
| Eol.

Definition Chr (c : ascii) : regex := Cls (Ascii.eqb c).
Definition AnyChar : regex := Cls (fun _ => true).
Definition Space : regex := Cls isspace.
Definition Opt (r : regex) : regex := Alt r Eps.
Definition Plus (r : regex) : regex := Seq r (Star r).
Definition Lit (s : str) : regex := fold_right (fun c r => Seq (Chr c) r) Eps s.
Definition OneOf (s : str) : regex := Cls (fun c => existsb (Ascii.eqb c) s).
Definition NoneOf (s : str) : regex := Cls (fun c => negb (existsb (Ascii.eqb c) s)).

(** Matcher state: the position reached, the input still ahead, and the
    groups closed so far (most recent first). *)
Record mstate : Type := MState {
  m_pos : nat;
  m_rest : str;
  m_caps : list (nat * str)
}.

Definition advance (st : mstate) (s' : str) : mstate :=
  MState (S (m_pos st)) s' (m_caps st).

Definition close_group (n : nat) (st0 st : mstate) : mstate :=
  MState (m_pos st) (m_rest st)
         ((n, firstn (m_pos st - m_pos st0) (m_rest st0)) :: m_caps st).

Definition at_eol (s : str) : bool :=
  match s with
  | [] => true
  | [c] => Ascii.eqb c newline
  | _ => false
  end.

(** Repetition of a sub-matcher [body], each round having to consume
    input: [star_greedy] tries one more round before going on,
    [star_lazy] goes on before trying one more round. *)
Fixpoint star_greedy {A : Type}
    (body : (mstate -> option A) -> mstate -> option A)
    (k : mstate -> option A) (fuel : nat) (st : mstate) : option A :=
  match fuel with
  | O => k st
  | S fuel' =>
      match body (fun st' =>
                if (m_pos st <? m_pos st')%nat
                then star_greedy body k fuel' st' else None) st with
      | Some x => Some x
      | None => k st
      end
  end.

Fixpoint star_lazy {A : Type}
    (body : (mstate -> option A) -> mstate -> option A)
    (k : mstate -> option A) (fuel : nat) (st : mstate) : option A :=
  match k st with
  | Some x => Some x
  | None =>
      match fuel with
      | O => None
      | S fuel' =>
          body (fun st' =>
                if (m_pos st <? m_pos st')%nat
                then star_lazy body k fuel' st' else None) st
      end
  end.

Fixpoint rmatch {A : Type} (r : regex) (k : mstate -> option A) (st : mstate)
  : option A :=
  match r with
  | Eps => k st
  | Cls p =>
      match m_rest st with
      | c :: s' => if p c then k (advance st s') else None
      | [] => None
      end
  | Seq r1 r2 => rmatch r1 (rmatch r2 k) st
  | Alt r1 r2 =>
      match rmatch r1 k st with
      | Some x => Some x
      | None => rmatch r2 k st
      end
  | Star r1 => star_greedy (rmatch r1) k (length (m_rest st)) st
  | StarLazy r1 => star_lazy (rmatch r1) k (length (m_rest st)) st
  | Grp n r1 => rmatch r1 (fun st' => k (close_group n st st')) st
  | Bol => if (m_pos st =? 0)%nat then k st else None
  | Eol => if at_eol (m_rest st) then k st else None
  end.

(** The same pattern without its groups. *)
Fixpoint ungroup (r : regex) : regex :=
  match r with
  | Seq r1 r2 => Seq (ungroup r1) (ungroup r2)
  | Alt r1 r2 => Alt (ungroup r1) (ungroup r2)
  | Star r1 => Star (ungroup r1)
  | StarLazy r1 => StarLazy (ungroup r1)
  | Grp _ r1 => ungroup r1
  | _ => r
  end.

(** A match: the matched span (start and end positions), the groups,
    and the text after it. *)
Record rmatch_result : Type := Match {
  mt_start : nat;
  mt_end : nat;
  mt_caps : list (nat * str);
  mt_after : str
}.

Definition group (n : nat) (m : rmatch_result) : option str :=
  snd <$> List.find (fun p => Nat.eqb (fst p) n) (mt_caps m).

(** One attempt at position [pos]; with [must_advance] an empty match
    ending at [start] is refused (the rule [re] applies to the search that
    follows an empty match). *)
Definition match_at (r : regex) (must_advance : bool) (start : nat)
    (pos : nat) (s : str) : option rmatch_result :=
  rmatch r (fun st =>
      if must_advance && (m_pos st =? start)%nat then None
      else Some (Match pos (m_pos st) (m_caps st) (m_rest st)))
    (MState pos s []).

(** Leftmost match at or after [pos], with the text passed over before
    it; [skipped] collects that text in reverse. *)
Fixpoint search_from (r : regex) (must_advance : bool) (start : nat)
    (skipped : str) (pos : nat) (s : str) : option (str * rmatch_result) :=
  match match_at r must_advance start pos s with
  | Some m => Some (reverse skipped, m)
  | None =>
      match s with
      | [] => None
      | c :: s' => search_from r must_advance start (c :: skipped) (S pos) s'
      end
  end.

Definition re_match (r : regex) (s : str) : option rmatch_result :=
  match_at r false 0%nat 0%nat s.

Definition re_search (r : regex) (s : str) : option rmatch_result :=
  snd <$> search_from r false 0%nat [] 0%nat s.

(** Replacement templates: literal text and group references. *)
Inductive repl_item : Type :=
| RLit (s : str)
| RGroup (n : nat).

Definition expand (tpl : list repl_item) (m : rmatch_result) : str :=
  flat_map (fun it =>
      match it with
      | RLit s => s
      | RGroup n => default [] (group n m)
      end) tpl.

(** The scanning loop shared by [re.sub], [re.split] and [re.findall]:
    successive leftmost matches, each search starting where the previous
    match ended; every match comes with the text between it and the
    previous one, and the text after the last match is returned too. *)
Fixpoint scan (fuel : nat) (r : regex) (must_advance : bool) (pos : nat)
    (s : str) : list (str * rmatch_result) * str :=
  match fuel with
  | O => ([], s)
  | S fuel' =>
      match search_from r must_advance pos [] pos s with
      | None => ([], s)
      | Some (before, m) =>
          let '(ms, tail) :=
            scan fuel' r (mt_end m =? mt_start m)%nat (mt_end m) (mt_after m) in
          ((before, m) :: ms, tail)
      end
  end.

Definition scan_all (r : regex) (s : str) : list (str * rmatch_result) * str :=
  scan (2 * length s + 2) r false 0%nat s.

Definition re_sub (r : regex) (tpl : list repl_item) (s : str) : str :=
  let '(ms, tail) := scan_all r s in
  flat_map (fun bm => fst bm ++ expand tpl (snd bm)) ms ++ tail.

(** [re.split] for a pattern without groups. *)
Definition re_split (r : regex) (s : str) : list str :=
  let '(ms, tail) := scan_all r s in
  map fst ms ++ [tail].

(** [re.findall] for a pattern with exactly one group. *)
Definition re_findall1 (r : regex) (s : str) : list str :=
  map (fun bm => default [] (group 1 (snd bm))) (fst (scan_all r s)).

(** *** Notions used to state the properties of the matcher *)

(** A sub-matcher whose successes are answers of its continuation. *)
Definition answers {A : Type}
    (body : (mstate -> option A) -> mstate -> option A) : Prop :=
  forall k st x, body k st = Some x -> exists st', k st' = Some x.

(** States at the same place, whatever groups they carry. *)
Definition same_place (st1 st2 : mstate) : Prop :=
  m_pos st1 = m_pos st2 /\ m_rest st1 = m_rest st2.

Definition fail_together {A B : Type}
    (k1 : mstate -> option A) (k2 : mstate -> option B) : Prop :=
  forall st1 st2, same_place st1 st2 -> (k1 st1 = None <-> k2 st2 = None).

Definition bodies_fail_together {A B : Type}
    (b1 : (mstate -> option A) -> mstate -> option A)
    (b2 : (mstate -> option B) -> mstate -> option B) : Prop :=
  forall k1 k2, fail_together k1 k2 -> fail_together (b1 k1) (b2 k2).

(** Every character class of [r] lies within [P]. *)
Fixpoint classes_within (P : ascii -> Prop) (r : regex) : Prop :=
  match r with
  | Cls p => forall c, p c = true -> P c
  | Seq r1 r2 | Alt r1 r2 => classes_within P r1 /\ classes_within P r2
  | Star r1 | StarLazy r1 | Grp _ r1 => classes_within P r1
  | Eps | Bol | Eol => True
  end.

(** [st'] is reached from [st] by reading characters of [P]. *)
Definition reads (P : ascii -> Prop) (st st' : mstate) : Prop :=
  exists w, m_rest st = w ++ m_rest st'
            /\ m_pos st' = (m_pos st + length w)%nat
            /\ Forall P w.

(** A sub-matcher whose successes are answers of its continuation at a
    state reached by reading characters of [P]. *)
Definition answers_within {A : Type} (P : ascii -> Prop)
    (body : (mstate -> option A) -> mstate -> option A) : Prop :=
  forall k st x, body k st = Some x -> exists st', reads P st st' /\ k st' = Some x.

(** Every match of [r] reads the character [c]. *)
Fixpoint demands (c : ascii) (r : regex) : Prop :=
  match r with
  | Cls p => forall d, p d = true -> d = c
  | Seq r1 r2 => demands c r1 \/ demands c r2
  | Alt r1 r2 => demands c r1 /\ demands c r2
  | Grp _ r1 => demands c r1
  | _ => False
  end.

(** Patterns whose match at a place can be read off the text ahead:
    [hit s] gives the groups, the matched text and the text after it of
    the match that starts [s], if there is one. *)
Section LocalMatch.

Variable hit : str -> option (list (nat * str) * str * str).

(** The leftmost place of [s] with a match, and the text before it. *)
Fixpoint first_hit (s : str) : option (str * (list (nat * str) * str * str)) :=
  match hit s with
  | Some x => Some ([], x)
  | None =>
      match s with
      | [] => None
      | c :: s' =>
          match first_hit s' with
          | Some (gap, x) => Some (c :: gap, x)
          | None => None
          end
      end
  end.

(** The text with each match, from left to right, replaced by what
    [out] makes of its groups. *)
Fixpoint rewrite_with (out : list (nat * str) -> str) (fuel : nat) (s : str) : str :=
  match fuel with
  | O => s
  | S fuel' =>
      match first_hit s with
      | Some (gap, (caps, _, after)) => gap ++ out caps ++ rewrite_with out fuel' after
      | None => s
      end
  end.

End LocalMatch.

(** The match of a single class. *)
Definition class_hit (p : ascii -> bool) (s : str)
  : option (list (nat * str) * str * str) :=
  match s with
  | c :: s' => if p c then Some ([], [c], s') else None
  | [] => None
  end.

(** A continuation that fails wherever the input ahead ends with [c]. *)
Definition fails_before {A : Type} (c : ascii) (k : mstate -> option A) : Prop :=
  forall st, ends_with c (m_rest st) -> k st = None.

End Re.

(** ** src/utils.py *)

Module Utils.
Import PyStr.

(** The replacement table of [clean_text], in the order of the dict. *)
Definition replacements : list (str * str) :=
  [ (py " ,", py ","); (py " .", py "."); (py " ;", py ";");
    (py " :", py ":"); (py "( ", py "("); (py " )", py ")");
    (py "  ", py " ") ].

Definition clean_text (text : str) : str :=
  let text := join (py " ") (split_ws text) in
  let text := fold_left (fun t on => replace (fst on) (snd on) t)
                        replacements text in
  strip text.

Definition estimate_word_count (text : str) : Z :=
  Z.of_nat (length (split_ws text)).

(** *** The publishing log

    What [load_json] can hand back: a JSON document as Python values
    (numbers with a fraction or an exponent, which Python reads as
    floats, are left out). A [PDict] lists the members in document
    order; as in [json.load], a later member overrides an earlier one
    with the same key. *)
Inductive pyval : Type :=
| PNone
| PBool (b : bool)
| PInt (z : Z)
| PStr (s : str)
| PList (l : list pyval)
| PDict (items : list (str * pyval)).

(** The log file on disk: missing, present but failing to load (the
    file cannot be read or is not JSON), or loaded. *)
Inductive log_file : Type :=
| LogAbsent
| LogUnreadable
| LogLoaded (doc : pyval).

Inductive exn : Type :=
| ReadError
| AttributeError
| KeyError
| TypeError.

(** Computations that may raise. *)
Definition result (A : Type) : Type := (exn + A)%type.
Definition raise {A : Type} (e : exn) : result A := inl e.

#[global] Instance result_ret : MRet result := fun A a => inr a.
#[global] Instance result_bind : MBind result := fun A B f m =>
  match m with
  | inl e => inl e
  | inr a => f a
  end.

Definition str_eqb (a b : str) : bool := bool_decide (a = b).

(** The distinct keys of a dict, in the order of their first insertion. *)
Definition dict_keys (items : list (str * pyval)) : list str :=
  reverse (remove_dups (reverse (map fst items))).

(** [d[key]] on a dict: the last member with that key. *)
Fixpoint dict_lookup (key : str) (items : list (str * pyval)) : option pyval :=
  match items with
  | [] => None
  | (k, v) :: rest =>
      match dict_lookup key rest with
      | Some v' => Some v'
      | None => if str_eqb k key then Some v else None
      end
  end.

(** [obj.get(key, dflt)]: only a dict has the method. *)
Definition py_get (obj : pyval) (key : str) (dflt : pyval) : result pyval :=
  match obj with
  | PDict items => mret (default dflt (dict_lookup key items))
  | _ => raise AttributeError
  end.

(** [for entry in obj]: the elements of a list, the keys of a dict, the
    characters of a string; anything else is not iterable. *)
Definition py_iter (obj : pyval) : result (list pyval) :=
  match obj with
  | PList l => mret l
  | PDict items => mret (map PStr (dict_keys items))
  | PStr s => mret (map (fun c => PStr [c]) s)
  | _ => raise TypeError
  end.

(** [obj[key]] for a string key. *)
Definition py_getitem (obj : pyval) (key : str) : result pyval :=
  match obj with
  | PDict items =>
      match dict_lookup key items with
      | Some v => mret v
      | None => raise KeyError
      end
  | _ => raise TypeError
  end.

Definition as_number (v : pyval) : option Z :=
  match v with
  | PInt z => Some z
  | PBool b => Some (if b then 1 else 0)
  | _ => None
  end.

Fixpoint str_gtb (a b : str) : bool :=
  match a, b with
  | [], _ => false
  | _ :: _, [] => true
  | x :: a', y :: b' =>
      if (code y <? code x)%N then true
      else if (code x <? code y)%N then false
      else str_gtb a' b'
  end.

(** [a > b]. Numbers compare with numbers and strings with strings.
    Every other pairing is reported as a [TypeError]; for two lists
    Python would compare them and raise the [TypeError] only at the
    [+ 1] that follows in [get_next_chunk_to_publish]. *)
Definition py_gt (a b : pyval) : result bool :=
  match as_number a, as_number b with
  | Some x, Some y => mret (y <? x)
  | _, _ =>
      match a, b with
      | PStr s, PStr t => mret (str_gtb s t)
      | _, _ => raise TypeError
      end
  end.

(** [max(items)] for a non-empty list: the running maximum is replaced
    by each later item that compares greater. *)
Fixpoint py_max_from (best : pyval) (items : list pyval) : result pyval :=
  match items with
  | [] => mret best
  | v :: rest =>
      g ← py_gt v best;
      py_max_from (if (g : bool) then v else best) rest
  end.

(** [v + 1] *)
Definition py_add1 (v : pyval) : result Z :=
  match as_number v with
  | Some z => mret (z + 1)
  | None => raise TypeError
  end.

(** The body of the [try] block. *)
Definition next_chunk_body (f : log_file) : result Z :=
  match f with
  | LogAbsent => mret 0
  | LogUnreadable => raise ReadError
  | LogLoaded log =>
      published ← py_get log (py "published") (PList []);
      entries ← py_iter published;
      published_indices ← mapM (fun entry => py_getitem entry (py "chunk_index"))
                               entries;
      match published_indices with
      | [] => mret 0
      | first :: rest =>
          m ← py_max_from first rest;
          py_add1 m
      end
  end.

(** [except Exception: return 0] *)
Definition get_next_chunk_to_publish (f : log_file) : Z :=
  match next_chunk_body f with
  | inr n => n
  | inl _ => 0
  end.

(** [d[key] = v] on a dict: the member that [d[key]] reads is replaced,
    or a new member is added at the end. Members shadowed by a later one
    with the same key stay in the list; nothing reads them. *)
Fixpoint dict_set (key : str) (v : pyval) (items : list (str * pyval))
  : list (str * pyval) :=
  match items with
  | [] => [(key, v)]
  | (k, x) :: rest =>
      match dict_lookup key rest with
      | Some _ => (k, x) :: dict_set key v rest
      | None => if str_eqb k key then (k, v) :: rest
                else (k, x) :: dict_set key v rest
      end
  end.

(** The entry [mark_as_published] appends; [now] is the time stamp
    [datetime.now().isoformat()]. *)
Definition published_entry (chunk_index : Z) (post_id now : str) : pyval :=
  PDict [ (py "chunk_index", PInt chunk_index);
          (py "post_id", PStr post_id);
          (py "published_at", PStr now);
          (py "url", PStr (py "https://thucydides.caseyjr.org/" ++ post_id)) ].

(** [mark_as_published]: the log file after the call, or the exception
    raised. Writing the file is taken to succeed. *)
Definition mark_as_published (f : log_file) (chunk_index : Z) (post_id now : str)
  : result log_file :=
  log ← match f with
        | LogAbsent => mret (PDict [(py "published", PList [])])
        | LogUnreadable => raise ReadError
        | LogLoaded log => mret log
        end;
  published ← py_getitem log (py "published");
  match published, log with
  | PList l, PDict items =>
      mret (LogLoaded (PDict (dict_set (py "published")
              (PList (l ++ [published_entry chunk_index post_id now])) items)))
  | PList _, _ => raise TypeError
  | _, _ => raise AttributeError
  end.

(** [truncate_text(text, max_length, suffix)] *)
Definition truncate_text (text : str) (max_length : Z) (suffix : str) : str :=
  if len text <=? max_length then text
  else
    let truncated := slice_to (max_length - len suffix) text in
    let last_space := rfind " " truncated in
    let truncated :=
      if 0 <? last_space then slice_to last_space truncated else truncated in
    truncated ++ suffix.

(** *** Notions used to state the properties of the text clean-up *)

(** The only whitespace of [s] is the plain space. *)
Definition plain (s : str) : Prop :=
  Forall (fun c => isspace c = true -> c = " "%char) s.

(** *** Notions used to state the properties of the log *)

(** A log entry as [mark_as_published] writes it: a dict whose
    [chunk_index] is the integer [i]. *)
Definition published_as (entry : pyval) (i : Z) : Prop :=
  exists items, entry = PDict items
                /\ dict_lookup (py "chunk_index") items = Some (PInt i).

Definition entry_of (i : Z) : pyval :=
  PDict [ (py "chunk_index", PInt i); (py "post_id", PStr (py "p")) ].

Definition sample_log : log_file :=
  LogLoaded (PDict [ (py "published", PList [entry_of 3; entry_of 7; entry_of 5]) ]).

(** The log holds entries, in this order, for the indices [indices]. *)
Definition log_holds (f : log_file) (indices : list Z) : Prop :=
  match f with
  | LogAbsent => indices = []
  | LogUnreadable => False
  | LogLoaded log =>
      exists items entries,
        log = PDict items
        /\ dict_lookup (py "published") items = Some (PList entries)
        /\ Forall2 published_as entries indices
  end.

End Utils.

(** ** src/parser.py *)

Module Parser.
Import PyStr Re Utils.

Definition roman_map (c : ascii) : Z :=
  if Ascii.eqb c "I" then 1
  else if Ascii.eqb c "V" then 5
  else if Ascii.eqb c "X" then 10
  else if Ascii.eqb c "L" then 50
  else if Ascii.eqb c "C" then 100
  else if Ascii.eqb c "D" then 500
  else if Ascii.eqb c "M" then 1000
  else 0.

(** One turn of the loop of [roman_to_int] on the pair
    [(result, prev_value)]. *)
Definition roman_step (acc : Z * Z) (char : ascii) : Z * Z :=
  let '(result, prev_value) := acc in
  let value := roman_map char in
  (if value <? prev_value then result - value else result + value, value).

Definition roman_to_int (s : str) : Z :=
  fst (fold_left roman_step (reverse s) (0, 0)).

Definition roman_digits : regex := Plus (OneOf (py "IVXLCDM")).

(** [BOOK\s+[IVXLCDM]+] and [BOOK\s+([IVXLCDM]+)] *)
Definition book_re : regex :=
  Seq (Lit (py "BOOK")) (Seq (Plus Space) roman_digits).
Definition book_number_re : regex :=
  Seq (Lit (py "BOOK")) (Seq (Plus Space) (Grp 1 roman_digits)).

(** [CHAPTER\s+[IVXLCDM]+] and [CHAPTER\s+([IVXLCDM]+)] *)
Definition chapter_re : regex :=
  Seq (Lit (py "CHAPTER")) (Seq (Plus Space) roman_digits).
Definition chapter_number_re : regex :=
  Seq (Lit (py "CHAPTER")) (Seq (Plus Space) (Grp 1 roman_digits)).

(** [\n\s*\n] *)
Definition blank_line_re : regex :=
  Seq (Chr newline) (Seq (Star Space) (Chr newline)).

Definition split_into_paragraphs (text : str) : list str :=
  let paragraphs := re_split blank_line_re text in
  map clean_text
      (List.filter (fun p => negb (Nat.eqb (length (strip p)) 0)) paragraphs).

(** [parsing_config] *)
Record config : Type := Config {
  target_chunk_size : Z;
  min_chunk_size : Z;
  max_chunk_size : Z
}.

(** The dict built by [_finalize_chunk]. *)
Record chunk : Type := Chunk {
  chunk_index : Z;
  book : Z;
  chapter : Z;
  original_text : str;
  character_count : Z;
  word_count : Z;
  paragraph_count : Z
}.

Definition paragraph_sep : str := [newline; newline].

Definition _finalize_chunk (paragraphs : list str) (book chapter index : Z)
  : chunk :=
  let text := join paragraph_sep paragraphs in
  Chunk index book chapter text (len text) (estimate_word_count text)
        (Z.of_nat (length paragraphs)).

(** The local variables of [create_chunks] that the loop updates. *)
Record loop_state : Type := LoopState {
  chunks : list chunk;
  current_chunk : list str;
  current_size : Z;
  current_book : Z;
  current_chapter : Z
}.

Definition initial_state : loop_state := LoopState [] [] 0 1 1.

(** [chunks.append(self._finalize_chunk(current_chunk, current_book,
    current_chapter, len(chunks)))] *)
Definition append_chunk (st : loop_state) (paragraphs : list str) : list chunk :=
  chunks st ++ [_finalize_chunk paragraphs (current_book st) (current_chapter st)
                                (Z.of_nat (length (chunks st)))].

Definition is_empty {A : Type} (l : list A) : bool :=
  match l with [] => true | _ => false end.

Definition is_book_marker (para : str) : bool :=
  bool_decide (is_Some (re_match book_re (strip para))).

Definition is_chapter_marker (para : str) : bool :=
  bool_decide (is_Some (re_match chapter_re (strip para))).

(** The number a marker paragraph carries, when the pattern with the
    group matches it. *)
Definition marker_number (r : regex) (para : str) : option Z :=
  m ← re_match r (strip para);
  g ← group 1 m;
  Some (roman_to_int g).

(** The body of the [for para in paragraphs] loop. *)
Definition loop_body (cfg : config) (st : loop_state) (para : str) : loop_state :=
  let para_len := len para in
  if is_book_marker para then
    let st1 :=
      if negb (is_empty (current_chunk st))
      then LoopState (append_chunk st (current_chunk st)) [] 0
                     (current_book st) (current_chapter st)
      else st in
    LoopState (chunks st1) (current_chunk st1) (current_size st1)
              (default (current_book st1) (marker_number book_number_re para))
              (current_chapter st1)
  else if is_chapter_marker para then
    let st1 :=
      if negb (is_empty (current_chunk st)) && (min_chunk_size cfg <=? current_size st)
      then LoopState (append_chunk st (current_chunk st)) [] 0
                     (current_book st) (current_chapter st)
      else st in
    LoopState (chunks st1) (current_chunk st1) (current_size st1)
              (current_book st1)
              (default (current_chapter st1) (marker_number chapter_number_re para))
  else if (max_chunk_size cfg <? current_size st + para_len)
          && negb (is_empty (current_chunk st)) then
    LoopState (append_chunk st (current_chunk st)) [para] para_len
              (current_book st) (current_chapter st)
  else if (target_chunk_size cfg <=? current_size st + para_len)
          && (min_chunk_size cfg <=? current_size st) then
    LoopState (append_chunk st (current_chunk st ++ [para])) [] 0
              (current_book st) (current_chapter st)
  else
    LoopState (chunks st) (current_chunk st ++ [para]) (current_size st + para_len)
              (current_book st) (current_chapter st).

(** The flush after the loop. *)
Definition last_chunk (st : loop_state) : list chunk :=
  if negb (is_empty (current_chunk st))
  then append_chunk st (current_chunk st)
  else chunks st.

Definition chunk_paragraphs (cfg : config) (paragraphs : list str) : list chunk :=
  last_chunk (fold_left (loop_body cfg) paragraphs initial_state).

(** [create_chunks] also calls [identify_structure] on the text, but
    never uses what it returns; that call is left out. *)
Definition create_chunks (cfg : config) (text : str) : list chunk :=
  chunk_paragraphs cfg (split_into_paragraphs text).

(** [source_config]: the markers of the Gutenberg boilerplate. *)
Record source : Type := Source {
  start_marker : str;
  end_marker : str
}.

(** The first stage of [extract_main_text]: the text between the
    boilerplate markers, trimmed. *)
Definition strip_boilerplate (src : source) (full_text : str) : str :=
  let start_idx := find_sub (start_marker src) full_text in
  let start_idx :=
    if start_idx =? -1 then 0
    else
      let start_idx := find_sub_at [newline] start_idx full_text + 1 in
      find_sub_at [newline] start_idx full_text + 1 in
  let end_idx := find_sub (end_marker src) full_text in
  let end_idx := if end_idx =? -1 then len full_text else end_idx in
  strip (slice start_idx end_idx full_text).

Definition book_one_patterns : list str :=
  [py "BOOK I"; py "FIRST BOOK"; py "Book I"; py "Book 1"].

(** The loop over [book_one_patterns]: the position of the first pattern
    that occurs in the first quarter of the text, or -1. *)
Fixpoint find_book_one (patterns : list str) (text : str) : Z :=
  match patterns with
  | [] => -1
  | pattern :: rest =>
      let idx := find_sub pattern text in
      if negb (idx =? -1) && (idx <? len text / 4) then idx
      else find_book_one rest text
  end.

(** The second stage: what precedes the start of Book I is removed. *)
Definition strip_preliminaries (text : str) : str :=
  let actual_start := find_book_one book_one_patterns text in
  let text := if 0 <? actual_start then slice_from actual_start text else text in
  strip text.

Definition extract_main_text (src : source) (full_text : str) : str :=
  strip_preliminaries (strip_boilerplate src full_text).

(** The totals of [parse_and_save]. *)
Definition total_characters (cs : list chunk) : Z :=
  fold_right (fun c n => character_count c + n) 0 cs.

Definition total_words (cs : list chunk) : Z :=
  fold_right (fun c n => word_count c + n) 0 cs.

(** *** Notions used to state the properties of the numerals *)

(** The values of the characters of a numeral, added up. *)
Definition roman_sum (s : str) : Z :=
  fold_right (fun c n => roman_map c + n) 0 s.

(** A numeral whose values never increase from left to right. *)
Fixpoint descending (s : str) : Prop :=
  match s with
  | c :: (d :: _) as s' => roman_map d <= roman_map c /\ descending s'
  | _ => True
  end.

(** *** Notions used to state the properties of the chunker *)

(** The paragraphs that are structural markers, and the others. *)
Definition is_marker (para : str) : bool :=
  is_book_marker para || is_chapter_marker para.

Definition ordinary (paragraphs : list str) : list str :=
  List.filter (fun p => negb (is_marker p)) paragraphs.

(** A passage made of the paragraphs [group]: its text is their join and
    its counts are theirs. *)
Definition made_of (c : chunk) (group : list str) : Prop :=
  group <> []
  /\ original_text c = join paragraph_sep group
  /\ paragraph_count c = Z.of_nat (length group)
  /\ character_count c = len (original_text c).

(** The passages [cs] cut the paragraphs [paragraphs], markers removed,
    into consecutive groups: nothing lost, repeated or reordered. *)
Definition cover (cs : list chunk) (paragraphs : list str) : Prop :=
  exists groups : list (list str),
    Forall2 made_of cs groups /\ concat groups = ordinary paragraphs.

(** A passage as [_finalize_chunk] builds it from the paragraphs [g]. *)
Definition finalized (c : chunk) (g : list str) : Prop :=
  g <> [] /\ exists b ch i, c = _finalize_chunk g b ch i.

Definition total_length (paragraphs : list str) : Z :=
  fold_right (fun p n => len p + n) 0 paragraphs.

Definition total_word_count (paragraphs : list str) : Z :=
  fold_right (fun p n => estimate_word_count p + n) 0 paragraphs.

(** The size bound in the form "every passage but the last has at most
    [max_chunk_size] characters, unless some paragraph alone is longer". *)
Definition size_bound_on_character_count (cfg : config) (text : str) : Prop :=
  min_chunk_size cfg <= target_chunk_size cfg <= max_chunk_size cfg ->
  forall (i : nat) (c : chunk),
    nth_error (create_chunks cfg text) i = Some c ->
    (S i < length (create_chunks cfg text))%nat ->
    character_count c <= max_chunk_size cfg
    \/ exists p, In p (split_into_paragraphs text) /\ max_chunk_size cfg < len p.

(** The size bound the loop maintains: the paragraphs of a passage,
    separators not counted, total at most [max_chunk_size], unless the
    passage is a single paragraph. *)
Definition within_bound (cfg : config) (c : chunk) : Prop :=
  character_count c - 2 * (paragraph_count c - 1) <= max_chunk_size cfg
  \/ (paragraph_count c = 1 /\ max_chunk_size cfg < character_count c).

(** The chapter number after a book marker, in the form "it is set
    back to 1". *)
Definition resets_chapter_at_book_marker (cfg : config) (st : loop_state)
    (para : str) : Prop :=
  is_book_marker para = true -> current_chapter (loop_body cfg st para) = 1.

(** The accumulator invariant behind that bound: [current_size] is the
    total length of the accumulated paragraphs, and it is at most
    [max_chunk_size] unless at most one paragraph is accumulated. *)
Definition accumulator_ok (cfg : config) (st : loop_state) : Prop :=
  current_size st = total_length (current_chunk st)
  /\ ((length (current_chunk st) <= 1)%nat
      \/ current_size st <= max_chunk_size cfg).

(** The end-to-end scenario: a book marker, a first paragraph, a chapter
    marker, a second paragraph. *)
Definition scenario_config : config := Config 2500 2000 3000.

Definition scenario_text (p1 p2 : str) : str :=
  py "BOOK I" ++ paragraph_sep ++ p1 ++ paragraph_sep
  ++ py "CHAPTER I" ++ paragraph_sep ++ p2.

Definition scenario_first : str := repeat "a"%char 2600.
Definition scenario_second : str := repeat "b"%char 400.

(** A text whose second book starts without a chapter marker. *)
Definition two_books_text : str :=
  py "BOOK I" ++ paragraph_sep ++ py "CHAPTER V" ++ paragraph_sep
  ++ py "alpha" ++ paragraph_sep ++ py "BOOK II" ++ paragraph_sep ++ py "beta".

(** The loop state reached on that text just before [BOOK II]. *)
Definition state_before_second_book : loop_state :=
  fold_left (loop_body scenario_config)
            [py "BOOK I"; py "CHAPTER V"; py "alpha"] initial_state.

(** A small configuration and a text of three short paragraphs. *)
Definition small_config : config := Config 3 2 4.

Definition three_paragraphs : str :=
  py "ab" ++ paragraph_sep ++ py "cd" ++ paragraph_sep ++ py "e".

End Parser.

(** ** [json.loads]

    Python's strict JSON decoder, as the recovery code calls it. A
    decoded string is kept as the list of its code units (a [\uXXXX]
    escape contributes one unit), a number without fraction and exponent
    as an integer, any other number by its spelling, and an object as the
    list of its members in document order. [None] stands for
    [JSONDecodeError]. *)

Module Json.
Import PyStr.

Inductive json : Type :=
| JNull
| JBool (b : bool)
| JInt (z : Z)
| JFloat (lexeme : str)
| JString (s : list N)
| JArray (items : list json)
| JObject (members : list (list N * json)).

Definition is_ws (c : ascii) : bool :=
  Ascii.eqb c " " || Ascii.eqb c "009" || Ascii.eqb c "010" || Ascii.eqb c "013".

Fixpoint skip_ws (s : str) : str :=
  match s with
  | c :: s' => if is_ws c then skip_ws s' else s
  | [] => []
  end.

Definition is_digit (c : ascii) : bool :=
  ((48 <=? code c) && (code c <=? 57))%N.

Definition digit_value (c : ascii) : Z := Z.of_N (code c) - 48.

Definition hex_value (c : ascii) : option N :=
  let n := code c in
  if ((48 <=? n) && (n <=? 57))%N then Some (n - 48)%N
  else if ((65 <=? n) && (n <=? 70))%N then Some (n - 55)%N
  else if ((97 <=? n) && (n <=? 102))%N then Some (n - 87)%N
  else None.

Definition hex4 (a b c d : ascii) : option N :=
  x ← hex_value a; y ← hex_value b; z ← hex_value c; w ← hex_value d;
  Some (((x * 16 + y) * 16 + z) * 16 + w)%N.

(** The one-character escapes. *)
Definition unescape (c : ascii) : option N :=
  if Ascii.eqb c dquote then Some 34%N
  else if Ascii.eqb c backslash then Some 92%N
  else if Ascii.eqb c "/" then Some 47%N
  else if Ascii.eqb c "b" then Some 8%N
  else if Ascii.eqb c "f" then Some 12%N
  else if Ascii.eqb c "n" then Some 10%N
  else if Ascii.eqb c "r" then Some 13%N
  else if Ascii.eqb c "t" then Some 9%N
  else None.

Definition push {A B : Type} (a : A) (r : option (list A * B)) : option (list A * B) :=
  match r with
  | Some (l, b) => Some (a :: l, b)
  | None => None
  end.

(** The body of a string, from just after the opening quote up to and
    including the closing one. *)
Fixpoint scanstring (s : str) : option (list N * str) :=
  match s with
  | [] => None
  | c :: s1 =>
      if Ascii.eqb c dquote then Some ([], s1)
      else if Ascii.eqb c backslash then
        match s1 with
        | [] => None
        | e :: s2 =>
            if Ascii.eqb e "u" then
              match s2 with
              | h1 :: h2 :: h3 :: h4 :: s3 =>
                  match hex4 h1 h2 h3 h4 with
                  | Some u => push u (scanstring s3)
                  | None => None
                  end
              | _ => None
              end
            else
              match unescape e with
              | Some u => push u (scanstring s2)
              | None => None
              end
        end
      else if (code c <? 32)%N then None
      else push (code c) (scanstring s1)
  end.

(** Numbers: the characters a number can be spelled with, and the
    grammar of a number: an optional minus sign, then either a single
    zero or a non-zero digit followed by digits, then optionally a dot
    with at least one digit, then optionally [e] or [E] with an optional
    sign and at least one digit. *)
Definition is_numchar (c : ascii) : bool :=
  is_digit c || existsb (Ascii.eqb c) (py "+-.eE").

Fixpoint span (p : ascii -> bool) (s : str) : str * str :=
  match s with
  | c :: s' => if p c then let '(a, b) := span p s' in (c :: a, b) else ([], s)
  | [] => ([], [])
  end.

Definition digits_value (ds : str) : Z :=
  fold_left (fun acc d => 10 * acc + digit_value d) ds 0.

Definition nonempty_digits (s : str) : bool :=
  negb (Nat.eqb (length s) 0) && forallb is_digit s.

Definition valid_exponent (s : str) : bool :=
  match s with
  | [] => true
  | e :: s1 =>
      (Ascii.eqb e "e" || Ascii.eqb e "E")
      && match s1 with
         | sg :: s2 =>
             if Ascii.eqb sg "+" || Ascii.eqb sg "-" then nonempty_digits s2
             else nonempty_digits s1
         | [] => false
         end
  end.

Definition valid_fraction (s : str) : bool :=
  match s with
  | c :: s1 =>
      if Ascii.eqb c "."
      then let '(ds, rest) := span is_digit s1 in
           negb (Nat.eqb (length ds) 0) && valid_exponent rest
      else valid_exponent s
  | [] => true
  end.

Definition number_value (lexeme : str) : option json :=
  let '(neg, body) :=
    match lexeme with
    | c :: s' => if Ascii.eqb c "-" then (true, s') else (false, lexeme)
    | [] => (false, [])
    end in
  let '(ds, rest) := span is_digit body in
  match ds with
  | [] => None
  | d :: ds' =>
      if Ascii.eqb d "0" && negb (Nat.eqb (length ds') 0) then None
      else if negb (valid_fraction rest) then None
      else match rest with
           | [] => Some (JInt (if neg then - digits_value ds else digits_value ds))
           | _ => Some (JFloat lexeme)
           end
  end.

Definition scan_number (s : str) : option (json * str) :=
  let '(lexeme, rest) := span is_numchar s in
  match number_value lexeme with
  | Some v => Some (v, rest)
  | None =>
      if starts_with (py "NaN") s then Some (JFloat (py "NaN"), skipn 3 s)
      else if starts_with (py "Infinity") s
      then Some (JFloat (py "Infinity"), skipn 8 s)
      else if starts_with (py "-Infinity") s
      then Some (JFloat (py "-Infinity"), skipn 9 s)
      else None
  end.

Section Containers.

(** The decoder for the values nested in an array or object. *)
Variable scan : str -> option (json * str).

(** The elements of a non-empty array and its closing bracket. *)
Fixpoint array_items (fuel : nat) (s : str) : option (list json * str) :=
  match fuel with
  | O => None
  | S fuel' =>
      match scan s with
      | None => None
      | Some (v, s1) =>
          match skip_ws s1 with
          | c :: s2 =>
              if Ascii.eqb c "]" then Some ([v], s2)
              else if Ascii.eqb c "," then push v (array_items fuel' (skip_ws s2))
              else None
          | [] => None
          end
      end
  end.

Definition json_array (fuel : nat) (s : str) : option (json * str) :=
  match skip_ws s with
  | c :: s1 =>
      if Ascii.eqb c "]" then Some (JArray [], s1)
      else match array_items fuel (c :: s1) with
           | Some (vs, rest) => Some (JArray vs, rest)
           | None => None
           end
  | [] => None
  end.

(** The members of a non-empty object and its closing brace; [s] starts
    just after the opening quote of the first key. *)
Fixpoint object_members (fuel : nat) (s : str)
  : option (list (list N * json) * str) :=
  match fuel with
  | O => None
  | S fuel' =>
      match scanstring s with
      | None => None
      | Some (key, s1) =>
          match skip_ws s1 with
          | c :: s2 =>
              if Ascii.eqb c ":" then
                match scan (skip_ws s2) with
                | None => None
                | Some (v, s3) =>
                    match skip_ws s3 with
                    | d :: s4 =>
                        if Ascii.eqb d "}" then Some ([(key, v)], s4)
                        else if Ascii.eqb d "," then
                          match skip_ws s4 with
                          | q :: s5 =>
                              if Ascii.eqb q dquote
                              then push (key, v) (object_members fuel' s5)
                              else None
                          | [] => None
                          end
                        else None
                    | [] => None
                    end
                end
              else None
          | [] => None
          end
      end
  end.

Definition json_object (fuel : nat) (s : str) : option (json * str) :=
  match skip_ws s with
  | c :: s1 =>
      if Ascii.eqb c "}" then Some (JObject [], s1)
      else if Ascii.eqb c dquote then
        match object_members fuel s1 with
        | Some (ms, rest) => Some (JObject ms, rest)
        | None => None
        end
      else None
  | [] => None
  end.

End Containers.

Fixpoint scan_once (fuel : nat) (s : str) : option (json * str) :=
  match fuel with
  | O => None
  | S fuel' =>
      match s with
      | [] => None
      | c :: s1 =>
          if Ascii.eqb c dquote then
            match scanstring s1 with
            | Some (cs, rest) => Some (JString cs, rest)
            | None => None
            end
          else if Ascii.eqb c "{" then json_object (scan_once fuel') fuel' s1
          else if Ascii.eqb c "[" then json_array (scan_once fuel') fuel' s1
          else if starts_with (py "null") s then Some (JNull, skipn 4 s)
          else if starts_with (py "true") s then Some (JBool true, skipn 4 s)
          else if starts_with (py "false") s then Some (JBool false, skipn 5 s)
          else scan_number s
      end
  end.

(** [json.loads(s)]: one value, surrounded by optional whitespace. *)
Definition json_loads (s : str) : option json :=
  match scan_once (S (length s)) (skip_ws s) with
  | Some (v, rest) =>
      match skip_ws rest with
      | [] => Some v
      | _ => None
      end
  | None => None
  end.

(** *** Notions used to state the properties of the decoder *)

(** What may follow a value without changing how it is read: nothing,
    or a character no number is spelled with. *)
Definition follow_ok (rest : str) : Prop :=
  match rest with
  | [] => True
  | c :: _ => is_numchar c = false
  end.

(** A decoder [run] reads only what it consumes: when it succeeds on
    [s] it has consumed a non-empty prefix [a] of it, and [rerun], given
    fuel beyond the length of [a], reads [a] in the same way in front of
    any other admissible continuation. *)
Definition reads_locally {V : Type} (run : str -> option (V * str))
    (rerun : nat -> str -> option (V * str)) : Prop :=
  forall s v rest,
    run s = Some (v, rest) ->
    exists a, s = a ++ rest /\ a <> []
              /\ forall m rest', (length a < m)%nat -> follow_ok rest' ->
                                rerun m (a ++ rest') = Some (v, rest').

End Json.

(** ** fill_gaps_improved.py *)

Module FillGapsImproved.
Import PyStr Re Json.

Definition backticks : regex := Lit (py "```").

(** The opening fence: start of text, three backticks, an optional
    [json], whitespace, an optional newline. *)
Definition fence_open_re : regex :=
  Seq Bol (Seq backticks (Seq (Opt (Lit (py "json")))
    (Seq (Star Space) (Opt (Chr newline))))).

(** The closing fence: an optional newline, three backticks, whitespace,
    end of text. *)
Definition fence_close_re : regex :=
  Seq (Opt (Chr newline)) (Seq backticks (Seq (Star Space) Eol)).

(** A comma, then group 1: whitespace and a closing brace or bracket. *)
Definition trailing_comma_re : regex :=
  Seq (Chr ",") (Grp 1 (Seq (Star Space) (OneOf (py "}]")))).

(** The replacement text of [clean_json_response] is spelled with a
    doubled backslash in a raw string: the template is an escaped
    backslash followed by the digit 1, which [re] expands to those two
    characters. *)
Definition backslash_one : list repl_item := [RLit [backslash; "1"%char]].

Definition clean_json_response (text : str) : str :=
  let text := strip text in
  let text := re_sub fence_open_re [] text in
  let text := re_sub fence_close_re [] text in
  let text := strip text in
  let start := find "{" text in
  let end_ := rfind "}" text in
  let text :=
    if negb (start =? -1) && negb (end_ =? -1) && (0 <? start)
    then slice start (end_ + 1) text
    else text in
  re_sub trailing_comma_re backslash_one text.

(** Everything up to the first opening brace, from the start of the
    text; everything after the last closing brace, to the end. *)
Definition before_brace_re : regex := Seq Bol (Star (NoneOf (py "{"))).
Definition after_brace_re : regex := Seq (Star (NoneOf (py "}"))) Eol.

(** The handling of one response in [enrich_chunk_with_retry]: the basic
    clean and a strict parse, then, if that fails, the more aggressive
    clean and a second strict parse. *)
Definition parse_response (response_text : str) : option json :=
  let cleaned := clean_json_response response_text in
  match json_loads cleaned with
  | Some enriched_content => Some enriched_content
  | None =>
      let cleaned := re_sub before_brace_re [] cleaned in
      let cleaned := re_sub after_brace_re [] cleaned in
      json_loads cleaned
  end.

(** What one call of [enrich_chunk_with_retry] comes to. *)
Inductive retry_outcome : Type :=
| Enriched (attempt : nat) (enriched_content : json)
| JsonParseError (attempt : nat)
| OtherError (attempt : nat)
| MaxRetriesExceeded.

(** The loop [for attempt in range(max_retries)], from [attempt] on with
    [remaining] turns left. [respond attempt] is the text the service
    answers at that attempt, or [None] when loading the chunk or calling
    the service raises. *)
Fixpoint retry_from (respond : nat -> option str) (max_retries : nat)
    (attempt remaining : nat) : retry_outcome :=
  match remaining with
  | O => MaxRetriesExceeded
  | S remaining' =>
      match respond attempt with
      | None => OtherError attempt
      | Some response_text =>
          match parse_response response_text with
          | Some enriched_content => Enriched attempt enriched_content
          | None =>
              if (attempt <? max_retries - 1)%nat
              then retry_from respond max_retries (S attempt) remaining'
              else JsonParseError attempt
          end
      end
  end.

Definition enrich_chunk_with_retry (respond : nat -> option str)
    (max_retries : nat) : retry_outcome :=
  retry_from respond max_retries 0 max_retries.

(** *** Notions used to state the properties of the retries *)

(** The service answers attempt [i] with a text that [parse_response]
    cannot read. *)
Definition unparseable (respond : nat -> option str) (i : nat) : Prop :=
  exists t, respond i = Some t /\ parse_response t = None.

(** *** Sample responses *)

(** An object with a trailing comma before its closing brace. *)
Definition trailing_comma_response : str := lit "{'a': 1,}".

(** A valid object whose string value holds a comma followed by a
    closing brace. *)
Definition comma_in_string_response : str := lit "{'a': ',}'}".

(** A valid object with whitespace around it. *)
Definition padded_response : str := lit "  {'a': [1, 2], 'b': 'x'} ".

End FillGapsImproved.

(** ** fill_gaps_nuclear.py *)

Module FillGapsNuclear.
Import PyStr Re Json.

Definition fix_json_delimiters (text : str) : str :=
  let text := re_sub FillGapsImproved.trailing_comma_re [RGroup 1] text in
  let text :=
    re_sub (Seq (Chr dquote) (Seq (Star Space) (Seq (Chr newline)
              (Seq (Star Space) (Chr dquote)))))
           [RLit [dquote; ","%char; newline; dquote]] text in
  let text :=
    re_sub (Seq (Chr "}") (Seq (Star Space) (Seq (Chr newline)
              (Seq (Star Space) (Chr dquote)))))
           [RLit ["}"%char; ","%char; newline; dquote]] text in
  re_sub (Seq (Chr "]") (Seq (Star Space) (Seq (Chr newline)
            (Seq (Star Space) (Chr "[")))))
         [RLit (py "],") ; RLit [newline]; RLit (py "[")] text.

(** The control characters, tab, newline and carriage return apart. *)
Definition is_control (c : ascii) : bool :=
  let n := code c in
  ((n <=? 8) || (11 <=? n) && (n <=? 12) || (14 <=? n) && (n <=? 31)
   || (n =? 127))%N.

Definition nuclear_json_clean (text : str) : str :=
  let text := strip text in
  let text := re_sub FillGapsImproved.fence_open_re [] text in
  let text := re_sub FillGapsImproved.fence_close_re [] text in
  let start := find "{" text in
  let end_ := rfind "}" text in
  let text :=
    if negb (start =? -1) && negb (end_ =? -1)
    then slice start (end_ + 1) text
    else text in
  let text := fix_json_delimiters text in
  re_sub (Cls is_control) [] text.

(** What the field scrape can salvage: a text or a list of texts. *)
Inductive salvaged : Type :=
| SText (s : str)
| SList (l : list str).

(** A quoted key, a colon, a quoted value (group 1) that may hold
    escaped characters, and a comma. *)
Definition string_field_re (key : str) : regex :=
  Seq (Chr dquote) (Seq (Lit key) (Seq (Chr dquote)
    (Seq (Star Space) (Seq (Chr ":") (Seq (Star Space)
      (Seq (Chr dquote)
        (Seq (Grp 1 (Star (Alt (NoneOf [dquote; backslash])
                               (Seq (Chr backslash) AnyChar))))
          (Seq (Chr dquote) (Seq (Star Space) (Chr ",")))))))))).

(** The quoted key [key_themes], a colon, and a bracketed value
    (group 1, as short as possible). *)
Definition key_themes_re : regex :=
  Seq (Chr dquote) (Seq (Lit (py "key_themes")) (Seq (Chr dquote)
    (Seq (Star Space) (Seq (Chr ":") (Seq (Star Space)
      (Seq (Chr "[") (Seq (Grp 1 (StarLazy AnyChar)) (Chr "]")))))))).

(** A quoted text without quotes inside (group 1). *)
Definition quoted_re : regex :=
  Seq (Chr dquote) (Seq (Grp 1 (Star (NoneOf [dquote]))) (Chr dquote)).

Definition unescape_field (s : str) : str :=
  replace [backslash; "n"%char] [newline]
          (replace [backslash; dquote] [dquote] s).

Definition scrape_text (key : str) (text : str) : option salvaged :=
  m ← re_search (string_field_re key) text;
  Some (SText (unescape_field (default [] (group 1 m)))).

Definition scrape_themes (text : str) : option salvaged :=
  m ← re_search key_themes_re text;
  Some (SList (re_findall1 quoted_re (default [] (group 1 m)))).

(** [result[key] = value] when the field was found. *)
Definition store (key : string) (v : option salvaged)
    (result : gmap string salvaged) : gmap string salvaged :=
  match v with
  | Some x => <[key := x]> result
  | None => result
  end.

Definition manual_json_repair (text : str) : option (gmap string salvaged) :=
  let result := ∅ in
  let result := store "modern_translation"
                      (scrape_text (py "modern_translation") text) result in
  let result := store "context" (scrape_text (py "context") text) result in
  let result := store "key_themes" (scrape_themes text) result in
  if (2 <=? size result)%nat then Some result else None.

(** The values a chunk dict holds under the keys this script writes. *)
Inductive value : Type :=
| VJson (j : json)
| VSalvaged (m : gmap string salvaged)
| VText (s : str).

(** [if manual_result:] a missing result and an empty dict are false. *)
Definition truthy (r : option (gmap string salvaged)) : bool :=
  match r with
  | Some m => negb (Nat.eqb (size m) 0)
  | None => false
  end.

(** [enrich_with_nuclear_option] from the point where the response text
    is at hand: the chunk to be saved (if any), the success flag and the
    method reported. *)
Definition enrich_with_nuclear_option (model : str) (chunk : gmap string value)
    (response_text : str) : option (gmap string value) * bool * string :=
  match json_loads (nuclear_json_clean response_text) with
  | Some enriched_content =>
      let chunk := <["enriched" := VJson enriched_content]> chunk in
      let chunk := <["enrichment_model" := VText model]> chunk in
      (Some chunk, true, "nuclear_clean"%string)
  | None =>
      let manual_result := manual_json_repair response_text in
      if truthy manual_result then
        let chunk := <["enriched" := VSalvaged (default ∅ manual_result)]> chunk in
        let chunk := <["enrichment_model" := VText model]> chunk in
        let chunk := <["enrichment_status" := VText (py "partial")]> chunk in
        (Some chunk, true, "manual_repair"%string)
      else (None, false, "all_strategies_failed"%string)
  end.

(** *** Notions used to state the properties of the delimiter fix *)

Definition is_closer (c : ascii) : bool := existsb (Ascii.eqb c) (py "}]").

(** The text ahead closes: whitespace, then a closing brace or bracket. *)
Definition closes (s : str) : bool :=
  match snd (span isspace s) with
  | d :: _ => is_closer d
  | [] => false
  end.

(** The text without the commas that a closing brace or bracket
    follows, whitespace apart. *)
Fixpoint drop_commas (s : str) : str :=
  match s with
  | [] => []
  | c :: s' =>
      if Ascii.eqb c "," && closes s' then drop_commas s'
      else c :: drop_commas s'
  end.

(** The match of the trailing-comma pattern at the start of [s]. *)
Definition comma_hit (s : str) : option (list (nat * str) * str * str) :=
  match s with
  | c :: s1 =>
      if Ascii.eqb c "," then
        let '(ws, rest) := span isspace s1 in
        match rest with
        | d :: after =>
            if is_closer d then Some ([(1%nat, ws ++ [d])], c :: ws ++ [d], after)
            else None
        | [] => None
        end
      else None
  | [] => None
  end.

(** *** Sample responses *)

(** A broken response in which only the context can be found. *)
Definition only_context_response : str :=
  lit "{'context': 'only this', broken".

(** A broken response with a translation and a context but no themes. *)
Definition two_fields_response : str :=
  lit "{'modern_translation': 'mt', 'context': 'ctx', broken".

End FillGapsNuclear.

(** ** src/enricher.py *)

Module Enricher.
Import PyStr Re Utils Parser Json FillGapsImproved.

(** A chunk of the chunks file: the parser's fields and, once the chunk
    is enriched, what is stored under [enriched] and
    [enrichment_model]. *)
Record stored_chunk : Type := Stored {
  parsed : chunk;
  enriched : option json;
  enrichment_model : option str
}.

(** [chunks[i]] and [chunks[i] = x], negative indices counting from the
    end; [None] stands for the [IndexError]. *)
Definition py_index {A : Type} (l : list A) (i : Z) : option A :=
  let n := Z.of_nat (length l) in
  if 0 <=? i then nth_error l (Z.to_nat i)
  else if - n <=? i then nth_error l (Z.to_nat (n + i))
  else None.

Definition py_set_index {A : Type} (l : list A) (i : Z) (x : A) : option (list A) :=
  let n := Z.of_nat (length l) in
  if (0 <=? i) && (i <? n) then Some (<[Z.to_nat i := x]> l)
  else if (- n <=? i) && (i <? 0) then Some (<[Z.to_nat (n + i) := x]> l)
  else None.

(** [range(start, stop)] *)
Definition py_range (start stop : Z) : list Z :=
  map (fun k => start + Z.of_nat k) (seq 0 (Z.to_nat (stop - start))).

(** The clean-up and the strict parse of [enrich_chunk]. *)
Definition parse_enrichment (response_text : str) : option json :=
  let response_text := strip response_text in
  let response_text := re_sub fence_open_re [] response_text in
  let response_text := re_sub fence_close_re [] response_text in
  let response_text := strip response_text in
  json_loads response_text.

(** [enrich_chunk]: [response] is the text the service answers, or
    [None] when the call raises. The chunk is returned in every case,
    with the two keys set only when the answer parses. *)
Definition enrich_chunk (response : option str) (model : str)
    (chunk : stored_chunk) : stored_chunk :=
  match response with
  | None => chunk
  | Some response_text =>
      match parse_enrichment response_text with
      | Some enriched_content =>
          Stored (parsed chunk) (Some enriched_content) (Some model)
      | None => chunk
      end
  end.

(** The loop of [enrich_all_chunks] over the indices still to visit;
    [respond i chunk] is the answer of the service to the prompt made at
    index [i]. [None] stands for the [IndexError] of [chunks[i]]. *)
Fixpoint enrich_loop (respond : Z -> stored_chunk -> option str) (model : str)
    (indices : list Z) (chunks : list stored_chunk)
  : option (list stored_chunk) :=
  match indices with
  | [] => Some chunks
  | i :: rest =>
      if Z.of_nat (length chunks) <=? i then Some chunks
      else
        match py_index chunks i with
        | None => None
        | Some chunk =>
            match enriched chunk with
            | Some _ => enrich_loop respond model rest chunks
            | None =>
                let enriched_chunk := enrich_chunk (respond i chunk) model chunk in
                match py_set_index chunks i enriched_chunk with
                | Some chunks' => enrich_loop respond model rest chunks'
                | None => None
                end
            end
        end
  end.

(** [enrich_all_chunks]: the chunks saved at the end. *)
Definition enrich_all_chunks (respond : Z -> stored_chunk -> option str)
    (model : str) (start_index : Z) (end_index : option Z)
    (chunks : list stored_chunk) : option (list stored_chunk) :=
  let end_index := default (Z.of_nat (length chunks)) end_index in
  enrich_loop respond model (py_range start_index end_index) chunks.

(** *** Notions used to state the properties of the enrichment *)

(** What a run over the indices from [start_index] to [end_index] makes
    of the chunk at position [k]. *)
Definition enriched_at (respond : Z -> stored_chunk -> option str) (model : str)
    (start_index end_index : Z) (k : nat) (chunk : stored_chunk) : stored_chunk :=
  if (start_index <=? Z.of_nat k) && (Z.of_nat k <? end_index) then
    match enriched chunk with
    | Some _ => chunk
    | None => enrich_chunk (respond (Z.of_nat k) chunk) model chunk
    end
  else chunk.

(** A chunk as the parser saves it. *)
Definition fresh (c : chunk) : stored_chunk := Stored c None None.

(** What a run may do to a chunk: nothing to the fields of the parser,
    and nothing at all to a chunk that is enriched. *)
Definition kept (c c' : stored_chunk) : Prop :=
  parsed c' = parsed c /\ (is_Some (enriched c) -> c' = c).

End Enricher.

(** ** src/publisher.py *)

Module Publisher.
Import PyStr Utils Parser Json Enricher.

Inductive publish_outcome : Type :=
| AllPublished
| NotEnriched
| IndexError
| RequestFailed
| Published (post_id : str) (log : log_file)
| PostedNotLogged (post_id : str).

(** [publish_next], with [publish_post] inlined. [post chunk] is the
    identifier the blog returns for the post made of [chunk], or [None]
    when formatting the post or the request raises; [now] is the time of
    the call. *)
Definition publish_next (post : stored_chunk -> option str) (now : str)
    (f : log_file) (chunks : list stored_chunk) : publish_outcome :=
  let next_index := get_next_chunk_to_publish f in
  if Z.of_nat (length chunks) <=? next_index then AllPublished
  else
    match py_index chunks next_index with
    | None => IndexError
    | Some chunk =>
        match enriched chunk with
        | None => NotEnriched
        | Some _ =>
            match post chunk with
            | None => RequestFailed
            | Some post_id =>
                match mark_as_published f (chunk_index (parsed chunk)) post_id now with
                | inr f' => Published post_id f'
                | inl _ => PostedNotLogged post_id
                end
            end
        end
    end.

End Publisher.

(** * Properties *)

Import PyStr Re Utils Parser.

(** ** Joining paragraphs *)

Section Join.

Variable sep : str.

Lemma join_cons (p : str) (rest : list str) :
  rest <> [] -> join sep (p :: rest) = p ++ sep ++ join sep rest.
Proof. destruct rest; [congruence | reflexivity]. Qed.

Lemma join_app (a b : list str) :
  a <> [] -> b <> [] -> join sep (a ++ b) = join sep a ++ sep ++ join sep b.
Proof.
  induction a as [|p a IH]; intros Ha Hb; [congruence|].
  destruct a as [|q a].
  - simpl app. now rewrite join_cons.
  - change ((p :: q :: a) ++ b) with (p :: ((q :: a) ++ b)).
    rewrite join_cons by (simpl; congruence).
    rewrite IH by congruence.
    rewrite (join_cons p (q :: a)) by congruence.
    now rewrite <- !app_assoc.
Qed.

Lemma concat_nonempty (groups : list (list str)) :
  groups <> [] -> Forall (fun g => g <> []) groups -> concat groups <> [].
Proof.
  destruct groups as [|g groups]; [congruence|].
  intros _ H. inversion H as [|? ? Hg _]; subst.
  destruct g; [congruence | simpl; congruence].
Qed.

Lemma join_concat (groups : list (list str)) :
  Forall (fun g => g <> []) groups ->
  join sep (map (join sep) groups) = join sep (concat groups).
Proof.
  induction groups as [|g groups IH]; intros H; [reflexivity|].
  inversion H as [|? ? Hg Hrest]; subst.
  destruct groups as [|g' groups].
  - simpl. now rewrite app_nil_r.
  - change (map (join sep) (g :: g' :: groups))
      with (join sep g :: map (join sep) (g' :: groups)).
    rewrite join_cons by (simpl; congruence).
    rewrite IH by assumption.
    change (concat (g :: g' :: groups)) with (g ++ concat (g' :: groups)).
    rewrite join_app; auto.
    apply concat_nonempty; [congruence | assumption].
Qed.

Lemma len_app (a b : str) : len (a ++ b) = len a + len b.
Proof. unfold len. rewrite length_app. lia. Qed.

Lemma len_join (g : list str) :
  g <> [] ->
  len (join sep g) = total_length g + len sep * (Z.of_nat (length g) - 1).
Proof.
  induction g as [|p g IH]; intros H; [congruence|].
  destruct g as [|q g].
  - simpl. lia.
  - rewrite join_cons by congruence.
    rewrite !len_app, IH by congruence.
    change (total_length (p :: q :: g)) with (len p + total_length (q :: g)).
    change (length (p :: q :: g)) with (S (length (q :: g))).
    lia.
Qed.

End Join.

(** ** The matcher *)

Section Answers.

Context {A : Type}.

Lemma star_greedy_answers (body : (mstate -> option A) -> mstate -> option A) :
  answers body -> forall fuel, answers (fun k => star_greedy body k fuel).
Proof.
  intros Hb fuel. induction fuel as [|fuel IH]; intros k st x H; simpl in H.
  - eauto.
  - destruct (body _ st) as [y|] eqn:E; [|eauto].
    injection H as <-. apply Hb in E as (st' & E).
    destruct (m_pos st <? m_pos st')%nat; [|discriminate]. eauto.
Qed.

Lemma star_lazy_answers (body : (mstate -> option A) -> mstate -> option A) :
  answers body -> forall fuel, answers (fun k => star_lazy body k fuel).
Proof.
  intros Hb fuel. induction fuel as [|fuel IH]; intros k st x H; simpl in H.
  - destruct (k st) eqn:E; [|discriminate]. injection H as <-. eauto.
  - destruct (k st) eqn:E; [injection H as <-; eauto|].
    apply Hb in H as (st' & H).
    destruct (m_pos st <? m_pos st')%nat; [|discriminate]. eauto.
Qed.

Lemma rmatch_answers (r : regex) : answers (A := A) (rmatch r).
Proof.
  induction r as [|p|r1 IH1 r2 IH2|r1 IH1 r2 IH2|r IH|r IH|n r IH| |];
    intros k st x H; simpl in H.
  - eauto.
  - destruct (m_rest st) as [|c s']; [discriminate|].
    destruct (p c); [eauto | discriminate].
  - apply IH1 in H as (st1 & H). eauto.
  - destruct (rmatch r1 k st) eqn:E; [injection H as <-|]; eauto.
  - eapply star_greedy_answers; eauto.
  - eapply star_lazy_answers; eauto.
  - apply IH in H as (st' & H). eauto.
  - destruct (m_pos st =? 0)%nat; [eauto | discriminate].
  - destruct (at_eol (m_rest st)); [eauto | discriminate].
Qed.

End Answers.

Section Groups.

Context {A B : Type}.

Lemma fail_together_guard (k1 : mstate -> option A) (k2 : mstate -> option B)
    (st1 st2 : mstate) :
  same_place st1 st2 -> fail_together k1 k2 ->
  fail_together
    (fun st' => if (m_pos st1 <? m_pos st')%nat then k1 st' else None)
    (fun st' => if (m_pos st2 <? m_pos st')%nat then k2 st' else None).
Proof.
  intros [Hp _] Hk st1' st2' Hs. pose proof Hs as [Hp' _].
  rewrite Hp, Hp'. destruct (m_pos st2 <? m_pos st2')%nat; [now apply Hk | tauto].
Qed.

Lemma star_greedy_fail_together
    (b1 : (mstate -> option A) -> mstate -> option A)
    (b2 : (mstate -> option B) -> mstate -> option B) :
  bodies_fail_together b1 b2 ->
  forall fuel k1 k2, fail_together k1 k2 ->
    fail_together (fun st => star_greedy b1 k1 fuel st)
                  (fun st => star_greedy b2 k2 fuel st).
Proof.
  intros Hb fuel. induction fuel as [|fuel IH]; intros k1 k2 Hk st1 st2 Hs; simpl.
  - now apply Hk.
  - specialize (Hb _ _ (fail_together_guard _ _ st1 st2 Hs (IH k1 k2 Hk)) st1 st2 Hs).
    simpl in Hb. specialize (Hk _ _ Hs).
    destruct (b1 _ st1), (b2 _ st2); intuition congruence.
Qed.

Lemma star_lazy_fail_together
    (b1 : (mstate -> option A) -> mstate -> option A)
    (b2 : (mstate -> option B) -> mstate -> option B) :
  bodies_fail_together b1 b2 ->
  forall fuel k1 k2, fail_together k1 k2 ->
    fail_together (fun st => star_lazy b1 k1 fuel st)
                  (fun st => star_lazy b2 k2 fuel st).
Proof.
  intros Hb fuel. induction fuel as [|fuel IH]; intros k1 k2 Hk st1 st2 Hs; simpl.
  - specialize (Hk _ _ Hs). destruct (k1 st1), (k2 st2); intuition congruence.
  - specialize (Hb _ _ (fail_together_guard _ _ st1 st2 Hs (IH k1 k2 Hk)) st1 st2 Hs).
    simpl in Hb. specialize (Hk _ _ Hs).
    destruct (k1 st1), (k2 st2); intuition congruence.
Qed.

End Groups.

(** Groups do not change whether a pattern matches. *)
Lemma ungroup_fail_together {A B : Type} (r : regex) :
  @bodies_fail_together A B (rmatch r) (rmatch (ungroup r)).
Proof.
  induction r as [|p|r1 IH1 r2 IH2|r1 IH1 r2 IH2|r IH|r IH|n r IH| |];
    intros k1 k2 Hk st1 st2 Hs; simpl.
  - now apply Hk.
  - pose proof Hs as [Hp Hr]. rewrite Hr.
    destruct (m_rest st2) as [|c s']; [tauto|].
    destruct (p c); [|tauto]. apply Hk. split; simpl; congruence.
  - apply IH1; [|assumption]. now apply IH2.
  - specialize (IH1 _ _ Hk _ _ Hs). specialize (IH2 _ _ Hk _ _ Hs).
    destruct (rmatch r1 k1 st1), (rmatch (ungroup r1) k2 st2); intuition congruence.
  - pose proof Hs as [_ Hr]. rewrite Hr.
    now apply (star_greedy_fail_together _ _ IH).
  - pose proof Hs as [_ Hr]. rewrite Hr.
    now apply (star_lazy_fail_together _ _ IH).
  - apply IH; [|assumption].
    intros st1' st2' Hs'. apply Hk. destruct Hs'. split; simpl; assumption.
  - pose proof Hs as [Hp _]. rewrite Hp.
    destruct (m_pos st2 =? 0)%nat; [now apply Hk | tauto].
  - pose proof Hs as [_ Hr]. rewrite Hr.
    destruct (at_eol (m_rest st2)); [now apply Hk | tauto].
Qed.

(** A pattern that ends in a group sets that group when it matches. *)
Lemma final_group_set (r1 r2 r3 : regex) (n : nat) (s : str) (m : rmatch_result) :
  re_match (Seq r1 (Seq r2 (Grp n r3))) s = Some m ->
  exists g, group n m = Some g.
Proof.
  unfold re_match, match_at. cbn [rmatch]. intros H.
  apply rmatch_answers in H as (st1 & H).
  apply rmatch_answers in H as (st2 & H).
  apply rmatch_answers in H as (st3 & H).
  simpl in H. injection H as <-.
  unfold group. simpl. rewrite Nat.eqb_refl. simpl. eauto.
Qed.

Lemma re_match_ungroup (r : regex) (s : str) :
  is_Some (re_match (ungroup r) s) -> is_Some (re_match r s).
Proof.
  unfold re_match, match_at. intros [m H].
  set (k := fun st : mstate =>
              if false && (m_pos st =? 0)%nat then None
              else Some (Match 0 (m_pos st) (m_caps st) (m_rest st))) in *.
  destruct (rmatch r k (MState 0 s [])) eqn:E; [eauto|].
  assert (Hk : fail_together k k)
    by (intros st1 st2 _; split; discriminate).
  apply (ungroup_fail_together r k k Hk (MState 0 s []) (MState 0 s [])) in E.
  - rewrite H in E. discriminate.
  - split; reflexivity.
Qed.

Lemma ungroup_Lit (word : str) : ungroup (Lit word) = Lit word.
Proof.
  induction word as [|c word IH]; [reflexivity|].
  change (Lit (c :: word)) with (Seq (Chr c) (Lit word)).
  cbn [ungroup]. now rewrite IH.
Qed.

(** When the pattern of a book or chapter marker matches, so does the
    pattern with the group, and its group 1 is set. *)
Lemma marker_number_found (word : str) (s : str) :
  is_Some (re_match (Seq (Lit word) (Seq (Plus Space) roman_digits)) s) ->
  exists m numeral,
    re_match (Seq (Lit word) (Seq (Plus Space) (Grp 1 roman_digits))) s = Some m
    /\ group 1 m = Some numeral.
Proof.
  intros H.
  destruct (re_match_ungroup
              (Seq (Lit word) (Seq (Plus Space) (Grp 1 roman_digits))) s)
    as [m Hm].
  - change (ungroup (Seq (Lit word) (Seq (Plus Space) (Grp 1 roman_digits))))
      with (Seq (ungroup (Lit word)) (Seq (Plus Space) roman_digits)).
    now rewrite ungroup_Lit.
  - destruct (final_group_set _ _ _ _ _ _ Hm) as [g Hg]. eauto.
Qed.

(** ** The chunker *)

Section Chunker.

Variable cfg : config.

Lemma finalize_made_of (g : list str) (b c i : Z) :
  g <> [] -> made_of (_finalize_chunk g b c i) g.
Proof. intros H. repeat split; assumption. Qed.

(** What one turn of the loop does to the passages and the accumulator:
    either nothing is emitted and an ordinary paragraph joins the
    accumulator, or one passage [g] is emitted and [g] followed by the
    new accumulator is the old accumulator extended in the same way. *)
Lemma loop_body_shape (st : loop_state) (para : str) :
  let st' := loop_body cfg st para in
  let add := if is_marker para then [] else [para] in
  (chunks st' = chunks st /\ current_chunk st' = current_chunk st ++ add)
  \/ (exists g, g <> [] /\ chunks st' = append_chunk st g
                /\ g ++ current_chunk st' = current_chunk st ++ add).
Proof.
  unfold loop_body, is_marker, append_chunk.
  destruct (is_book_marker para) eqn:Hb; simpl.
  { destruct (current_chunk st) as [|p g] eqn:Hc; simpl.
    - left. rewrite Hc. auto.
    - right. exists (p :: g). repeat split; rewrite ?app_nil_r; try reflexivity; congruence. }
  destruct (is_chapter_marker para) eqn:Hch; simpl.
  { destruct (current_chunk st) as [|p g] eqn:Hc; simpl.
    - left. rewrite Hc. auto.
    - destruct (min_chunk_size cfg <=? current_size st); simpl.
      + right. exists (p :: g). repeat split; rewrite ?app_nil_r; try reflexivity; congruence.
      + left. rewrite Hc, app_nil_r. auto. }
  destruct (current_chunk st) as [|p g] eqn:Hc; simpl.
  - rewrite andb_false_r.
    destruct ((target_chunk_size cfg <=? current_size st + len para)
              && (min_chunk_size cfg <=? current_size st)); simpl.
    + right. exists [para]. repeat split; try reflexivity; congruence.
    + left. auto.
  - rewrite andb_true_r.
    destruct (max_chunk_size cfg <? current_size st + len para); simpl.
    + right. exists (p :: g). repeat split; try reflexivity; congruence.
    + destruct ((target_chunk_size cfg <=? current_size st + len para)
                && (min_chunk_size cfg <=? current_size st)); simpl.
      * right. exists (p :: g ++ [para]).
        repeat split; rewrite ?app_nil_r; try reflexivity; congruence.
      * left. auto.
Qed.

Lemma ordinary_cons (para : str) (ps : list str) :
  ordinary (para :: ps) = (if is_marker para then [] else [para]) ++ ordinary ps.
Proof. unfold ordinary. simpl. now destruct (is_marker para). Qed.

Lemma ordinary_app (ps qs : list str) :
  ordinary (ps ++ qs) = ordinary ps ++ ordinary qs.
Proof. unfold ordinary. now rewrite List.filter_app. Qed.

(** Running the loop from any state and flushing at the end adds
    passages that cut the accumulator and the remaining ordinary
    paragraphs into consecutive groups, numbered from the number of
    passages already emitted. *)
Lemma loop_cover (ps : list str) :
  forall st : loop_state,
  exists (new : list chunk) (groups : list (list str)),
    last_chunk (fold_left (loop_body cfg) ps st) = chunks st ++ new
    /\ Forall2 made_of new groups
    /\ concat groups = current_chunk st ++ ordinary ps
    /\ map chunk_index new
       = map Z.of_nat (seq (length (chunks st)) (length new)).
Proof.
  induction ps as [|para ps IH]; intros st.
  - simpl. unfold last_chunk, append_chunk.
    destruct (current_chunk st) as [|p g] eqn:Hc; simpl.
    + exists [], []. rewrite app_nil_r. repeat split; constructor.
    + exists [_finalize_chunk (p :: g) (current_book st) (current_chapter st)
                (Z.of_nat (length (chunks st)))], [p :: g].
      rewrite !app_nil_r. split; [reflexivity|].
      split; [repeat constructor; congruence|].
      split; [simpl; now rewrite app_nil_r | reflexivity].
  - simpl fold_left.
    destruct (IH (loop_body cfg st para)) as (new & groups & Hout & Hm & Hcat & Hidx).
    rewrite Hout, ordinary_cons.
    destruct (loop_body_shape st para) as [[Hk Ha] | (g & Hg & Hk & Ha)].
    + exists new, groups. rewrite Hk in *. rewrite Ha in Hcat.
      rewrite <- app_assoc in Hcat. auto.
    + exists (_finalize_chunk g (current_book st) (current_chapter st)
                (Z.of_nat (length (chunks st))) :: new), (g :: groups).
      rewrite Hk in *. unfold append_chunk in *.
      rewrite <- app_assoc. split; [reflexivity|].
      split; [constructor; [now apply finalize_made_of | assumption]|].
      split.
      * simpl. rewrite Hcat, !app_assoc. now rewrite Ha.
      * simpl. f_equal. rewrite Hidx, length_app. simpl.
        now rewrite Nat.add_1_r.
Qed.

End Chunker.

(** *** Coverage *)

Lemma made_of_texts (cs : list chunk) (groups : list (list str)) :
  Forall2 made_of cs groups ->
  map original_text cs = map (join paragraph_sep) groups
  /\ Forall (fun g => g <> []) groups.
Proof.
  induction 1 as [|c g cs groups (Hg & Ht & _) _ [IH1 IH2]].
  - split; constructor.
  - split; [simpl; now rewrite Ht, IH1 | now constructor].
Qed.

(** C1. The passages of [create_chunks] are numbered 0, 1, 2, ... in
    the order of emission, and they cut the paragraphs of the text, book
    and chapter markers removed, into consecutive groups: joining the
    passages' texts gives back exactly the ordinary paragraphs, in order,
    none repeated and none dropped. *)
Theorem create_chunks_coverage (cfg : config) (text : str) :
  let cs := create_chunks cfg text in
  map chunk_index cs = map Z.of_nat (seq 0 (length cs))
  /\ cover cs (split_into_paragraphs text)
  /\ join paragraph_sep (map original_text cs)
     = join paragraph_sep (ordinary (split_into_paragraphs text)).
Proof.
  unfold create_chunks, chunk_paragraphs. simpl.
  destruct (loop_cover cfg (split_into_paragraphs text) initial_state)
    as (new & groups & Hout & Hm & Hcat & Hidx).
  simpl in Hout, Hcat, Hidx. rewrite Hout.
  split; [assumption|]. split; [now exists groups|].
  destruct (made_of_texts _ _ Hm) as [Ht Hne].
  now rewrite Ht, join_concat, Hcat.
Qed.

(** *** The size bound *)

Section SizeBound.

Variable cfg : config.

Lemma finalize_within_bound (g : list str) (b c i : Z) :
  g <> [] ->
  (length g <= 1)%nat \/ total_length g <= max_chunk_size cfg ->
  within_bound cfg (_finalize_chunk g b c i).
Proof.
  intros Hg Hb. unfold within_bound, _finalize_chunk. simpl.
  rewrite len_join by assumption.
  change (len paragraph_sep) with 2.
  destruct (Z_le_gt_dec (total_length g) (max_chunk_size cfg)) as [Hle | Hgt].
  - left. lia.
  - right. destruct Hb as [Hb | Hb]; [|lia].
    destruct g as [|p [|q g]]; simpl in *; try congruence; lia.
Qed.

Lemma total_length_app (a b : list str) :
  total_length (a ++ b) = total_length a + total_length b.
Proof. induction a; simpl; lia. Qed.

Lemma loop_body_bound (st : loop_state) (para : str) :
  accumulator_ok cfg st -> Forall (within_bound cfg) (chunks st) ->
  accumulator_ok cfg (loop_body cfg st para)
  /\ Forall (within_bound cfg) (chunks (loop_body cfg st para)).
Proof.
  intros [Hsize Hacc] Hcs.
  assert (Hflush : forall b c i, current_chunk st <> [] ->
            within_bound cfg (_finalize_chunk (current_chunk st) b c i)).
  { intros. apply finalize_within_bound; [assumption|].
    destruct Hacc; [left | right]; [assumption | lia]. }
  assert (Hempty : accumulator_ok cfg (LoopState [] [] 0 1 1))
    by (split; [reflexivity | left; simpl; lia]).
  unfold loop_body, append_chunk, accumulator_ok in *.
  destruct (is_book_marker para).
  { destruct (current_chunk st) as [|p g] eqn:Hc; simpl.
    - rewrite Hc. auto.
    - split; [split; [reflexivity | left; lia]|].
      apply Forall_app. split; [assumption|].
      constructor; [|constructor]. apply Hflush. congruence. }
  destruct (is_chapter_marker para).
  { destruct (current_chunk st) as [|p g] eqn:Hc; simpl.
    - rewrite Hc. auto.
    - destruct (min_chunk_size cfg <=? current_size st); simpl.
      + split; [split; [reflexivity | left; lia]|].
        apply Forall_app. split; [assumption|].
        constructor; [|constructor]. apply Hflush. congruence.
      + rewrite Hc. auto. }
  destruct (current_chunk st) as [|p g] eqn:Hc; simpl.
  - rewrite andb_false_r. simpl in Hsize.
    destruct ((target_chunk_size cfg <=? current_size st + len para)
              && (min_chunk_size cfg <=? current_size st)); simpl.
    + split; [split; [reflexivity | left; lia]|].
      apply Forall_app. split; [assumption|].
      constructor; [|constructor].
      apply finalize_within_bound; [congruence | left; simpl; lia].
    + split; [split; [lia | left; lia] | assumption].
  - rewrite andb_true_r.
    destruct (max_chunk_size cfg <? current_size st + len para) eqn:Hmax; simpl.
    + split; [split; [lia | left; lia]|].
      apply Forall_app. split; [assumption|].
      constructor; [|constructor]. apply Hflush. congruence.
    + apply Z.ltb_ge in Hmax.
      assert (Htot : total_length ((p :: g) ++ [para]) = current_size st + len para)
        by (rewrite total_length_app, <- Hsize; simpl; lia).
      destruct ((target_chunk_size cfg <=? current_size st + len para)
                && (min_chunk_size cfg <=? current_size st)); simpl.
      * split; [split; [reflexivity | left; lia]|].
        apply Forall_app. split; [assumption|].
        constructor; [|constructor].
        apply (finalize_within_bound ((p :: g) ++ [para]));
          [simpl; congruence | right; lia].
      * split; [|assumption].
        split; [exact (eq_sym Htot) | right; lia].
Qed.

Lemma loop_bound (ps : list str) :
  forall st : loop_state,
  accumulator_ok cfg st -> Forall (within_bound cfg) (chunks st) ->
  Forall (within_bound cfg) (last_chunk (fold_left (loop_body cfg) ps st)).
Proof.
  induction ps as [|para ps IH]; intros st Hacc Hcs.
  - simpl. unfold last_chunk, append_chunk.
    destruct (current_chunk st) as [|p g] eqn:Hc; simpl; [assumption|].
    apply Forall_app. split; [assumption|].
    constructor; [|constructor]. rewrite <- Hc.
    destruct Hacc as [Hsize Hacc].
    apply finalize_within_bound; [congruence|].
    destruct Hacc; [left | right]; [assumption | lia].
  - simpl. destruct (loop_body_bound st para Hacc Hcs). now apply IH.
Qed.

End SizeBound.

(** C3, as the code has it. Every passage of [create_chunks], the last
    included, keeps the total length of its paragraphs (its
    [character_count] less the two separator characters between
    consecutive paragraphs) within [max_chunk_size], unless it consists
    of a single paragraph that alone is longer. *)
Theorem create_chunks_size_bound (cfg : config) (text : str) :
  Forall (within_bound cfg) (create_chunks cfg text).
Proof.
  apply loop_bound; [|constructor].
  split; [reflexivity | left; simpl; lia].
Qed.

(** C3, as stated, fails: with sizes 3, 2 and 4 and the paragraphs
    [ab], [cd] and [e], the first of the two passages is [ab] and [cd]
    joined by a blank line, six characters long, although no paragraph
    is longer than 4. *)
Lemma character_count_exceeds_max :
  ~ size_bound_on_character_count small_config three_paragraphs.
Proof.
  intros H.
  assert (Hcfg : min_chunk_size small_config <= target_chunk_size small_config
                 <= max_chunk_size small_config) by (simpl; lia).
  specialize (H Hcfg 0%nat
    (_finalize_chunk [py "ab"; py "cd"] 1 1 0) eq_refl).
  destruct H as [H | (p & Hin & Hlen)].
  - vm_compute. reflexivity.
  - vm_compute in H. apply H. reflexivity.
  - vm_compute in Hin.
    destruct Hin as [<- | [<- | [<- | []]]]; vm_compute in Hlen; discriminate.
Qed.

(** *** Book markers *)

(** At a book marker the accumulator is flushed exactly as at the end of
    the text, the book number is taken from the marker, and the chapter
    number is left as it is. *)
Lemma loop_body_book_marker (cfg : config) (st : loop_state) (para : str) :
  is_book_marker para = true ->
  let st' := loop_body cfg st para in
  chunks st' = last_chunk st
  /\ current_chunk st' = []
  /\ current_book st' = default (current_book st) (marker_number book_number_re para)
  /\ current_chapter st' = current_chapter st.
Proof.
  intros Hb. unfold loop_body, last_chunk. rewrite Hb.
  destruct (current_chunk st) eqn:Hc; simpl; rewrite ?Hc; auto.
Qed.

(** C6. A book marker is a hard cut: whatever precedes it in the text
    is flushed before the book number changes, so the passages fall into
    those made of the paragraphs before the marker (exactly the passages
    the text before the marker would give on its own) and those made of
    the paragraphs after it; no passage holds paragraphs from both
    sides. *)
Theorem book_marker_hard_cut (cfg : config) (text : str)
    (before after : list str) (marker : str) :
  split_into_paragraphs text = before ++ marker :: after ->
  is_book_marker marker = true ->
  exists cs1 cs2 : list chunk,
    create_chunks cfg text = cs1 ++ cs2
    /\ cs1 = chunk_paragraphs cfg before
    /\ cover cs1 before
    /\ cover cs2 after.
Proof.
  intros Hps Hb. unfold create_chunks. rewrite Hps.
  unfold chunk_paragraphs at 1. rewrite fold_left_app. simpl fold_left.
  set (st1 := fold_left (loop_body cfg) before initial_state).
  destruct (loop_body_book_marker cfg st1 marker Hb) as (Hk & Ha & _ & _).
  destruct (loop_cover cfg after (loop_body cfg st1 marker))
    as (new & groups & Hout & Hm & Hcat & _).
  rewrite Hk in Hout. rewrite Ha in Hcat. simpl in Hcat.
  exists (chunk_paragraphs cfg before), new.
  split; [exact Hout|]. split; [reflexivity|]. split.
  - destruct (loop_cover cfg before initial_state)
      as (new1 & groups1 & Hout1 & Hm1 & Hcat1 & _).
    unfold chunk_paragraphs. rewrite Hout1. now exists groups1.
  - now exists groups.
Qed.

Lemma book_marker_hard_cut_witness :
  exists cs1 cs2 : list chunk,
    create_chunks small_config two_books_text = cs1 ++ cs2
    /\ cs1 = chunk_paragraphs small_config [py "BOOK I"; py "CHAPTER V"; py "alpha"]
    /\ cover cs1 [py "BOOK I"; py "CHAPTER V"; py "alpha"]
    /\ cover cs2 [py "beta"].
Proof.
  apply (book_marker_hard_cut small_config two_books_text
           [py "BOOK I"; py "CHAPTER V"; py "alpha"] [py "beta"] (py "BOOK II")).
  - vm_compute. reflexivity.
  - vm_compute. reflexivity.
Defined.

(** C4, as the code has it. At a book marker [create_chunks] flushes a
    non-empty accumulator as a passage tagged with the book and chapter in
    effect before the marker, empties the accumulator without the marker
    text entering it, sets the book number to the numeral decoded from the
    marker, and leaves the chapter number as it is. *)
Theorem book_marker_step (cfg : config) (st : loop_state) (para : str) :
  is_book_marker para = true ->
  let st' := loop_body cfg st para in
  chunks st'
  = (if is_empty (current_chunk st) then chunks st
     else chunks st ++ [_finalize_chunk (current_chunk st) (current_book st)
                          (current_chapter st) (Z.of_nat (length (chunks st)))])
  /\ current_chunk st' = []
  /\ (exists m numeral,
        re_match book_number_re (strip para) = Some m
        /\ group 1 m = Some numeral
        /\ current_book st' = roman_to_int numeral)
  /\ current_chapter st' = current_chapter st.
Proof.
  intros Hb.
  destruct (loop_body_book_marker cfg st para Hb) as (Hk & Ha & Hbook & Hch).
  split; [|split; [assumption|split; [|assumption]]].
  - rewrite Hk. unfold last_chunk, append_chunk.
    now destruct (current_chunk st).
  - unfold is_book_marker in Hb. apply bool_decide_eq_true_1 in Hb.
    destruct (marker_number_found (py "BOOK") _ Hb) as (m & numeral & Hm & Hg).
    exists m, numeral. split; [exact Hm|]. split; [exact Hg|].
    rewrite Hbook. unfold marker_number.
    change (re_match book_number_re (strip para))
      with (re_match (Seq (Lit (py "BOOK")) (Seq (Plus Space) (Grp 1 roman_digits)))
                     (strip para)).
    rewrite Hm. simpl. now rewrite Hg.
Qed.

Lemma book_marker_step_witness :
  let st := state_before_second_book in
  let st' := loop_body scenario_config st (py "BOOK II") in
  chunks st' = [Chunk 0 1 5 (py "alpha") 5 1 1]
  /\ current_chunk st' = []
  /\ current_book st' = 2
  /\ current_chapter st' = 5.
Proof.
  destruct (book_marker_step scenario_config state_before_second_book (py "BOOK II"))
    as (Hk & Ha & _ & Hch).
  - vm_compute. reflexivity.
  - split; [rewrite Hk; vm_compute; reflexivity|].
    split; [exact Ha|].
    split; [vm_compute; reflexivity | rewrite Hch; vm_compute; reflexivity].
Defined.

(** C4, as stated, fails on the code: after the paragraphs [BOOK I],
    [CHAPTER V] and [alpha], the marker [BOOK II] leaves the chapter
    number at 5 instead of setting it back to 1. *)
Lemma chapter_not_reset_at_book_marker :
  ~ resets_chapter_at_book_marker scenario_config state_before_second_book
      (py "BOOK II").
Proof.
  intros H.
  assert (Hb : is_book_marker (py "BOOK II") = true) by (vm_compute; reflexivity).
  specialize (H Hb). vm_compute in H. discriminate.
Qed.

(** The same on the whole text: the passage after [BOOK II] is tagged
    book 2 and still chapter 5, a chapter of the first book. *)
Example two_books_chunks :
  create_chunks scenario_config two_books_text
  = [ Chunk 0 1 5 (py "alpha") 5 1 1; Chunk 1 2 5 (py "beta") 4 1 1 ].
Proof. vm_compute. reflexivity. Qed.

(** *** The end-to-end scenario *)

Lemma not_marker (p : str) :
  is_marker p = false -> is_book_marker p = false /\ is_chapter_marker p = false.
Proof. apply orb_false_elim. Qed.

(** C2, as the code has it. For the paragraph [BOOK I], a paragraph of
    2600 characters, the paragraph [CHAPTER I] and a paragraph of 400
    characters, with sizes 2500, 2000 and 3000, [create_chunks] emits two
    passages, the first holding the first paragraph and the second the
    second, both tagged book 1, chapter 1: at the chapter marker the
    accumulator already holds 2600 characters, no fewer than the minimum
    of 2000, and is flushed. *)
Theorem scenario_two_passages (text p1 p2 : str) :
  split_into_paragraphs text = [py "BOOK I"; p1; py "CHAPTER I"; p2] ->
  len p1 = 2600 -> len p2 = 400 ->
  is_marker p1 = false -> is_marker p2 = false ->
  create_chunks scenario_config text
  = [ _finalize_chunk [p1] 1 1 0; _finalize_chunk [p2] 1 1 1 ].
Proof.
  intros Hps Hl1 Hl2 Hm1 Hm2.
  destruct (not_marker _ Hm1) as [Hb1 Hc1].
  destruct (not_marker _ Hm2) as [Hb2 Hc2].
  unfold create_chunks, chunk_paragraphs. rewrite Hps. cbn [fold_left].
  assert (E1 : loop_body scenario_config initial_state (py "BOOK I")
               = LoopState [] [] 0 1 1) by (vm_compute; reflexivity).
  rewrite E1.
  assert (E2 : loop_body scenario_config (LoopState [] [] 0 1 1) p1
               = LoopState [] [p1] 2600 1 1).
  { unfold loop_body. rewrite Hb1, Hc1. simpl. rewrite Hl1. reflexivity. }
  rewrite E2.
  assert (E3 : loop_body scenario_config (LoopState [] [p1] 2600 1 1) (py "CHAPTER I")
               = LoopState [_finalize_chunk [p1] 1 1 0] [] 0 1 1).
  { unfold loop_body.
    replace (is_book_marker (py "CHAPTER I")) with false by (vm_compute; reflexivity).
    replace (is_chapter_marker (py "CHAPTER I")) with true by (vm_compute; reflexivity).
    replace (marker_number chapter_number_re (py "CHAPTER I")) with (Some 1)
      by (vm_compute; reflexivity).
    reflexivity. }
  rewrite E3.
  assert (E4 : loop_body scenario_config
                 (LoopState [_finalize_chunk [p1] 1 1 0] [] 0 1 1) p2
               = LoopState [_finalize_chunk [p1] 1 1 0] [p2] 400 1 1).
  { unfold loop_body. rewrite Hb2, Hc2. simpl. rewrite Hl2. reflexivity. }
  rewrite E4. reflexivity.
Qed.

Lemma scenario_two_passages_witness :
  create_chunks scenario_config (scenario_text scenario_first scenario_second)
  = [ _finalize_chunk [scenario_first] 1 1 0;
      _finalize_chunk [scenario_second] 1 1 1 ].
Proof.
  apply scenario_two_passages; vm_compute; reflexivity.
Defined.

(** C2, as stated, fails: on that input the chunker does not emit a
    single passage. *)
Lemma scenario_not_one_passage :
  ~ exists c : chunk,
      create_chunks scenario_config (scenario_text scenario_first scenario_second)
      = [c]
      /\ book c = 1 /\ chapter c = 1.
Proof.
  intros (c & H & _).
  apply (f_equal (@length chunk)) in H.
  vm_compute in H. discriminate.
Qed.

(** ** Roman numerals *)

Lemma roman_map_nonneg (c : ascii) : 0 <= roman_map c.
Proof.
  unfold roman_map.
  repeat match goal with |- context [if ?b then _ else _] => destruct b end; lia.
Qed.

Lemma roman_fold_last (l : str) (c : ascii) (acc : Z * Z) :
  fold_left roman_step (l ++ [c]) acc = roman_step (fold_left roman_step l acc) c.
Proof. now rewrite fold_left_app. Qed.

Lemma roman_to_int_cons (c : ascii) (s : str) :
  fold_left roman_step (reverse (c :: s)) (0, 0)
  = roman_step (fold_left roman_step (reverse s) (0, 0)) c.
Proof. now rewrite reverse_cons, roman_fold_last. Qed.

(** C9. [roman_to_int] reads the numeral from right to left with the
    usual symbol values, subtracting a symbol that is smaller than its
    right neighbour and adding it otherwise; it decodes I, IV, IX, XL and
    MCMXCIX to 1, 4, 9, 40 and 1999, and it checks nothing: every string
    gets a number, IIII getting 4. *)
Theorem roman_to_int_decode :
  roman_to_int (py "I") = 1
  /\ roman_to_int (py "IV") = 4
  /\ roman_to_int (py "IX") = 9
  /\ roman_to_int (py "XL") = 40
  /\ roman_to_int (py "MCMXCIX") = 1999
  /\ roman_to_int (py "IIII") = 4
  /\ roman_to_int [] = 0
  /\ (forall c, roman_to_int [c] = roman_map c)
  /\ (forall c d s,
        roman_to_int (c :: d :: s)
        = if roman_map c <? roman_map d
          then roman_to_int (d :: s) - roman_map c
          else roman_to_int (d :: s) + roman_map c).
Proof.
  repeat (split; [reflexivity|]). split.
  - intros c. unfold roman_to_int. rewrite roman_to_int_cons. simpl.
    pose proof (roman_map_nonneg c).
    destruct (roman_map c <? 0) eqn:E; [apply Z.ltb_lt in E; lia | reflexivity].
  - intros c d s. unfold roman_to_int.
    rewrite (roman_to_int_cons c (d :: s)), (roman_to_int_cons d s).
    destruct (fold_left roman_step (reverse s) (0, 0)) as [result prev].
    simpl. now destruct (roman_map c <? roman_map d).
Qed.

(** ** The publishing log *)

Lemma py_max_from_ints (best : Z) (rest : list Z) :
  py_max_from (PInt best) (map PInt rest) = inr (PInt (fold_left Z.max rest best)).
Proof.
  revert best. induction rest as [|v rest IH]; intros best; [reflexivity|].
  simpl. destruct (best <? v) eqn:E.
  - rewrite IH. do 2 f_equal. f_equal. apply Z.ltb_lt in E. lia.
  - rewrite IH. do 2 f_equal. f_equal. apply Z.ltb_ge in E. lia.
Qed.

Lemma fold_max_bounds (rest : list Z) :
  forall best, best <= fold_left Z.max rest best
               /\ Forall (fun i => i <= fold_left Z.max rest best) rest.
Proof.
  induction rest as [|v rest IH]; intros best; simpl.
  - split; [lia | constructor].
  - destruct (IH (Z.max best v)) as [H1 H2]. split; [lia|].
    constructor; [lia | assumption].
Qed.

Lemma mapM_published (entries : list pyval) (indices : list Z) :
  Forall2 published_as entries indices ->
  mapM (fun entry => py_getitem entry (py "chunk_index")) entries
  = inr (map PInt indices).
Proof.
  induction 1 as [|entry i entries indices (items & -> & Hi) _ IH].
  - reflexivity.
  - cbn [mapM py_getitem]. rewrite Hi, IH. reflexivity.
Qed.

(** C10. [get_next_chunk_to_publish] always gives an index: whatever
    the body of its [try] raises is turned into 0. It gives 0 when the log
    file is absent, when it cannot be read, and when the list of published
    entries is missing or empty; for a log whose entries carry integer
    indices it gives the largest of them plus one, which is above every
    published index, so that no index below the largest is given again. *)
Theorem next_chunk_after_largest :
  get_next_chunk_to_publish LogAbsent = 0
  /\ get_next_chunk_to_publish LogUnreadable = 0
  /\ (forall f e, next_chunk_body f = inl e -> get_next_chunk_to_publish f = 0)
  /\ (forall items,
        dict_lookup (py "published") items = None
        \/ dict_lookup (py "published") items = Some (PList []) ->
        get_next_chunk_to_publish (LogLoaded (PDict items)) = 0)
  /\ (forall items entries first rest,
        dict_lookup (py "published") items = Some (PList entries) ->
        Forall2 published_as entries (first :: rest) ->
        let next := get_next_chunk_to_publish (LogLoaded (PDict items)) in
        next = fold_left Z.max rest first + 1
        /\ Forall (fun i => i < next) (first :: rest)).
Proof.
  split; [reflexivity|]. split; [reflexivity|]. split; [|split].
  - intros f e H. unfold get_next_chunk_to_publish. now rewrite H.
  - intros items [H | H];
      unfold get_next_chunk_to_publish, next_chunk_body, py_get;
      rewrite H; reflexivity.
  - intros items entries first rest Hpub Hent.
    assert (Hnext : get_next_chunk_to_publish (LogLoaded (PDict items))
                    = fold_left Z.max rest first + 1).
    { unfold get_next_chunk_to_publish, next_chunk_body, py_get.
      rewrite Hpub. cbn -[mapM py_max_from py].
      rewrite (mapM_published _ _ Hent). cbn -[py_max_from].
      rewrite py_max_from_ints. reflexivity. }
    simpl. rewrite Hnext. split; [reflexivity|].
    destruct (fold_max_bounds rest first) as [H1 H2].
    constructor; [lia|].
    eapply Forall_impl; [exact H2|]. simpl. intros. lia.
Qed.

Lemma next_chunk_after_largest_witness :
  get_next_chunk_to_publish (LogLoaded (PList [])) = 0
  /\ get_next_chunk_to_publish (LogLoaded (PDict [])) = 0
  /\ get_next_chunk_to_publish sample_log = 8
  /\ Forall (fun i => i < get_next_chunk_to_publish sample_log) [3; 7; 5].
Proof.
  destruct next_chunk_after_largest as (_ & _ & Hraise & Hempty & Hmax).
  split; [apply (Hraise (LogLoaded (PList [])) AttributeError); reflexivity|].
  split; [apply (Hempty []); left; reflexivity|].
  apply (Hmax [(py "published", PList [entry_of 3; entry_of 7; entry_of 5])]
              [entry_of 3; entry_of 7; entry_of 5] 3 [7; 5]).
  - reflexivity.
  - repeat constructor; eexists; (split; [reflexivity|]); reflexivity.
Defined.

Import Json FillGapsImproved FillGapsNuclear.

(** ** The field scrape *)

Lemma scrape_text_found (key text : str) :
  is_Some (re_search (string_field_re key) text) ->
  is_Some (scrape_text key text).
Proof. intros [m H]. unfold scrape_text. rewrite H. simpl. eauto. Qed.

Lemma scrape_text_not_found (key text : str) :
  re_search (string_field_re key) text = None -> scrape_text key text = None.
Proof. intros H. unfold scrape_text. now rewrite H. Qed.

Lemma scrape_themes_found (text : str) :
  is_Some (re_search key_themes_re text) -> is_Some (scrape_themes text).
Proof. intros [m H]. unfold scrape_themes. rewrite H. simpl. eauto. Qed.

Lemma scrape_themes_not_found (text : str) :
  re_search key_themes_re text = None -> scrape_themes text = None.
Proof. intros H. unfold scrape_themes. now rewrite H. Qed.

(** C7. When the field scrape finds only one of its three fields it
    gives no mapping; when it finds [modern_translation] and [context]
    but not [key_themes] it gives a mapping with exactly those two keys,
    and the caller, once the strict parse of the cleaned response has
    failed, stores that mapping with the status [partial], a key that the
    path storing a fully parsed record does not write. *)
Theorem manual_repair_threshold (text : str) :
  let translation := re_search (string_field_re (py "modern_translation")) text in
  let context := re_search (string_field_re (py "context")) text in
  let themes := re_search key_themes_re text in
  ((is_Some translation /\ context = None /\ themes = None)
   \/ (translation = None /\ is_Some context /\ themes = None)
   \/ (translation = None /\ context = None /\ is_Some themes) ->
   manual_json_repair text = None)
  /\ (is_Some translation -> is_Some context -> themes = None ->
      exists m : gmap string salvaged,
        manual_json_repair text = Some m
        /\ dom m = {[ "modern_translation"%string; "context"%string ]}
        /\ forall model chunk,
             json_loads (nuclear_json_clean text) = None ->
             enrich_with_nuclear_option model chunk text
             = (Some (<["enrichment_status" := VText (py "partial")]>
                        (<["enrichment_model" := VText model]>
                           (<["enriched" := VSalvaged m]> chunk))),
                true, "manual_repair"%string))
  /\ (forall model chunk record,
        json_loads (nuclear_json_clean text) = Some record ->
        exists chunk',
          enrich_with_nuclear_option model chunk text
          = (Some chunk', true, "nuclear_clean"%string)
          /\ chunk' !! "enriched"%string = Some (VJson record)
          /\ chunk' !! "enrichment_status"%string
             = chunk !! "enrichment_status"%string).
Proof.
  cbv zeta. split; [|split].
  - intros [(Ht & Hc & Hk) | [(Ht & Hc & Hk) | (Ht & Hc & Hk)]];
      unfold manual_json_repair.
    + apply scrape_text_found in Ht as [a Ha].
      rewrite Ha, (scrape_text_not_found _ _ Hc), (scrape_themes_not_found _ Hk).
      reflexivity.
    + apply scrape_text_found in Hc as [a Ha].
      rewrite Ha, (scrape_text_not_found _ _ Ht), (scrape_themes_not_found _ Hk).
      reflexivity.
    + apply scrape_themes_found in Hk as [a Ha].
      rewrite Ha, (scrape_text_not_found _ _ Ht), (scrape_text_not_found _ _ Hc).
      reflexivity.
  - intros Ht Hc Hk.
    apply scrape_text_found in Ht as [a Ha].
    apply scrape_text_found in Hc as [b Hb].
    assert (Hm : manual_json_repair text
                 = Some (<["context" := b]> (<["modern_translation" := a]> ∅))).
    { unfold manual_json_repair.
      rewrite Ha, Hb, (scrape_themes_not_found _ Hk). reflexivity. }
    eexists. split; [exact Hm|]. split.
    + rewrite !dom_insert_L, dom_empty_L. set_solver.
    + intros model chunk Hparse. unfold enrich_with_nuclear_option.
      rewrite Hparse, Hm. reflexivity.
  - intros model chunk record Hparse. unfold enrich_with_nuclear_option.
    rewrite Hparse. eexists. split; [reflexivity|]. split.
    + rewrite lookup_insert_ne by discriminate. apply lookup_insert_eq.
    + now rewrite !lookup_insert_ne by discriminate.
Qed.

Lemma manual_repair_threshold_witness :
  manual_json_repair only_context_response = None
  /\ exists m : gmap string salvaged,
       manual_json_repair two_fields_response = Some m
       /\ dom m = {[ "modern_translation"%string; "context"%string ]}
       /\ forall model chunk,
            enrich_with_nuclear_option model chunk two_fields_response
            = (Some (<["enrichment_status" := VText (py "partial")]>
                       (<["enrichment_model" := VText model]>
                          (<["enriched" := VSalvaged m]> chunk))),
               true, "manual_repair"%string).
Proof.
  split.
  - apply (manual_repair_threshold only_context_response).
    right. left. split; [vm_compute; reflexivity|].
    split; [vm_compute; eexists; reflexivity | vm_compute; reflexivity].
  - destruct (manual_repair_threshold two_fields_response) as (_ & H & _).
    destruct H as (m & Hm & Hdom & Hcaller).
    + vm_compute. eexists. reflexivity.
    + vm_compute. eexists. reflexivity.
    + vm_compute. reflexivity.
    + exists m. split; [exact Hm|]. split; [exact Hdom|].
      intros model chunk. apply Hcaller. vm_compute. reflexivity.
Defined.

(** ** The basic clean *)

(** C5 at work on an object with a trailing comma: the basic clean
    puts a backslash and the digit 1 where the comma and the closing brace
    were, so that neither its result nor the result of the more aggressive
    clean that follows parses; the delimiter repair of
    fill_gaps_nuclear.py, which refers to group 1 in its replacement,
    removes the comma and the result parses to the intended object. *)
Theorem trailing_comma_not_repaired :
  clean_json_response trailing_comma_response = lit "{'a': 1\1"
  /\ json_loads (clean_json_response trailing_comma_response) = None
  /\ parse_response trailing_comma_response = None
  /\ fix_json_delimiters trailing_comma_response = lit "{'a': 1}"
  /\ json_loads (fix_json_delimiters trailing_comma_response)
     = Some (JObject [([97%N], JInt 1)]).
Proof. repeat split; vm_compute; reflexivity. Qed.

(** ** The decoder reads only what it consumes *)

#[local] Arguments Ascii.eqb : simpl never.
#[local] Arguments is_ws : simpl never.
#[local] Arguments is_numchar : simpl never.
#[local] Arguments hex4 : simpl never.
#[local] Arguments unescape : simpl never.
#[local] Arguments code : simpl never.

Ltac flatten := repeat first [rewrite <- app_assoc | progress cbn [app]].

Lemma push_some {A B : Type} (a : A) (r : option (list A * B)) (l : list A) (b : B) :
  push a r = Some (l, b) -> exists l', r = Some (l', b) /\ l = a :: l'.
Proof.
  destruct r as [[l' b']|]; simpl; [|discriminate].
  intros H. injection H as <- <-. eauto.
Qed.

Lemma skip_ws_split (s : str) :
  exists w, s = w ++ skip_ws s /\ forallb is_ws w = true.
Proof.
  induction s as [|c s (w & Hw & Hall)]; simpl.
  - exists []. auto.
  - destruct (is_ws c) eqn:E.
    + exists (c :: w). simpl. rewrite E, Hall. split; [congruence | reflexivity].
    + exists []. auto.
Qed.

Lemma skip_ws_head (s : str) (c : ascii) (s' : str) :
  skip_ws s = c :: s' -> is_ws c = false.
Proof.
  induction s as [|d s IH]; simpl; [discriminate|].
  destruct (is_ws d) eqn:E; [assumption|].
  intros H. injection H as <- <-. assumption.
Qed.

Lemma skip_ws_app (w s : str) :
  forallb is_ws w = true -> skip_ws (w ++ s) = skip_ws s.
Proof.
  induction w as [|c w IH]; simpl; [reflexivity|].
  destruct (is_ws c); [assumption | discriminate].
Qed.

Lemma skip_ws_stop (c : ascii) (s : str) :
  is_ws c = false -> skip_ws (c :: s) = c :: s.
Proof. intros H. simpl. now rewrite H. Qed.

(** Strings end at their closing quote. *)
Lemma scanstring_local_bounded (n : nat) :
  forall s cs rest,
    (length s <= n)%nat ->
    scanstring s = Some (cs, rest) ->
    exists a, s = a ++ rest /\ a <> []
              /\ forall rest', scanstring (a ++ rest') = Some (cs, rest').
Proof.
  induction n as [|n IH]; intros s cs rest Hlen H.
  - destruct s; [discriminate | simpl in Hlen; lia].
  - destruct s as [|c s1]; [discriminate|]. simpl in H, Hlen.
    destruct (Ascii.eqb c dquote) eqn:Eq.
    { injection H as <- <-. exists [c]. repeat split; [discriminate|].
      intros rest'. simpl. now rewrite Eq. }
    destruct (Ascii.eqb c backslash) eqn:Eb.
    { destruct s1 as [|e s2]; [discriminate|].
      destruct (Ascii.eqb e "u") eqn:Eu.
      - destruct s2 as [|h1 [|h2 [|h3 [|h4 s3]]]]; try discriminate.
        destruct (hex4 h1 h2 h3 h4) as [u|] eqn:Eh; [|discriminate].
        apply push_some in H as (cs' & H & ->).
        apply IH in H as (a & -> & _ & Ha); [|simpl in Hlen; lia].
        exists (c :: e :: h1 :: h2 :: h3 :: h4 :: a).
        repeat split; [discriminate|].
        intros rest'. simpl. now rewrite Eq, Eb, Eu, Eh, Ha.
      - destruct (unescape e) as [u|] eqn:Ee; [|discriminate].
        apply push_some in H as (cs' & H & ->).
        apply IH in H as (a & -> & _ & Ha); [|simpl in Hlen; lia].
        exists (c :: e :: a). repeat split; [discriminate|].
        intros rest'. simpl. now rewrite Eq, Eb, Eu, Ee, Ha. }
    destruct (code c <? 32)%N eqn:Ec; [discriminate|].
    apply push_some in H as (cs' & H & ->).
    apply IH in H as (a & -> & _ & Ha); [|lia].
    exists (c :: a). repeat split; [discriminate|].
    intros rest'. simpl. now rewrite Eq, Eb, Ec, Ha.
Qed.

Lemma scanstring_local (s : str) (cs : list N) (rest : str) :
  scanstring s = Some (cs, rest) ->
  exists a, s = a ++ rest /\ a <> []
            /\ forall rest', scanstring (a ++ rest') = Some (cs, rest').
Proof. now apply (scanstring_local_bounded (length s)). Qed.

(** Numbers end where the characters numbers are spelled with end. *)
Lemma span_split (p : ascii -> bool) (s a rest : str) :
  span p s = (a, rest) -> s = a ++ rest /\ forallb p a = true.
Proof.
  revert a rest. induction s as [|c s IH]; intros a rest; simpl.
  - intros H. injection H as <- <-. auto.
  - destruct (p c) eqn:E.
    + destruct (span p s) as [a' b']. intros H. injection H as <- <-.
      destruct (IH a' b' eq_refl) as [-> Hall]. simpl. now rewrite E.
    + intros H. injection H as <- <-. auto.
Qed.

Lemma span_rerun (p : ascii -> bool) (a rest' : str) :
  forallb p a = true ->
  match rest' with [] => True | c :: _ => p c = false end ->
  span p (a ++ rest') = (a, rest').
Proof.
  intros Hall Hrest. induction a as [|c a IH]; simpl in *.
  - destruct rest' as [|c r]; [reflexivity|]. simpl. now rewrite Hrest.
  - apply andb_true_iff in Hall as [Hc Hall]. now rewrite Hc, IH.
Qed.

Lemma starts_with_split (p s : str) :
  starts_with p s = true -> s = p ++ skipn (length p) s.
Proof.
  revert s. induction p as [|a p IH]; intros s; [reflexivity|].
  destruct s as [|b s]; simpl; [discriminate|].
  intros H. apply andb_true_iff in H as [Hab H].
  apply Ascii.eqb_eq in Hab as <-. f_equal. now apply IH.
Qed.

Lemma scan_number_local (s : str) (v : json) (rest : str) :
  scan_number s = Some (v, rest) ->
  exists a, s = a ++ rest /\ a <> []
            /\ forall rest', follow_ok rest' ->
                 scan_number (a ++ rest') = Some (v, rest').
Proof.
  unfold scan_number.
  destruct (span is_numchar s) as [lexeme rest0] eqn:Es.
  destruct (span_split _ _ _ _ Es) as [-> Hall].
  destruct (number_value lexeme) as [v0|] eqn:Ev.
  - intros H. injection H as <- <-. exists lexeme. split; [reflexivity|].
    split; [intros ->; discriminate|].
    intros rest' Hrest. now rewrite span_rerun, Ev.
  - clear Es Hall Ev.
    destruct (starts_with (py "NaN") (lexeme ++ rest0)) eqn:E1.
    { intros H. injection H as <- <-. exists (py "NaN").
      split; [now apply starts_with_split|]. split; [discriminate|].
      reflexivity. }
    destruct (starts_with (py "Infinity") (lexeme ++ rest0)) eqn:E2.
    { intros H. injection H as <- <-. exists (py "Infinity").
      split; [now apply starts_with_split|]. split; [discriminate|].
      reflexivity. }
    destruct (starts_with (py "-Infinity") (lexeme ++ rest0)) eqn:E3;
      [|discriminate].
    intros H. injection H as <- <-. exists (py "-Infinity").
    split; [now apply starts_with_split|]. split; [discriminate|].
    reflexivity.
Qed.

Lemma ws_not_numchar (c : ascii) : is_ws c = true -> is_numchar c = false.
Proof.
  unfold is_ws. intros H.
  apply orb_true_iff in H as [H | H];
    [apply orb_true_iff in H as [H | H];
     [apply orb_true_iff in H as [H | H]|]|];
    apply Ascii.eqb_eq in H; subst c; reflexivity.
Qed.

(** What follows a value inside a container: whitespace and a
    delimiter. *)
Lemma delimiter_after (s : str) (c : ascii) (s' : str) :
  skip_ws s = c :: s' ->
  exists w, s = w ++ c :: s'
            /\ (forall t, skip_ws (w ++ c :: t) = c :: t)
            /\ (forall t, is_numchar c = false -> follow_ok (w ++ c :: t)).
Proof.
  intros H. destruct (skip_ws_split s) as (w & Hs & Hw). rewrite H in Hs.
  pose proof (skip_ws_head _ _ _ H) as Hc.
  exists w. split; [assumption|]. split.
  - intros t. now rewrite skip_ws_app, skip_ws_stop.
  - intros t Hn. destruct w as [|d w]; simpl; [assumption|].
    simpl in Hw. apply andb_true_iff in Hw as [Hd _].
    now apply ws_not_numchar.
Qed.

(** What follows a comma: whitespace and the next item. *)
Lemma item_after (s a rest : str) :
  skip_ws s = a ++ rest -> a <> [] ->
  exists w, s = w ++ a ++ rest /\ forall t, skip_ws (w ++ a ++ t) = a ++ t.
Proof.
  intros H Ha. destruct (skip_ws_split s) as (w & Hs & Hw). rewrite H in Hs.
  exists w. split; [assumption|]. intros t. rewrite skip_ws_app by assumption.
  destruct a as [|c a]; [congruence|]. simpl in H.
  apply skip_ws_head in H. now apply skip_ws_stop.
Qed.

Section ContainersLocal.

Variable scan : str -> option (json * str).
Hypothesis scan_local : reads_locally scan scan_once.

Lemma array_items_local (fuel : nat) :
  forall s vs rest,
    array_items scan fuel s = Some (vs, rest) ->
    exists a, s = a ++ rest /\ a <> []
              /\ forall m g rest', (length a < m)%nat -> (length a <= g)%nat ->
                   array_items (scan_once m) g (a ++ rest') = Some (vs, rest').
Proof.
  induction fuel as [|fuel IH]; intros s vs rest H; [discriminate|].
  simpl in H.
  destruct (scan s) as [[v s1]|] eqn:Ev; [|discriminate].
  apply scan_local in Ev as (a1 & -> & Ha1 & Hv).
  destruct (skip_ws s1) as [|c s2] eqn:Ews; [discriminate|].
  destruct (delimiter_after _ _ _ Ews) as (w & -> & Hskip & Hfollow).
  destruct (Ascii.eqb c "]") eqn:Eclose.
  { injection H as <- <-. exists (a1 ++ w ++ [c]).
    split; [now flatten|].
    split; [destruct a1; [congruence | discriminate]|].
    intros m g rest' Hm Hg. rewrite !length_app in Hm, Hg. simpl in Hm, Hg.
    destruct g as [|g]; [lia|]. simpl.
    flatten. simpl.
    rewrite Hv; [|lia|].
    - now rewrite Hskip, Eclose.
    - apply Hfollow. apply Ascii.eqb_eq in Eclose. now subst c. }
  destruct (Ascii.eqb c ",") eqn:Ecomma; [|discriminate].
  apply push_some in H as (vs' & H & ->).
  apply IH in H as (a3 & Hs3 & Ha3 & Hitems).
  destruct (item_after _ _ _ Hs3 Ha3) as (w2 & -> & Hskip2).
  exists (a1 ++ w ++ [c] ++ w2 ++ a3).
  split; [now flatten|].
  split; [destruct a1; [congruence | discriminate]|].
  intros m g rest' Hm Hg. rewrite ?length_app in Hm, Hg. simpl in Hm, Hg.
  rewrite ?length_app in Hm, Hg.
  destruct g as [|g]; [lia|]. simpl.
  flatten. simpl.
  rewrite Hv; [|lia|].
  - rewrite Hskip. cbv beta iota. rewrite Eclose, Ecomma, Hskip2.
    rewrite Hitems; [reflexivity | lia | lia].
  - apply Hfollow. apply Ascii.eqb_eq in Ecomma. now subst c.
Qed.

Lemma json_array_local (fuel : nat) :
  forall s v rest,
    json_array scan fuel s = Some (v, rest) ->
    exists a, s = a ++ rest /\ a <> []
              /\ forall m g rest', (length a < m)%nat -> (length a <= g)%nat ->
                   json_array (scan_once m) g (a ++ rest') = Some (v, rest').
Proof.
  intros s v rest H. unfold json_array in H.
  destruct (skip_ws s) as [|c s1] eqn:Ews; [discriminate|].
  destruct (Ascii.eqb c "]") eqn:Eclose.
  - injection H as <- <-.
    destruct (delimiter_after _ _ _ Ews) as (w & -> & Hskip & _).
    exists (w ++ [c]). split; [now flatten|].
    split; [destruct w; discriminate|].
    intros m g rest' _ _. unfold json_array.
    flatten. simpl. now rewrite Hskip, Eclose.
  - destruct (array_items scan fuel (c :: s1)) as [[vs rest0]|] eqn:Ei;
      [|discriminate].
    injection H as <- <-.
    apply array_items_local in Ei as (a & Ha & Hne & Hitems).
    rewrite Ha in Ews.
    destruct (item_after _ _ _ Ews Hne) as (w & -> & Hskip).
    exists (w ++ a). split; [now flatten|].
    split; [destruct w; [assumption | discriminate]|].
    intros m g rest' Hm Hg. rewrite length_app in Hm, Hg.
    unfold json_array. rewrite <- app_assoc, Hskip.
    destruct a as [|c' a']; [congruence|].
    injection Ha as -> _.
    change ((c' :: a') ++ rest') with (c' :: a' ++ rest'). cbv iota.
    rewrite Eclose.
    change (c' :: a' ++ rest') with ((c' :: a') ++ rest').
    rewrite Hitems; [reflexivity | simpl in *; lia | simpl in *; lia].
Qed.

Lemma object_members_local (fuel : nat) :
  forall s ms rest,
    object_members scan fuel s = Some (ms, rest) ->
    exists a, s = a ++ rest
              /\ (exists b, a = b ++ ["}"%char])
              /\ forall m g rest', (length a < m)%nat -> (length a <= g)%nat ->
                   object_members (scan_once m) g (a ++ rest') = Some (ms, rest').
Proof.
  induction fuel as [|fuel IH]; intros s ms rest H; [discriminate|].
  simpl in H.
  destruct (scanstring s) as [[key s1]|] eqn:Ek; [|discriminate].
  apply scanstring_local in Ek as (ak & -> & _ & Hk).
  destruct (skip_ws s1) as [|c s2] eqn:Ews1; [discriminate|].
  destruct (delimiter_after _ _ _ Ews1) as (w1 & -> & Hskip1 & _).
  destruct (Ascii.eqb c ":") eqn:Ecolon; [|discriminate].
  destruct (scan (skip_ws s2)) as [[v s3]|] eqn:Ev; [|discriminate].
  apply scan_local in Ev as (av & Hs2 & Hav & Hv).
  destruct (item_after _ _ _ Hs2 Hav) as (w2 & -> & Hskip2).
  destruct (skip_ws s3) as [|d s4] eqn:Ews3; [discriminate|].
  destruct (delimiter_after _ _ _ Ews3) as (w3 & -> & Hskip3 & Hfollow3).
  destruct (Ascii.eqb d "}") eqn:Eclose.
  { injection H as <- <-. apply Ascii.eqb_eq in Eclose as Hd.
    exists (ak ++ w1 ++ [c] ++ w2 ++ av ++ w3 ++ [d]).
    split; [now flatten|].
    split; [exists (ak ++ w1 ++ [c] ++ w2 ++ av ++ w3); subst d;
            now flatten|].
    intros m g rest' Hm Hg. rewrite ?length_app in Hm, Hg. simpl in Hm, Hg.
    rewrite ?length_app in Hm, Hg.
    destruct g as [|g]; [lia|]. simpl.
    flatten. simpl. rewrite Hk, Hskip1. cbv beta iota.
    rewrite Ecolon, Hskip2.
    rewrite Hv; [|lia|].
    - now rewrite Hskip3, Eclose.
    - apply Hfollow3. now subst d. }
  destruct (Ascii.eqb d ",") eqn:Ecomma; [|discriminate].
  destruct (skip_ws s4) as [|q s5] eqn:Ews4; [discriminate|].
  destruct (delimiter_after _ _ _ Ews4) as (w4 & -> & Hskip4 & _).
  destruct (Ascii.eqb q dquote) eqn:Equote; [|discriminate].
  apply push_some in H as (ms' & H & ->).
  apply IH in H as (a5 & -> & (b5 & Hb5) & Hmembers).
  apply Ascii.eqb_eq in Ecomma as Hd.
  exists (ak ++ w1 ++ [c] ++ w2 ++ av ++ w3 ++ [d] ++ w4 ++ [q] ++ a5).
  split; [now flatten|].
  split; [exists (ak ++ w1 ++ [c] ++ w2 ++ av ++ w3 ++ [d] ++ w4 ++ [q] ++ b5);
          rewrite Hb5; now flatten|].
  intros m g rest' Hm Hg. rewrite ?length_app in Hm, Hg. simpl in Hm, Hg.
  rewrite ?length_app in Hm, Hg. simpl in Hm, Hg. rewrite ?length_app in Hm, Hg.
  destruct g as [|g]; [lia|]. simpl.
  flatten. simpl. rewrite Hk, Hskip1. cbv beta iota.
  rewrite Ecolon, Hskip2.
  rewrite Hv; [|lia|].
  - rewrite Hskip3. cbv beta iota. rewrite Eclose, Ecomma, Hskip4.
    cbv beta iota. rewrite Equote.
    rewrite Hmembers; [reflexivity | lia | lia].
  - apply Hfollow3. now subst d.
Qed.

Lemma json_object_local (fuel : nat) :
  forall s v rest,
    json_object scan fuel s = Some (v, rest) ->
    exists a, s = a ++ rest
              /\ (exists b, a = b ++ ["}"%char])
              /\ forall m g rest', (length a < m)%nat -> (length a <= g)%nat ->
                   json_object (scan_once m) g (a ++ rest') = Some (v, rest').
Proof.
  intros s v rest H. unfold json_object in H.
  destruct (skip_ws s) as [|c s1] eqn:Ews; [discriminate|].
  destruct (delimiter_after _ _ _ Ews) as (w & -> & Hskip & _).
  destruct (Ascii.eqb c "}") eqn:Eclose.
  - injection H as <- <-. apply Ascii.eqb_eq in Eclose as Hc.
    exists (w ++ [c]). split; [now flatten|].
    split; [exists w; now subst c|].
    intros m g rest' _ _. unfold json_object.
    flatten. simpl. now rewrite Hskip, Eclose.
  - destruct (Ascii.eqb c dquote) eqn:Equote; [|discriminate].
    destruct (object_members scan fuel s1) as [[ms rest0]|] eqn:Em;
      [|discriminate].
    injection H as <- <-.
    apply object_members_local in Em as (a & -> & (b & Hb) & Hmembers).
    exists (w ++ [c] ++ a). split; [now flatten|].
    split; [exists (w ++ [c] ++ b); rewrite Hb; now flatten|].
    intros m g rest' Hm Hg. rewrite ?length_app in Hm, Hg. simpl in Hm, Hg.
    rewrite ?length_app in Hm, Hg.
    unfold json_object. flatten. simpl.
    rewrite Hskip, Eclose, Equote.
    rewrite Hmembers; [reflexivity | lia | lia].
Qed.

End ContainersLocal.

Lemma starts_with_head (a : ascii) (p : str) (c : ascii) (x : str) :
  Ascii.eqb a c = false -> starts_with (a :: p) (c :: x) = false.
Proof. intros H. simpl. now rewrite H. Qed.

Lemma scan_once_local (n : nat) : reads_locally (scan_once n) scan_once.
Proof.
  induction n as [|n IH]; intros s v rest H; [discriminate|].
  destruct s as [|c s1]; [discriminate|]. cbn [scan_once] in H.
  destruct (Ascii.eqb c dquote) eqn:Equote.
  { destruct (scanstring s1) as [[cs rest0]|] eqn:Es; [|discriminate].
    injection H as <- <-.
    apply scanstring_local in Es as (a & -> & _ & Ha).
    exists (c :: a). repeat split; [discriminate|].
    intros m rest' Hm _. destruct m as [|m]; [simpl in Hm; lia|].
    cbn [scan_once app]. now rewrite Equote, Ha. }
  destruct (Ascii.eqb c "{") eqn:Eobj.
  { apply (json_object_local _ IH) in H as (a & -> & _ & Ha).
    exists (c :: a). repeat split; [discriminate|].
    intros m rest' Hm _. destruct m as [|m]; [simpl in Hm; lia|].
    cbn [scan_once app]. rewrite Equote, Eobj.
    apply Ha; simpl in Hm; lia. }
  destruct (Ascii.eqb c "[") eqn:Earr.
  { apply (json_array_local _ IH) in H as (a & -> & _ & Ha).
    exists (c :: a). repeat split; [discriminate|].
    intros m rest' Hm _. destruct m as [|m]; [simpl in Hm; lia|].
    cbn [scan_once app]. rewrite Equote, Eobj, Earr.
    apply Ha; simpl in Hm; lia. }
  destruct (starts_with (py "null") (c :: s1)) eqn:Enull.
  { injection H as <- <-. exists (py "null").
    split; [now apply starts_with_split|]. split; [discriminate|].
    intros m rest' Hm _. destruct m as [|m]; [simpl in Hm; lia | reflexivity]. }
  destruct (starts_with (py "true") (c :: s1)) eqn:Etrue.
  { injection H as <- <-. exists (py "true").
    split; [now apply starts_with_split|]. split; [discriminate|].
    intros m rest' Hm _. destruct m as [|m]; [simpl in Hm; lia | reflexivity]. }
  destruct (starts_with (py "false") (c :: s1)) eqn:Efalse.
  { injection H as <- <-. exists (py "false").
    split; [now apply starts_with_split|]. split; [discriminate|].
    intros m rest' Hm _. destruct m as [|m]; [simpl in Hm; lia | reflexivity]. }
  assert (En : Ascii.eqb "n" c = false).
  { destruct (Ascii.eqb "n" c) eqn:E; [|reflexivity].
    apply Ascii.eqb_eq in E. subst c. cbv in H. discriminate. }
  assert (Et : Ascii.eqb "t" c = false).
  { destruct (Ascii.eqb "t" c) eqn:E; [|reflexivity].
    apply Ascii.eqb_eq in E. subst c. cbv in H. discriminate. }
  assert (Ef : Ascii.eqb "f" c = false).
  { destruct (Ascii.eqb "f" c) eqn:E; [|reflexivity].
    apply Ascii.eqb_eq in E. subst c. cbv in H. discriminate. }
  apply scan_number_local in H as (a & Hs & Hne & Ha).
  exists a. repeat split; [assumption | assumption|].
  intros m rest' Hm Hfollow. destruct m as [|m]; [lia|].
  destruct a as [|c' a']; [congruence|]. injection Hs as <- _.
  cbn [scan_once app]. rewrite Equote, Eobj, Earr.
  unfold py. cbn [list_ascii_of_string].
  rewrite !starts_with_head by assumption.
  now apply Ha.
Qed.

Lemma number_value_not_object (lexeme : str) (ms : list (list N * json)) :
  number_value lexeme <> Some (JObject ms).
Proof.
  unfold number_value.
  destruct (match lexeme with
            | [] => (false, [])
            | c :: s' => if Ascii.eqb c "-" then (true, s') else (false, lexeme)
            end) as [neg body].
  destruct (span is_digit body) as [ds rest].
  destruct ds as [|d ds]; [discriminate|].
  destruct (Ascii.eqb d "0" && negb (Nat.eqb (length ds) 0)); [discriminate|].
  destruct (negb (valid_fraction rest)); [discriminate|].
  destruct rest; discriminate.
Qed.

Lemma scan_number_not_object (s : str) (ms : list (list N * json)) (rest : str) :
  scan_number s <> Some (JObject ms, rest).
Proof.
  unfold scan_number. destruct (span is_numchar s) as [lexeme rest0].
  destruct (number_value lexeme) as [v|] eqn:E.
  - intros H. injection H as -> _. now apply number_value_not_object in E.
  - repeat match goal with
           | |- context [if ?b then _ else _] => destruct b
           end; discriminate.
Qed.

(** An object is read from its opening brace to its closing brace. *)
Lemma scan_once_object (n : nat) (s : str) (ms : list (list N * json)) (rest : str) :
  scan_once n s = Some (JObject ms, rest) ->
  exists b, s = ("{"%char :: b ++ ["}"%char]) ++ rest
            /\ forall m, (length b + 2 < m)%nat ->
                 scan_once m ("{"%char :: b ++ ["}"%char]) = Some (JObject ms, []).
Proof.
  intros H. destruct n as [|n]; [discriminate|].
  destruct s as [|c s1]; [discriminate|].
  pose proof (scan_once_local _ _ _ _ H) as (a & Hs & _ & Ha).
  cbn [scan_once] in H.
  destruct (Ascii.eqb c dquote).
  { destruct (scanstring s1) as [[cs rest0]|]; discriminate. }
  destruct (Ascii.eqb c "{") eqn:Eobj.
  { apply (json_object_local _ (scan_once_local n)) in H
      as (a1 & -> & (b & ->) & _).
    apply Ascii.eqb_eq in Eobj. subst c.
    change ("{"%char :: (b ++ ["}"%char]) ++ rest)
      with (("{"%char :: b ++ ["}"%char]) ++ rest) in Hs.
    apply app_inv_tail in Hs. subst a.
    exists b. split; [reflexivity|].
    intros m Hm. specialize (Ha m [] ). rewrite app_nil_r in Ha.
    apply Ha; [|exact I].
    simpl. rewrite length_app. simpl. lia. }
  destruct (Ascii.eqb c "[").
  { unfold json_array in H.
    destruct (skip_ws s1) as [|d s2]; [discriminate|].
    destruct (Ascii.eqb d "]"); [discriminate|].
    destruct (array_items (scan_once n) n (d :: s2)) as [[vs r]|]; discriminate. }
  destruct (starts_with (py "null") (c :: s1)); [discriminate|].
  destruct (starts_with (py "true") (c :: s1)); [discriminate|].
  destruct (starts_with (py "false") (c :: s1)); [discriminate|].
  now apply scan_number_not_object in H.
Qed.

Lemma skip_ws_all (s : str) : skip_ws s = [] -> forallb is_ws s = true.
Proof.
  intros H. destruct (skip_ws_split s) as (w & Hs & Hw).
  rewrite H, app_nil_r in Hs. now subst w.
Qed.

(** A text that parses to an object is that object's text, from brace
    to brace, between two runs of whitespace, and the object's text alone
    parses to the same object. *)
Lemma json_loads_object (text : str) (ms : list (list N * json)) :
  json_loads text = Some (JObject ms) ->
  exists w1 b w2,
    text = w1 ++ ("{"%char :: b ++ ["}"%char]) ++ w2
    /\ forallb is_ws w1 = true /\ forallb is_ws w2 = true
    /\ json_loads ("{"%char :: b ++ ["}"%char]) = Some (JObject ms).
Proof.
  unfold json_loads. intros H.
  destruct (scan_once (S (length text)) (skip_ws text)) as [[v rest]|] eqn:Es;
    [|discriminate].
  destruct (skip_ws rest) eqn:Er; [|discriminate]. injection H as ->.
  destruct (skip_ws_split text) as (w1 & Ht & Hw1).
  apply scan_once_object in Es as (b & Hs & Hb).
  exists w1, b, rest. split; [now rewrite <- Hs|].
  split; [assumption|]. split; [now apply skip_ws_all|].
  rewrite skip_ws_stop by reflexivity.
  rewrite Hb; [reflexivity|]. simpl. rewrite length_app. simpl. lia.
Qed.

(** ** Trimming *)

Lemma lstrip_app (w s : str) :
  forallb isspace w = true -> lstrip (w ++ s) = lstrip s.
Proof.
  induction w as [|c w IH]; simpl; [reflexivity|].
  destruct (isspace c); [assumption | discriminate].
Qed.

Lemma lstrip_reverse_app (w s : str) :
  forallb isspace w = true -> lstrip (reverse w ++ s) = lstrip s.
Proof.
  revert s. induction w as [|c w IH]; intros s Hw; [reflexivity|].
  simpl in Hw. apply andb_true_iff in Hw as [Hc Hw].
  rewrite reverse_cons, <- app_assoc. rewrite IH by assumption.
  simpl. now rewrite Hc.
Qed.

Lemma strip_core (w1 w2 b : str) (c1 c2 : ascii) :
  forallb isspace w1 = true -> forallb isspace w2 = true ->
  isspace c1 = false -> isspace c2 = false ->
  strip (w1 ++ (c1 :: b ++ [c2]) ++ w2) = c1 :: b ++ [c2].
Proof.
  intros Hw1 Hw2 Hc1 Hc2. unfold strip, rstrip.
  rewrite !reverse_app, <- app_assoc, lstrip_reverse_app by assumption.
  change (c1 :: b ++ [c2]) with ((c1 :: b) ++ [c2]).
  rewrite reverse_app. simpl app. simpl lstrip. rewrite Hc2.
  change (c2 :: reverse (c1 :: b) ++ reverse w1)
    with ((c2 :: reverse (c1 :: b)) ++ reverse w1).
  rewrite reverse_app, reverse_involutive.
  change (c2 :: reverse (c1 :: b)) with ([c2] ++ reverse (c1 :: b)).
  rewrite reverse_app, reverse_involutive. simpl reverse.
  rewrite lstrip_app by assumption. simpl. now rewrite Hc1.
Qed.

Lemma ws_isspace (w : str) : forallb is_ws w = true -> forallb isspace w = true.
Proof.
  induction w as [|c w IH]; simpl; [reflexivity|].
  intros H. apply andb_true_iff in H as [Hc Hw]. rewrite IH by assumption.
  unfold is_ws in Hc.
  apply orb_true_iff in Hc as [Hc | Hc];
    [apply orb_true_iff in Hc as [Hc | Hc];
     [apply orb_true_iff in Hc as [Hc | Hc]|]|];
    apply Ascii.eqb_eq in Hc; subst c; reflexivity.
Qed.

(** ** Substitutions that find nothing *)

Lemma re_sub_no_match (r : regex) (tpl : list repl_item) (s : str) :
  search_from r false 0 [] 0 s = None -> re_sub r tpl s = s.
Proof.
  intros H. unfold re_sub, scan_all.
  replace (2 * length s + 2)%nat with (S (2 * length s + 1)) by lia.
  simpl scan. now rewrite H.
Qed.

Lemma re_search_none (r : regex) (s : str) :
  re_search r s = None -> search_from r false 0 [] 0 s = None.
Proof.
  unfold re_search. now destruct (search_from r false 0 [] 0 s).
Qed.

(** A pattern anchored at the start matches nowhere else. *)
Lemma search_anchored_later (r : regex) (ma : bool) (start : nat) (s : str) :
  forall skipped pos,
    search_from (Seq Bol r) ma start skipped (S pos) s = None.
Proof.
  induction s as [|c s IH]; intros skipped pos; simpl; [reflexivity|].
  apply IH.
Qed.

Lemma fence_open_no_match (s : str) :
  search_from fence_open_re false 0 [] 0 ("{"%char :: s) = None.
Proof.
  cbn [search_from].
  replace (match_at fence_open_re false 0 0 ("{"%char :: s)) with (@None rmatch_result)
    by reflexivity.
  apply search_anchored_later.
Qed.

(** *** Patterns that must reach the end of the text *)

Section BeforeBrace.

Context {A : Type}.

Lemma ends_with_tail (c d : ascii) (s : str) :
  ends_with c (d :: s) -> s <> [] -> ends_with c s.
Proof.
  intros [u Hu] Hs. destruct u as [|e u]; simpl in Hu.
  - injection Hu as _ Hs'. congruence.
  - injection Hu as _ Hs'. now exists u.
Qed.

Lemma ends_with_single (c d : ascii) : ends_with c [d] -> d = c.
Proof.
  intros [u Hu]. destruct u as [|e [|f u]]; simpl in Hu; congruence.
Qed.

Lemma fails_before_chr (c : ascii) (k : mstate -> option A) :
  fails_before "}" k -> Ascii.eqb c "}" = false ->
  fails_before "}" (rmatch (Chr c) k).
Proof.
  intros Hk Hc st Hst. simpl.
  destruct (m_rest st) as [|d s] eqn:Er; [reflexivity|].
  destruct (Ascii.eqb c d) eqn:Ecd; [|reflexivity].
  apply Hk. simpl. destruct s as [|e s].
  - apply ends_with_single in Hst. apply Ascii.eqb_eq in Ecd. subst.
    rewrite Ascii.eqb_refl in Hc. discriminate.
  - apply (ends_with_tail _ d); [assumption | discriminate].
Qed.

Lemma not_at_eol (s : str) : ends_with "}" s -> at_eol s = false.
Proof.
  intros [u ->]. destruct u as [|a [|b u]]; reflexivity.
Qed.

Lemma fails_before_spaces_eol (k : mstate -> option A) (fuel : nat) :
  fails_before "}" (star_greedy (rmatch Space) (rmatch Eol k) fuel).
Proof.
  induction fuel as [|fuel IH]; intros st Hst.
  - simpl. now rewrite not_at_eol.
  - assert (Hk : rmatch Eol k st = None) by (simpl; now rewrite not_at_eol).
    cbn [star_greedy]. rewrite Hk.
    destruct (m_rest st) as [|d s] eqn:Er.
    + simpl. now rewrite Er.
    + simpl. rewrite Er. destruct (isspace d) eqn:Ed; [|reflexivity].
      simpl.
      replace (m_pos st <? S (m_pos st))%nat with true
        by (symmetry; apply Nat.ltb_lt; lia).
      assert (Hs : ends_with "}" (m_rest (advance st s))).
      { simpl. destruct s as [|e s].
        - apply ends_with_single in Hst. subst d. discriminate.
        - apply (ends_with_tail _ d); [assumption | discriminate]. }
      apply IH in Hs. simpl in Hs. now rewrite Hs.
Qed.

Lemma fence_close_fails (k : mstate -> option A) :
  fails_before "}" (rmatch fence_close_re k).
Proof.
  intros st Hst.
  pose (K := rmatch (Chr "`") (rmatch (Chr "`") (rmatch (Chr "`")
               (fun st' => star_greedy (rmatch Space) (rmatch Eol k)
                             (length (m_rest st')) st')))).
  assert (Htail : fails_before "}" K).
  { unfold K. repeat (apply fails_before_chr; [|reflexivity]).
    intros st' Hst'. now apply fails_before_spaces_eol. }
  change (match rmatch (Chr newline) K st with
          | Some x => Some x
          | None => K st
          end = None).
  rewrite (fails_before_chr newline K Htail eq_refl st Hst).
  now apply Htail.
Qed.

End BeforeBrace.

Lemma fence_close_no_match (s : str) :
  ends_with "}" s ->
  forall skipped pos, search_from fence_close_re false 0 skipped pos s = None.
Proof.
  induction s as [|c s IH]; intros Hs skipped pos.
  - reflexivity.
  - cbn [search_from]. unfold match_at at 1.
    rewrite fence_close_fails by assumption.
    destruct s as [|d s]; [reflexivity|].
    apply IH. apply (ends_with_tail _ c); [assumption | discriminate].
Qed.

Lemma strip_fixed (c1 c2 : ascii) (b : str) :
  isspace c1 = false -> isspace c2 = false ->
  strip (c1 :: b ++ [c2]) = c1 :: b ++ [c2].
Proof.
  intros H1 H2.
  pose proof (strip_core [] [] b c1 c2 eq_refl eq_refl H1 H2) as H.
  now rewrite app_nil_r in H.
Qed.

(** ** The basic clean on valid JSON *)

(** C8, as the code has it. For a text that is valid JSON for an
    object and whose trimmed form holds no comma followed, after optional
    whitespace, by a closing brace or bracket (in valid JSON such a comma
    can only stand inside a string value), the basic clean gives the
    trimmed text and nothing else, and parsing its result gives the same
    structure as parsing the text directly. *)
Theorem clean_preserves_valid_json (text : str) (members : list (list N * json)) :
  json_loads text = Some (JObject members) ->
  re_search trailing_comma_re (strip text) = None ->
  clean_json_response text = strip text
  /\ json_loads (clean_json_response text) = json_loads text.
Proof.
  intros Hvalid Hcomma.
  destruct (json_loads_object _ _ Hvalid) as (w1 & b & w2 & -> & Hw1 & Hw2 & Hcore).
  assert (Hstrip : strip (w1 ++ ("{"%char :: b ++ ["}"%char]) ++ w2)
                   = "{"%char :: b ++ ["}"%char])
    by (apply strip_core; auto using ws_isspace).
  rewrite Hstrip in Hcomma.
  assert (Hclean : clean_json_response (w1 ++ ("{"%char :: b ++ ["}"%char]) ++ w2)
                   = "{"%char :: b ++ ["}"%char]).
  { unfold clean_json_response. rewrite Hstrip.
    rewrite (re_sub_no_match fence_open_re) by apply fence_open_no_match.
    rewrite (re_sub_no_match fence_close_re)
      by (apply fence_close_no_match; now exists ("{"%char :: b)).
    rewrite strip_fixed by reflexivity.
    change (find "{" ("{"%char :: b ++ ["}"%char])) with 0.
    rewrite andb_false_r.
    apply re_sub_no_match. now apply re_search_none. }
  rewrite Hclean, Hstrip. split; [reflexivity|]. now rewrite Hcore, Hvalid.
Qed.

Lemma clean_preserves_valid_json_witness :
  clean_json_response padded_response = strip padded_response
  /\ json_loads (clean_json_response padded_response) = json_loads padded_response.
Proof.
  apply (clean_preserves_valid_json padded_response
           [([97%N], JArray [JInt 1; JInt 2]); ([98%N], JString [120%N])]).
  - vm_compute. reflexivity.
  - vm_compute. reflexivity.
Defined.

(** C8, as stated, fails: a valid object whose string value holds a
    comma followed by a closing brace parses directly, but not after the
    basic clean, which rewrites the inside of the string. *)
Lemma clean_changes_valid_json :
  ~ (json_loads (clean_json_response comma_in_string_response)
     = json_loads comma_in_string_response).
Proof. vm_compute. discriminate. Qed.

(** * Further properties *)

Import Enricher Publisher.

(** ** Roman numerals, continued *)

Lemma roman_map_values (c : ascii) :
  In (roman_map c) [0; 1; 5; 10; 50; 100; 500; 1000].
Proof.
  unfold roman_map.
  repeat (destruct (Ascii.eqb c _); [simpl; tauto|]). simpl; tauto.
Qed.

Lemma roman_map_gap (c d : ascii) :
  roman_map c < roman_map d -> 2 * roman_map c <= roman_map d.
Proof.
  pose proof (roman_map_values c) as Hc. pose proof (roman_map_values d) as Hd.
  simpl in Hc, Hd. intros H. lia.
Qed.

Lemma roman_fold_cons (c : ascii) (s : str) :
  fold_left roman_step (reverse (c :: s)) (0, 0)
  = roman_step (fold_left roman_step (reverse s) (0, 0)) c.
Proof. now rewrite reverse_cons, fold_left_app. Qed.

Lemma roman_fold_invariant (s : str) :
  let '(result, prev) := fold_left roman_step (reverse s) (0, 0) in
  prev = match s with [] => 0 | c :: _ => roman_map c end
  /\ prev <= result <= roman_sum s
  /\ (result = 0 -> Forall (fun c => roman_map c = 0) s).
Proof.
  induction s as [|c s IH]; [simpl; repeat split; try lia; constructor|].
  rewrite roman_fold_cons.
  destruct (fold_left roman_step (reverse s) (0, 0)) as [result prev].
  destruct IH as (Hp & Hr & Hz). unfold roman_step. cbn [roman_sum fold_right].
  fold (roman_sum s).
  pose proof (roman_map_nonneg c) as Hc.
  assert (Hprev : 0 <= prev)
    by (rewrite Hp; destruct s; [lia | apply roman_map_nonneg]).
  destruct (roman_map c <? prev) eqn:E.
  - apply Z.ltb_lt in E.
    assert (2 * roman_map c <= prev).
    { destruct s as [|d s]; [lia|]. rewrite Hp in *. now apply roman_map_gap. }
    repeat split; lia.
  - apply Z.ltb_ge in E. repeat split; try lia.
    intros H0. constructor; [lia|]. apply Hz. lia.
Qed.

(** X1. [roman_to_int] never gives a negative number, and never more
    than the sum of the values of the characters; it gives 0 exactly
    when no character of the text is a Roman digit. *)
Theorem roman_to_int_bounds (s : str) :
  0 <= roman_to_int s <= roman_sum s
  /\ (roman_to_int s = 0 <-> Forall (fun c => roman_map c = 0) s).
Proof.
  unfold roman_to_int. pose proof (roman_fold_invariant s) as H.
  destruct (fold_left roman_step (reverse s) (0, 0)) as [result prev].
  destruct H as (Hp & Hr & Hz). simpl.
  assert (0 <= prev) by (rewrite Hp; destruct s; [lia | apply roman_map_nonneg]).
  split; [lia|]. split; [assumption|].
  intros Hall. assert (roman_sum s = 0); [|lia].
  clear -Hall. induction Hall as [|c s Hc _ IH]; [reflexivity|].
  cbn [roman_sum fold_right]. fold (roman_sum s). lia.
Qed.

Lemma roman_fold_descending (s : str) :
  descending s ->
  fst (fold_left roman_step (reverse s) (0, 0)) = roman_sum s.
Proof.
  induction s as [|c s IH]; [reflexivity|]. intros Hd.
  rewrite roman_fold_cons. pose proof (roman_fold_invariant s) as Hi.
  destruct (fold_left roman_step (reverse s) (0, 0)) as [result prev].
  destruct Hi as (Hp & _). cbn [roman_sum fold_right]. fold (roman_sum s).
  unfold roman_step. cbn [fst] in *.
  assert (Hs : descending s) by (destruct s; [exact I | apply Hd]).
  rewrite <- (IH Hs).
  replace (roman_map c <? prev) with false; [lia|].
  symmetry. apply Z.ltb_ge. rewrite Hp.
  destruct s; [apply roman_map_nonneg | apply Hd].
Qed.

(** X2. On a numeral whose values never increase from left to right
    nothing is subtracted: [roman_to_int] gives the sum of the values. *)
Theorem roman_to_int_additive (s : str) :
  descending s -> roman_to_int s = roman_sum s.
Proof. apply roman_fold_descending. Qed.

Lemma roman_to_int_additive_witness :
  roman_to_int (py "MDCLXVI") = roman_sum (py "MDCLXVI").
Proof. apply roman_to_int_additive. vm_compute. repeat split; discriminate. Defined.

(** ** Whitespace and words *)

Lemma visible_app (a b : str) : visible (a ++ b) = visible a ++ visible b.
Proof. apply List.filter_app. Qed.

Lemma visible_reverse (s : str) : visible (reverse s) = reverse (visible s).
Proof.
  induction s as [|c s IH]; [reflexivity|].
  rewrite reverse_cons, visible_app, IH. unfold visible at 2 3. cbn [List.filter].
  destruct (negb (isspace c)); [now rewrite reverse_cons | now rewrite app_nil_r].
Qed.

Lemma visible_lstrip (s : str) : visible (lstrip s) = visible s.
Proof.
  induction s as [|c s IH]; [reflexivity|].
  cbn [lstrip]. destruct (isspace c) eqn:E; [|reflexivity].
  unfold visible at 2. cbn [List.filter]. now rewrite E.
Qed.

Lemma visible_strip (s : str) : visible (strip s) = visible s.
Proof.
  unfold strip, rstrip.
  now rewrite visible_lstrip, visible_reverse, visible_lstrip, visible_reverse,
    reverse_involutive.
Qed.

Lemma visible_all (s : str) :
  Forall (fun c => isspace c = false) s -> visible s = s.
Proof.
  induction 1 as [|c s Hc _ IH]; [reflexivity|].
  unfold visible. cbn [List.filter]. rewrite Hc. cbn [negb].
  f_equal. exact IH.
Qed.

Lemma visible_none (s : str) :
  Forall (fun c => isspace c = true) s -> visible s = [].
Proof.
  induction 1 as [|c s Hc _ IH]; [reflexivity|].
  unfold visible. cbn [List.filter]. rewrite Hc. exact IH.
Qed.

Lemma visible_nonspace (s : str) : Forall (fun c => isspace c = false) (visible s).
Proof.
  induction s as [|c s IH]; [constructor|].
  unfold visible. cbn [List.filter]. destruct (isspace c) eqn:E; cbn [negb].
  - exact IH.
  - constructor; assumption.
Qed.

(** The words of [split_ws]: what they are made of. *)
Lemma split_ws_from_words (s : str) :
  forall cur,
    Forall (fun c => isspace c = false) cur ->
    concat (split_ws_from cur s) = reverse cur ++ visible s
    /\ Forall (fun w => w <> [] /\ Forall (fun c => isspace c = false) w)
              (split_ws_from cur s).
Proof.
  assert (Hrev : forall cur, Forall (fun c => isspace c = false) cur ->
            Forall (fun c => isspace c = false) (reverse cur)).
  { intros cur H. now apply Forall_reverse. }
  assert (Hne : forall (c : ascii) cur, reverse (c :: cur) <> []).
  { intros c cur H. apply (f_equal (@length ascii)) in H.
    rewrite length_reverse in H. discriminate. }
  induction s as [|c s IH]; intros cur Hcur.
  - destruct cur as [|d cur]; cbn [split_ws_from].
    + split; [reflexivity | constructor].
    + cbn [concat]. rewrite !app_nil_r. split; [reflexivity|].
      constructor; [|constructor]. split; [apply Hne | now apply Hrev].
  - cbn [split_ws_from]. unfold visible. cbn [List.filter]. fold (visible s).
    destruct (isspace c) eqn:E; cbn [negb].
    + destruct (IH [] ltac:(constructor)) as [H1 H2].
      destruct cur as [|d cur]; [split; assumption|].
      cbn [concat]. rewrite H1. split; [reflexivity|].
      constructor; [|assumption]. split; [apply Hne | now apply Hrev].
    + destruct (IH (c :: cur) ltac:(now constructor)) as [H1 H2].
      split; [|assumption]. rewrite H1, reverse_cons, <- app_assoc. reflexivity.
Qed.

Lemma visible_join (sep : str) (l : list str) :
  visible sep = [] -> visible (join sep l) = visible (concat l).
Proof.
  intros Hs. induction l as [|p [|q l] IH]; [reflexivity | |].
  - cbn [join concat]. now rewrite app_nil_r.
  - change (join sep (p :: q :: l)) with (p ++ sep ++ join sep (q :: l)).
    change (concat (p :: q :: l)) with (p ++ concat (q :: l)).
    now rewrite !visible_app, Hs, IH.
Qed.

Lemma visible_split_join (s : str) :
  visible (join (py " ") (split_ws s)) = visible s.
Proof.
  rewrite visible_join by reflexivity.
  destruct (split_ws_from_words s [] ltac:(constructor)) as [H _].
  unfold split_ws. rewrite H. cbn [reverse app].
  apply visible_all, visible_nonspace.
Qed.

Lemma visible_replace_from (old new : str) (s : str) :
  old <> [] -> visible old = visible new ->
  forall skip, visible (replace_from old new skip s) = visible (skipn skip s).
Proof.
  intros Hold Hv. induction s as [|c s IH]; intros skip.
  - now destruct skip.
  - cbn [replace_from]. destruct skip as [|k]; [|apply IH].
    cbn [skipn]. destruct (starts_with old (c :: s)) eqn:E.
    + apply starts_with_split in E.
      destruct old as [|o old]; [congruence|].
      cbn [length Nat.pred]. rewrite visible_app, IH, <- Hv.
      cbn [length skipn app] in E.
      set (rest := skipn (length old) s) in *. clearbody rest.
      injection E as -> ->.
      change (o :: old ++ rest) with ((o :: old) ++ rest).
      now rewrite visible_app.
    + unfold visible. cbn [List.filter]. fold (visible s) (visible (replace_from old new 0 s)).
      now rewrite (IH 0%nat).
Qed.

Lemma visible_replace (old new s : str) :
  old <> [] -> visible old = visible new -> visible (replace old new s) = visible s.
Proof. intros H1 H2. apply (visible_replace_from old new s H1 H2 0%nat). Qed.

Lemma visible_clean_text (s : str) : visible (clean_text s) = visible s.
Proof.
  unfold clean_text. rewrite visible_strip.
  cbn [replacements fold_left fst snd].
  rewrite !visible_replace by (discriminate || reflexivity).
  apply visible_split_join.
Qed.

Section Kept.

Variable P : ascii -> Prop.

Lemma Forall_join (sep : str) (l : list str) :
  Forall P sep -> Forall (Forall P) l -> Forall P (join sep l).
Proof.
  intros Hs. induction 1 as [|p l Hp Hl IH]; [constructor|].
  destruct l as [|q l]; [exact Hp|].
  change (join sep (p :: q :: l)) with (p ++ sep ++ join sep (q :: l)).
  apply Forall_app. split; [assumption|]. apply Forall_app. now split.
Qed.

Lemma Forall_replace_from (old new : str) (s : str) :
  Forall P new -> Forall P s ->
  forall skip, Forall P (replace_from old new skip s).
Proof.
  intros Hn. induction 1 as [|c s Hc Hs IH]; intros skip.
  - destruct skip; constructor.
  - cbn [replace_from]. destruct skip as [|k]; [|apply IH].
    destruct (starts_with old (c :: s)).
    + apply Forall_app. split; [assumption | apply IH].
    + constructor; [assumption | apply IH].
Qed.

Lemma Forall_lstrip (s : str) : Forall P s -> Forall P (lstrip s).
Proof.
  induction 1 as [|c s Hc Hs IH]; [constructor|].
  cbn [lstrip]. destruct (isspace c); [assumption | now constructor].
Qed.

Lemma Forall_strip (s : str) : Forall P s -> Forall P (strip s).
Proof.
  intros H. unfold strip, rstrip.
  now apply Forall_lstrip, Forall_reverse, Forall_lstrip, Forall_reverse.
Qed.

End Kept.

Lemma lstrip_head (s : str) (c : ascii) (u : str) :
  lstrip s = c :: u -> isspace c = false.
Proof.
  induction s as [|d s IH]; [discriminate|].
  cbn [lstrip]. destruct (isspace d) eqn:E; [assumption|].
  intros H. injection H as -> _. assumption.
Qed.

Lemma lstrip_suffix (s : str) : exists w, s = w ++ lstrip s.
Proof.
  induction s as [|d s [w IH]]; [now exists []|].
  cbn [lstrip]. destruct (isspace d).
  - exists (d :: w). cbn [app]. now f_equal.
  - now exists [].
Qed.

Lemma strip_ends (s : str) :
  (forall c u, strip s = c :: u -> isspace c = false)
  /\ (forall u c, strip s = u ++ [c] -> isspace c = false).
Proof.
  unfold strip. split; [intros c u; apply lstrip_head|].
  intros u c H.
  destruct (lstrip_suffix (rstrip s)) as [w Hw]. rewrite H in Hw.
  unfold rstrip in Hw. apply (f_equal reverse) in Hw.
  rewrite reverse_involutive, app_assoc, reverse_app in Hw.
  cbn in Hw. now apply lstrip_head in Hw.
Qed.


Lemma nonspace_plain (s : str) :
  Forall (fun c => isspace c = false) s -> plain s.
Proof. intros H. eapply Forall_impl; [exact H|]. simpl. intros c Hc Ht. congruence. Qed.

Lemma plain_clean_text (s : str) : plain (clean_text s).
Proof.
  unfold clean_text, plain. apply Forall_strip.
  assert (Hsp : forall t : str, plain t -> forall on, In on replacements ->
            plain (replace (fst on) (snd on) t)).
  { intros t Ht on Hon. apply Forall_replace_from; [|assumption].
    unfold replacements in Hon. cbn [In] in Hon.
    repeat (destruct Hon as [<- | Hon];
            [repeat (constructor; [vm_compute; intros; congruence|]); constructor|]).
    destruct Hon. }
  assert (Hfold : forall (l : list (str * str)) t,
            (forall on, In on l -> In on replacements) -> plain t ->
            plain (fold_left (fun t on => replace (fst on) (snd on) t) l t)).
  { induction l as [|on l IH]; intros t Hl Ht; [assumption|].
    cbn [fold_left]. apply IH; [intros; apply Hl; now right|].
    apply Hsp; [assumption | apply Hl; now left]. }
  apply Hfold; [auto|].
  apply Forall_join; [repeat (constructor; [vm_compute; intros; congruence|]); constructor|].
  destruct (split_ws_from_words s [] ltac:(constructor)) as [_ H].
  eapply Forall_impl; [exact H|]. simpl. intros w [_ Hw].
  now apply nonspace_plain.
Qed.

(** X4. [clean_text] only touches whitespace: the characters that
    are not whitespace come out unchanged and in the same order, the only
    whitespace left is the plain space, and the result neither starts nor
    ends with whitespace. *)
Theorem clean_text_whitespace (s : str) :
  visible (clean_text s) = visible s
  /\ Forall (fun c => isspace c = true -> c = " "%char) (clean_text s)
  /\ (forall c u, clean_text s = c :: u -> isspace c = false)
  /\ (forall u c, clean_text s = u ++ [c] -> isspace c = false).
Proof.
  split; [apply visible_clean_text|]. split; [apply plain_clean_text|].
  unfold clean_text. apply strip_ends.
Qed.

(** ** What a match reads *)

Section Reads.

Context {A : Type}.
Variable P : ascii -> Prop.

Lemma reads_refl (st : mstate) : reads P st st.
Proof. exists []. repeat split; [cbn [length]; lia | constructor]. Qed.

Lemma reads_trans (st1 st2 st3 : mstate) :
  reads P st1 st2 -> reads P st2 st3 -> reads P st1 st3.
Proof.
  intros (w1 & H1 & Hp1 & Hw1) (w2 & H2 & Hp2 & Hw2).
  exists (w1 ++ w2). rewrite <- app_assoc, <- H2, length_app.
  repeat split; [assumption | lia | now apply Forall_app].
Qed.

Lemma star_greedy_within
    (body : (mstate -> option A) -> mstate -> option A) (fuel : nat) :
  answers_within P body ->
  answers_within P (fun k => star_greedy body k fuel).
Proof.
  intros Hb. induction fuel as [|fuel IH]; intros k st x; cbn [star_greedy].
  - intros H. exists st. split; [apply reads_refl | assumption].
  - destruct (body _ st) as [y|] eqn:E.
    + intros [= ->]. apply Hb in E. destruct E as (st1 & Hr & E).
      destruct (m_pos st <? m_pos st1)%nat; [|discriminate].
      apply IH in E. destruct E as (st2 & Hr2 & E).
      exists st2. split; [eapply reads_trans; eassumption | assumption].
    + intros H. exists st. split; [apply reads_refl | assumption].
Qed.

Lemma star_lazy_within
    (body : (mstate -> option A) -> mstate -> option A) (fuel : nat) :
  answers_within P body ->
  answers_within P (fun k => star_lazy body k fuel).
Proof.
  intros Hb. induction fuel as [|fuel IH]; intros k st x; cbn [star_lazy].
  - destruct (k st) eqn:E; [|discriminate].
    intros [= ->]. exists st. split; [apply reads_refl | assumption].
  - destruct (k st) eqn:E.
    + intros [= ->]. exists st. split; [apply reads_refl | assumption].
    + intros H. apply Hb in H. destruct H as (st1 & Hr & H).
      destruct (m_pos st <? m_pos st1)%nat; [|discriminate].
      apply IH in H. destruct H as (st2 & Hr2 & H).
      exists st2. split; [eapply reads_trans; eassumption | assumption].
Qed.

Lemma rmatch_within (r : regex) :
  classes_within P r -> answers_within P (A := A) (rmatch r).
Proof.
  induction r as [|p|r1 IH1 r2 IH2|r1 IH1 r2 IH2|r1 IH1|r1 IH1|n r1 IH1| |];
    intros Hc k st x; cbn [rmatch].
  - intros H. exists st. split; [apply reads_refl | assumption].
  - destruct (m_rest st) as [|c s'] eqn:Es; [discriminate|].
    destruct (p c) eqn:Ep; [|discriminate].
    intros H. exists (advance st s'). split; [|assumption].
    exists [c]. cbn [advance m_rest m_pos app length].
    repeat split; [assumption | lia | repeat constructor; now apply Hc].
  - destruct Hc as [Hc1 Hc2]. intros H.
    apply (IH1 Hc1) in H. destruct H as (st1 & Hr1 & H).
    apply (IH2 Hc2) in H. destruct H as (st2 & Hr2 & H).
    exists st2. split; [eapply reads_trans; eassumption | assumption].
  - destruct Hc as [Hc1 Hc2].
    destruct (rmatch r1 k st) eqn:E.
    + intros [= ->]. now apply (IH1 Hc1) in E.
    + now apply IH2.
  - apply (star_greedy_within (rmatch r1)). now apply IH1.
  - apply (star_lazy_within (rmatch r1)). now apply IH1.
  - intros H. apply (IH1 Hc) in H. destruct H as (st1 & Hr & H).
    exists (close_group n st st1). split; [exact Hr | assumption].
  - destruct (m_pos st =? 0)%nat; [|discriminate].
    intros H. exists st. split; [apply reads_refl | assumption].
  - destruct (at_eol (m_rest st)); [|discriminate].
    intros H. exists st. split; [apply reads_refl | assumption].
Qed.

End Reads.

Section Scan.

Variable P : ascii -> Prop.
Variable r : regex.
Hypothesis Hr : classes_within P r.

Lemma match_at_within (ma : bool) (start pos : nat) (s : str) (m : rmatch_result) :
  match_at r ma start pos s = Some m ->
  exists w, s = w ++ mt_after m /\ Forall P w
            /\ mt_start m = pos /\ mt_end m = (pos + length w)%nat.
Proof.
  unfold match_at. intros H.
  apply (rmatch_within P r Hr) in H. destruct H as (st' & (w & Hw & Hp & HP) & H).
  destruct (ma && (m_pos st' =? start)%nat); [discriminate|].
  injection H as <-. cbn in *. now exists w.
Qed.

Lemma search_from_within (ma : bool) (start : nat) (s : str) :
  forall skipped pos before m,
    search_from r ma start skipped pos s = Some (before, m) ->
    exists gap w, before = reverse skipped ++ gap
                  /\ s = gap ++ w ++ mt_after m /\ Forall P w
                  /\ mt_start m = (pos + length gap)%nat
                  /\ mt_end m = (mt_start m + length w)%nat.
Proof.
  induction s as [|c s IH]; intros skipped pos before m; cbn [search_from].
  - destruct (match_at r ma start pos []) as [m'|] eqn:E; [|discriminate].
    intros [= <- ->]. apply match_at_within in E.
    destruct E as (w & Hw & HP & Hs & He).
    exists [], w. rewrite app_nil_r. cbn [app length]. repeat split; try assumption; lia.
  - destruct (match_at r ma start pos (c :: s)) as [m'|] eqn:E.
    + intros [= <- ->]. apply match_at_within in E.
      destruct E as (w & Hw & HP & Hs & He).
      exists [], w. rewrite app_nil_r. cbn [app length]. repeat split; try assumption; lia.
    + intros H. apply IH in H. destruct H as (gap & w & Hb & Hs & HP & Hst & He).
      exists (c :: gap), w. rewrite Hb, reverse_cons, <- app_assoc.
      cbn [app length]. repeat split; try assumption; [now rewrite Hs | lia].
Qed.

Hypothesis Hspace : forall c, P c -> isspace c = true.

Lemma scan_visible (fuel : nat) :
  forall ma pos s ms tail,
    scan fuel r ma pos s = (ms, tail) ->
    visible (concat (map fst ms) ++ tail) = visible s.
Proof.
  induction fuel as [|fuel IH]; intros ma pos s ms tail; cbn [scan].
  - now intros [= <- <-].
  - destruct (search_from r ma pos [] pos s) as [[before m]|] eqn:E.
    2:{ now intros [= <- <-]. }
    destruct (scan fuel r (mt_end m =? mt_start m)%nat (mt_end m) (mt_after m))
      as [ms' tail'] eqn:E'.
    intros [= <- <-]. apply IH in E'.
    apply search_from_within in E.
    destruct E as (gap & w & Hb & Hs & HP & _). cbn [reverse app] in Hb. subst before.
    cbn [map fst concat]. rewrite <- app_assoc, visible_app, E', Hs.
    rewrite !visible_app. rewrite (visible_none w); [reflexivity|].
    eapply Forall_impl; [exact HP|]. exact Hspace.
Qed.

End Scan.

Lemma blank_line_within : classes_within (fun c => isspace c = true) blank_line_re.
Proof.
  cbn. repeat split; try (intros c H; apply Ascii.eqb_eq in H; now subst c).
  auto.
Qed.

Lemma re_split_visible (s : str) :
  visible (concat (re_split blank_line_re s)) = visible s.
Proof.
  unfold re_split, scan_all.
  destruct (scan (2 * length s + 2) blank_line_re false 0 s) as [ms tail] eqn:E.
  rewrite concat_app. cbn [concat]. rewrite app_nil_r.
  eapply scan_visible; [apply blank_line_within | auto | exact E].
Qed.

Lemma lstrip_empty (s : str) : lstrip s = [] -> visible s = [].
Proof.
  induction s as [|c s IH]; [reflexivity|].
  cbn [lstrip]. destruct (isspace c) eqn:E; [|discriminate].
  intros H. unfold visible. cbn [List.filter]. rewrite E. now apply IH.
Qed.

Lemma strip_empty (s : str) : strip s = [] -> visible s = [].
Proof. intros H. rewrite <- visible_strip, H. reflexivity. Qed.

Lemma strip_nonempty (s : str) : strip s <> [] -> visible s <> [].
Proof.
  intros H Hv. apply H. rewrite <- visible_strip in Hv.
  destruct (strip s) as [|c u] eqn:E; [reflexivity|].
  destruct (strip_ends s) as [Hh _]. specialize (Hh c u E).
  unfold visible in Hv. cbn [List.filter] in Hv. rewrite Hh in Hv. discriminate.
Qed.

Lemma visible_concat_kept (pieces : list str) :
  visible (concat (map clean_text
     (List.filter (fun p => negb (Nat.eqb (length (strip p)) 0)) pieces)))
  = visible (concat pieces).
Proof.
  induction pieces as [|p pieces IH]; [reflexivity|].
  cbn [List.filter concat]. rewrite visible_app.
  destruct (strip p) as [|c u] eqn:E; cbn [length Nat.eqb negb].
  - rewrite IH. now rewrite (strip_empty p E).
  - cbn [map concat]. now rewrite visible_app, IH, visible_clean_text.
Qed.

(** X5. [split_into_paragraphs] loses nothing but whitespace: the
    paragraphs, put end to end, hold the non-whitespace characters of the
    text in order; and every paragraph holds at least one such character
    and no whitespace other than the plain space (so no newline). *)
Theorem split_into_paragraphs_text (text : str) :
  visible (concat (split_into_paragraphs text)) = visible text
  /\ Forall (fun p => visible p <> [] /\ plain p) (split_into_paragraphs text).
Proof.
  unfold split_into_paragraphs. split.
  - rewrite visible_concat_kept. apply re_split_visible.
  - apply List.Forall_forall. intros p Hp.
    apply in_map_iff in Hp. destruct Hp as (q & <- & Hq).
    apply filter_In in Hq. destruct Hq as [_ Hq].
    split; [|apply plain_clean_text].
    rewrite visible_clean_text. apply strip_nonempty.
    intros H. rewrite H in Hq. discriminate.
Qed.

(** ** What the passages hold *)

Lemma loop_finalized (cfg : config) (ps : list str) :
  forall st : loop_state,
  exists (new : list chunk) (groups : list (list str)),
    last_chunk (fold_left (loop_body cfg) ps st) = chunks st ++ new
    /\ Forall2 finalized new groups
    /\ concat groups = current_chunk st ++ ordinary ps.
Proof.
  induction ps as [|para ps IH]; intros st.
  - cbn [fold_left]. unfold last_chunk, append_chunk.
    destruct (current_chunk st) as [|p g] eqn:Hc; cbn [is_empty negb].
    + exists [], []. rewrite app_nil_r. repeat split; constructor.
    + exists [_finalize_chunk (p :: g) (current_book st) (current_chapter st)
                (Z.of_nat (length (chunks st)))], [p :: g].
      split; [reflexivity|]. split.
      * repeat constructor; [discriminate | eauto].
      * cbn [concat ordinary List.filter]. now rewrite !app_nil_r.
  - cbn [fold_left].
    destruct (IH (loop_body cfg st para)) as (new & groups & Hout & Hm & Hcat).
    rewrite Hout, ordinary_cons.
    destruct (loop_body_shape cfg st para) as [[Hk Ha] | (g & Hg & Hk & Ha)].
    + exists new, groups. rewrite Hk in *. rewrite Ha in Hcat.
      rewrite <- app_assoc in Hcat. auto.
    + exists (_finalize_chunk g (current_book st) (current_chapter st)
                (Z.of_nat (length (chunks st))) :: new), (g :: groups).
      rewrite Hk. unfold append_chunk. rewrite <- app_assoc.
      split; [reflexivity|]. split.
      * constructor; [split; [assumption | eauto] | assumption].
      * cbn [concat]. rewrite Hcat, !app_assoc. now rewrite Ha.
Qed.

Lemma create_chunks_finalized (cfg : config) (text : str) :
  exists groups : list (list str),
    Forall2 finalized (create_chunks cfg text) groups
    /\ concat groups = ordinary (split_into_paragraphs text).
Proof.
  unfold create_chunks, chunk_paragraphs.
  destruct (loop_finalized cfg (split_into_paragraphs text) initial_state)
    as (new & groups & Hout & Hm & Hcat).
  cbn in Hout, Hcat. rewrite Hout. now exists groups.
Qed.

Lemma visible_passages (cs : list chunk) (groups : list (list str)) :
  Forall2 finalized cs groups ->
  visible (concat (map original_text cs)) = visible (concat (concat groups)).
Proof.
  induction 1 as [|c g cs groups (Hg & b & ch & i & ->) _ IH]; [reflexivity|].
  cbn [map concat original_text _finalize_chunk].
  rewrite concat_app, !visible_app, IH. f_equal.
  apply visible_join. reflexivity.
Qed.

Lemma ordinary_all (ps : list str) :
  Forall (fun p => is_marker p = false) ps -> ordinary ps = ps.
Proof.
  induction 1 as [|p ps Hp _ IH]; [reflexivity|].
  rewrite ordinary_cons, Hp, IH. reflexivity.
Qed.

(** X6. The passages of [create_chunks], put end to end, hold the
    non-whitespace characters of the ordinary paragraphs in order; when
    no paragraph is a marker this is all the non-whitespace text given to
    [create_chunks]. *)
Theorem create_chunks_keeps_text (cfg : config) (text : str) :
  visible (concat (map original_text (create_chunks cfg text)))
  = visible (concat (ordinary (split_into_paragraphs text)))
  /\ (Forall (fun p => is_marker p = false) (split_into_paragraphs text) ->
      visible (concat (map original_text (create_chunks cfg text)))
      = visible text).
Proof.
  destruct (create_chunks_finalized cfg text) as (groups & Hf & Hcat).
  assert (H : visible (concat (map original_text (create_chunks cfg text)))
              = visible (concat (ordinary (split_into_paragraphs text))))
    by (rewrite (visible_passages _ _ Hf), Hcat; reflexivity).
  split; [exact H|]. intros Hall.
  rewrite H, ordinary_all by assumption.
  apply split_into_paragraphs_text.
Qed.

Lemma create_chunks_keeps_text_witness :
  visible (concat (map original_text (create_chunks small_config three_paragraphs)))
  = visible three_paragraphs.
Proof.
  apply (create_chunks_keeps_text small_config three_paragraphs).
  replace (split_into_paragraphs three_paragraphs) with [py "ab"; py "cd"; py "e"]
    by (vm_compute; reflexivity).
  repeat (constructor; [vm_compute; reflexivity|]). constructor.
Defined.

(** ** Counts *)

Lemma split_ws_from_app (a : str) (w : ascii) (b : str) :
  isspace w = true ->
  forall cur, split_ws_from cur (a ++ w :: b) = split_ws_from cur a ++ split_ws b.
Proof.
  intros Hw. induction a as [|c a IH]; intros cur.
  - cbn [app split_ws_from]. rewrite Hw. now destruct cur.
  - cbn [app split_ws_from]. destruct (isspace c).
    + destruct cur; [apply IH|]. cbn [app]. f_equal. apply IH.
    + apply IH.
Qed.

Lemma total_word_count_cons (p : str) (g : list str) :
  total_word_count (p :: g) = estimate_word_count p + total_word_count g.
Proof. reflexivity. Qed.

Lemma word_count_join (g : list str) :
  estimate_word_count (join paragraph_sep g) = total_word_count g.
Proof.
  induction g as [|p [|q g] IH]; [reflexivity | |].
  - rewrite total_word_count_cons. cbn [join]. unfold total_word_count at 1.
    cbn [fold_right]. lia.
  - change (join paragraph_sep (p :: q :: g))
      with (p ++ newline :: newline :: join paragraph_sep (q :: g)).
    rewrite (total_word_count_cons p), <- IH.
    unfold estimate_word_count, split_ws.
    rewrite split_ws_from_app by reflexivity.
    rewrite length_app, Nat2Z.inj_add. reflexivity.
Qed.

Lemma total_word_count_app (a b : list str) :
  total_word_count (a ++ b) = total_word_count a + total_word_count b.
Proof.
  induction a as [|p a IH]; [reflexivity|].
  cbn [app]. rewrite !total_word_count_cons, IH. lia.
Qed.

Lemma totals_of_groups (cs : list chunk) (groups : list (list str)) :
  Forall2 finalized cs groups ->
  total_words cs = total_word_count (concat groups)
  /\ total_characters cs
     = total_length (concat groups)
       + 2 * (Z.of_nat (length (concat groups)) - Z.of_nat (length cs))
  /\ fold_right (fun c n => paragraph_count c + n) 0 cs
     = Z.of_nat (length (concat groups)).
Proof.
  induction 1 as [|c g cs groups (Hg & b & ch & i & ->) _ (IH1 & IH2 & IH3)].
  - repeat split; reflexivity.
  - cbn [total_words total_characters fold_right concat length
         word_count character_count paragraph_count _finalize_chunk].
    fold (total_words cs) (total_characters cs).
    rewrite IH1, IH2, IH3, word_count_join, total_word_count_app,
      total_length_app, length_app, (len_join paragraph_sep g Hg).
    change (len paragraph_sep) with 2.
    repeat split; lia.
Qed.

(** X7. The totals [parse_and_save] computes do not depend on where
    the passages are cut: the word total is the number of words of the
    ordinary paragraphs; the character total is their total length plus 2
    for each separator, one fewer per passage than paragraphs; the
    paragraph counts add up to the number of ordinary paragraphs. *)
Theorem parse_totals (cfg : config) (text : str) :
  let cs := create_chunks cfg text in
  let ps := ordinary (split_into_paragraphs text) in
  total_words cs = total_word_count ps
  /\ total_characters cs
     = total_length ps + 2 * (Z.of_nat (length ps) - Z.of_nat (length cs))
  /\ fold_right (fun c n => paragraph_count c + n) 0 cs = Z.of_nat (length ps).
Proof.
  cbv zeta. destruct (create_chunks_finalized cfg text) as (groups & Hf & <-).
  now apply totals_of_groups.
Qed.

Lemma length_concat_nonempty (l : list str) :
  Forall (fun w => w <> []) l -> (length l <= length (concat l))%nat.
Proof.
  induction 1 as [|w l Hw _ IH]; [reflexivity|].
  cbn [concat length]. rewrite length_app.
  destruct w; [congruence|]. cbn [length]. lia.
Qed.

Lemma length_visible (s : str) : (length (visible s) <= length s)%nat.
Proof. apply filter_length_le. Qed.

Lemma word_count_bounds (s : str) :
  estimate_word_count s <= len s
  /\ (visible s <> [] -> 1 <= estimate_word_count s).
Proof.
  unfold estimate_word_count, len, split_ws.
  destruct (split_ws_from_words s [] ltac:(constructor)) as [Hc Hw].
  change (reverse [] ++ visible s) with (visible s) in Hc. split.
  - pose proof (length_visible s) as Hv. rewrite <- Hc in Hv.
    assert (Hl : (length (split_ws_from [] s) <= length (concat (split_ws_from [] s)))%nat).
    { apply length_concat_nonempty. eapply Forall_impl; [exact Hw|].
      simpl. now intros w [H _]. }
    lia.
  - intros Hv. rewrite <- Hc in Hv.
    destruct (split_ws_from [] s); [now elim Hv | cbn [length]; lia].
Qed.

Lemma total_word_count_least (g : list str) :
  Forall (fun p => visible p <> []) g ->
  Z.of_nat (length g) <= total_word_count g.
Proof.
  induction 1 as [|p g Hp _ IH]; [reflexivity|].
  rewrite total_word_count_cons. cbn [length].
  destruct (word_count_bounds p) as [_ H]. specialize (H Hp). lia.
Qed.

Lemma Forall_concat_inv {A : Type} (P : A -> Prop) (l : list (list A)) :
  Forall P (concat l) -> Forall (Forall P) l.
Proof.
  induction l as [|g l IH]; [constructor|].
  cbn [concat]. intros H. apply Forall_app in H. destruct H as [H1 H2].
  constructor; [assumption | now apply IH].
Qed.

Lemma Forall_ordinary (P : str -> Prop) (ps : list str) :
  Forall P ps -> Forall P (ordinary ps).
Proof.
  induction 1 as [|p ps Hp _ IH]; [constructor|].
  rewrite ordinary_cons. destruct (is_marker p); [assumption | now constructor].
Qed.

(** X8. No passage is empty: each has at least one paragraph, at
    least as many words as paragraphs and at least as many characters as
    words. [create_chunks] gives no passage at all exactly when the text
    has no ordinary paragraph, the case in which the averages of
    [parse_and_save] divide by zero. *)
Theorem passages_not_empty (cfg : config) (text : str) :
  Forall (fun c => 1 <= paragraph_count c <= word_count c
                   /\ word_count c <= character_count c)
         (create_chunks cfg text)
  /\ (create_chunks cfg text = [] <-> ordinary (split_into_paragraphs text) = []).
Proof.
  destruct (create_chunks_finalized cfg text) as (groups & Hf & Hcat).
  assert (Hvis : Forall (Forall (fun p => visible p <> [])) groups).
  { apply Forall_concat_inv. rewrite Hcat. apply Forall_ordinary.
    destruct (split_into_paragraphs_text text) as [_ H].
    eapply Forall_impl; [exact H|]. simpl. now intros p [Hp _]. }
  split.
  - clear Hcat. induction Hf as [|c g cs groups (Hg & b & ch & i & ->) _ IH];
      [constructor|].
    apply Forall_cons in Hvis. destruct Hvis as [Hv Hvis].
    constructor; [|now apply IH].
    cbn [paragraph_count word_count character_count _finalize_chunk].
    rewrite word_count_join.
    pose proof (total_word_count_least g Hv) as H1.
    pose proof (word_count_bounds (join paragraph_sep g)) as [H2 _].
    rewrite word_count_join in H2.
    destruct g; [congruence|]. cbn [length] in *. lia.
  - rewrite <- Hcat. clear Hcat Hvis. split; intros H.
    + rewrite H in Hf. inversion Hf. reflexivity.
    + destruct Hf as [|c g cs groups [Hg _] _]; [reflexivity|].
      cbn [concat] in H. apply app_eq_nil in H. destruct H. congruence.
Qed.

(** ** Book numbers *)

Lemma roman_letter_value (c : ascii) :
  existsb (Ascii.eqb c) (py "IVXLCDM") = true -> 1 <= roman_map c.
Proof.
  unfold roman_map. cbn [py list_ascii_of_string existsb].
  rewrite !(Ascii.eqb_sym c).
  repeat (destruct (Ascii.eqb _ c); [lia|]). discriminate.
Qed.

Lemma roman_to_int_head (c : ascii) (s : str) : roman_map c <= roman_to_int (c :: s).
Proof.
  unfold roman_to_int. pose proof (roman_fold_invariant (c :: s)) as H.
  destruct (fold_left roman_step (reverse (c :: s)) (0, 0)) as [result prev].
  destruct H as (-> & H & _). cbn [fst]. lia.
Qed.

Lemma marker_numeral (word : str) (s : str) (m : rmatch_result) :
  re_match (Seq (Lit word) (Seq (Plus Space) (Grp 1 roman_digits))) s = Some m ->
  exists c w, group 1 m = Some (c :: w) /\ 1 <= roman_map c.
Proof.
  unfold re_match, match_at. cbn [rmatch]. intros H.
  apply rmatch_answers in H as (st1 & H).
  apply rmatch_answers in H as (st2 & H).
  unfold roman_digits, Plus, OneOf in H. cbn [rmatch] in H.
  destruct (m_rest st2) as [|c s'] eqn:Es; [discriminate|].
  destruct (existsb (Ascii.eqb c) (py "IVXLCDM")) eqn:Ec; [|discriminate].
  apply (star_greedy_within (fun _ => True)) in H.
  2:{ apply (rmatch_within (fun _ => True) (Cls _)). now intros. }
  destruct H as (st3 & (w & Hw & Hp & _) & H).
  cbn [andb] in H. injection H as <-.
  exists c, w. split; [|now apply roman_letter_value].
  unfold group, close_group. cbn [mt_caps m_caps List.find fst snd Nat.eqb fmap option_fmap option_map].
  cbn [advance m_rest m_pos] in Hw, Hp. rewrite Es, Hw, Hp.
  replace (S (m_pos st2) + length w - m_pos st2)%nat with (S (length w)) by lia.
  cbn [firstn]. now rewrite firstn_app, Nat.sub_diag, firstn_all, firstn_O, app_nil_r.
Qed.

Lemma marker_number_least (word : str) (para : str) :
  is_Some (re_match (Seq (Lit word) (Seq (Plus Space) roman_digits)) (strip para)) ->
  exists n,
    marker_number (Seq (Lit word) (Seq (Plus Space) (Grp 1 roman_digits))) para
    = Some n /\ 1 <= n.
Proof.
  intros H. apply marker_number_found in H. destruct H as (m & numeral & Hm & Hg).
  destruct (marker_numeral _ _ _ Hm) as (c & w & Hg' & Hc).
  unfold marker_number. rewrite Hm. cbn [mbind option_bind]. rewrite Hg'.
  cbn [mbind option_bind]. eexists. split; [reflexivity|].
  pose proof (roman_to_int_head c w). lia.
Qed.

(** X3. A paragraph that [create_chunks] takes for a book or a
    chapter marker always carries a number, and that number is at least
    1: the group of the pattern holds at least one Roman digit. *)
Theorem marker_number_positive (para : str) :
  (is_book_marker para = true ->
   exists n, marker_number book_number_re para = Some n /\ 1 <= n)
  /\ (is_chapter_marker para = true ->
      exists n, marker_number chapter_number_re para = Some n /\ 1 <= n).
Proof.
  split; intros H; apply bool_decide_eq_true in H;
    now apply marker_number_least in H.
Qed.

Lemma marker_number_positive_witness :
  (exists n, marker_number book_number_re (py "BOOK IV") = Some n /\ 1 <= n)
  /\ (exists n, marker_number chapter_number_re (py "CHAPTER XII") = Some n /\ 1 <= n).
Proof.
  destruct (marker_number_positive (py "BOOK IV")) as [H1 _].
  destruct (marker_number_positive (py "CHAPTER XII")) as [_ H2].
  split; [apply H1 | apply H2]; vm_compute; reflexivity.
Defined.

Lemma loop_body_no_book (cfg : config) (st : loop_state) (para : str) :
  is_book_marker para = false ->
  current_book (loop_body cfg st para) = current_book st.
Proof.
  intros Hb. unfold loop_body. rewrite Hb.
  destruct (is_chapter_marker para).
  { now destruct (negb (is_empty (current_chunk st))
                  && (min_chunk_size cfg <=? current_size st)). }
  destruct ((max_chunk_size cfg <? current_size st + len para)
            && negb (is_empty (current_chunk st))); [reflexivity|].
  now destruct ((target_chunk_size cfg <=? current_size st + len para)
                && (min_chunk_size cfg <=? current_size st)).
Qed.

Lemma loop_books (cfg : config) (ps : list str) :
  Forall (fun p => is_book_marker p = false) ps ->
  forall st : loop_state,
  exists new : list chunk,
    last_chunk (fold_left (loop_body cfg) ps st) = chunks st ++ new
    /\ Forall (fun c => book c = current_book st) new.
Proof.
  induction 1 as [|para ps Hp _ IH]; intros st.
  - cbn [fold_left]. unfold last_chunk, append_chunk.
    destruct (negb (is_empty (current_chunk st))).
    + eexists. split; [reflexivity|]. repeat constructor.
    + exists []. rewrite app_nil_r. split; [reflexivity | constructor].
  - cbn [fold_left].
    destruct (IH (loop_body cfg st para)) as (new & Hout & Hb).
    rewrite (loop_body_no_book cfg st para Hp) in Hb. rewrite Hout.
    destruct (loop_body_shape cfg st para) as [[Hk _] | (g & _ & Hk & _)];
      rewrite Hk.
    + now exists new.
    + unfold append_chunk. rewrite <- app_assoc. eexists.
      split; [reflexivity|]. constructor; [reflexivity | assumption].
Qed.

(** X9. After the last book marker of a text every passage carries
    that marker's number: the passages made of the paragraphs before
    the marker are those of that part alone, and all the later ones have
    the decoded number, at least 1, as their [book]. *)
Theorem passages_carry_book (cfg : config) (text : str)
    (before after : list str) (marker : str) :
  split_into_paragraphs text = before ++ marker :: after ->
  is_book_marker marker = true ->
  Forall (fun p => is_book_marker p = false) after ->
  exists (n : Z) (cs : list chunk),
    marker_number book_number_re marker = Some n
    /\ 1 <= n
    /\ create_chunks cfg text = chunk_paragraphs cfg before ++ cs
    /\ Forall (fun c => book c = n) cs.
Proof.
  intros Hps Hb Hafter.
  assert (Hn : exists n, marker_number book_number_re marker = Some n /\ 1 <= n).
  { apply bool_decide_eq_true in Hb. now apply marker_number_least in Hb. }
  destruct Hn as (n & Hnum & Hpos).
  unfold create_chunks. rewrite Hps.
  unfold chunk_paragraphs at 1. rewrite fold_left_app. cbn [fold_left].
  set (st1 := fold_left (loop_body cfg) before initial_state).
  destruct (loop_body_book_marker cfg st1 marker Hb) as (Hk & _ & Hbook & _).
  destruct (loop_books cfg after Hafter (loop_body cfg st1 marker))
    as (new & Hout & Hall).
  rewrite Hk in Hout. rewrite Hbook, Hnum in Hall. cbn [default] in Hall.
  exists n, new. repeat split; assumption.
Qed.

(** X10. Without a book marker every passage is filed under book 1. *)
Theorem passages_default_book (cfg : config) (text : str) :
  Forall (fun p => is_book_marker p = false) (split_into_paragraphs text) ->
  Forall (fun c => book c = 1) (create_chunks cfg text).
Proof.
  intros H. unfold create_chunks, chunk_paragraphs.
  destruct (loop_books cfg _ H initial_state) as (new & Hout & Hall).
  rewrite Hout. exact Hall.
Qed.

Lemma passages_carry_book_witness :
  exists (n : Z) (cs : list chunk),
    marker_number book_number_re (py "BOOK II") = Some n
    /\ 1 <= n
    /\ create_chunks scenario_config two_books_text
       = chunk_paragraphs scenario_config [py "BOOK I"; py "CHAPTER V"; py "alpha"] ++ cs
    /\ Forall (fun c => book c = n) cs.
Proof.
  apply (passages_carry_book scenario_config two_books_text
           [py "BOOK I"; py "CHAPTER V"; py "alpha"] [py "beta"] (py "BOOK II")).
  - vm_compute. reflexivity.
  - vm_compute. reflexivity.
  - repeat (constructor; [vm_compute; reflexivity|]). constructor.
Defined.

Lemma passages_default_book_witness :
  Forall (fun c => book c = 1) (create_chunks small_config three_paragraphs).
Proof.
  apply (passages_default_book small_config three_paragraphs).
  replace (split_into_paragraphs three_paragraphs) with [py "ab"; py "cd"; py "e"]
    by (vm_compute; reflexivity).
  repeat (constructor; [vm_compute; reflexivity|]). constructor.
Defined.

(** ** The start of Book I *)

Lemma lstrip_fixed (s : str) :
  match s with [] => True | c :: _ => isspace c = false end -> lstrip s = s.
Proof. destruct s as [|c s]; [reflexivity|]. cbn [lstrip]. now intros ->. Qed.

Lemma lstrip_app_visible (a : str) (c : ascii) (b : str) :
  isspace c = false -> lstrip (a ++ c :: b) = lstrip a ++ c :: b.
Proof.
  intros Hc. induction a as [|d a IH]; cbn [app lstrip].
  - now rewrite Hc.
  - destruct (isspace d); [assumption | reflexivity].
Qed.

Lemma rstrip_app_visible (u : str) (c : ascii) (r : str) :
  isspace c = false -> rstrip (u ++ c :: r) = u ++ c :: rstrip r.
Proof.
  intros Hc. unfold rstrip.
  rewrite reverse_app, reverse_cons, <- app_assoc. cbn [app].
  rewrite lstrip_app_visible by assumption.
  rewrite reverse_app, reverse_cons, reverse_involutive, <- app_assoc.
  reflexivity.
Qed.

Lemma strip_idempotent (s : str) : strip (strip s) = strip s.
Proof.
  destruct (strip_ends s) as [Hh Hl].
  destruct (strip s) as [|c t] eqn:E; [reflexivity|].
  destruct (@exists_last _ (c :: t) ltac:(discriminate)) as (u & d & Hu).
  rewrite Hu in *. unfold strip.
  replace (u ++ [d]) with (u ++ d :: []) by reflexivity.
  rewrite rstrip_app_visible by (now apply (Hl u d)).
  apply lstrip_fixed. rewrite <- Hu. now apply (Hh c t).
Qed.

Lemma strip_keeps_prefix (p rest : str) (c d : ascii) (q : str) :
  p = c :: q -> isspace c = false ->
  (exists u, p = u ++ [d]) -> isspace d = false ->
  exists rest', strip (p ++ rest) = p ++ rest'.
Proof.
  intros Hp Hc (u & Hu) Hd. exists (rstrip rest). unfold strip.
  rewrite Hu at 1. rewrite <- app_assoc. cbn [app].
  rewrite rstrip_app_visible by assumption.
  change (u ++ d :: rstrip rest) with (u ++ [d] ++ rstrip rest).
  rewrite app_assoc, <- Hu. apply lstrip_fixed. rewrite Hp. exact Hc.
Qed.

Lemma find_sub_from_found (needle : str) (s : str) :
  forall i r, find_sub_from needle i s = r -> r <> -1 -> 0 <= i ->
    i <= r /\ starts_with needle (skipn (Z.to_nat (r - i)) s) = true.
Proof.
  induction s as [|c s IH]; intros i r H Hr Hi; cbn [find_sub_from] in H.
  - destruct (starts_with needle []) eqn:E; [|congruence].
    subst r. rewrite Z.sub_diag. split; [lia | exact E].
  - destruct (starts_with needle (c :: s)) eqn:E.
    + subst r. rewrite Z.sub_diag. split; [lia | exact E].
    + destruct (IH (i + 1) r H Hr ltac:(lia)) as [H1 H2]. split; [lia|].
      replace (Z.to_nat (r - i)) with (S (Z.to_nat (r - (i + 1)))) by lia.
      exact H2.
Qed.

Lemma find_book_one_found (patterns : list str) (text : str) :
  find_book_one patterns text <> -1 ->
  exists pattern,
    In pattern patterns
    /\ 0 <= find_book_one patterns text
    /\ starts_with pattern (skipn (Z.to_nat (find_book_one patterns text)) text) = true.
Proof.
  induction patterns as [|p patterns IH]; [now intros H|].
  cbn [find_book_one]. cbv zeta.
  destruct (negb (find_sub p text =? -1)) eqn:E1; cbn [andb].
  - destruct (find_sub p text <? len text / 4) eqn:E2.
    + intros _. exists p. split; [now left|].
      apply negb_true_iff, Z.eqb_neq in E1.
      destruct (find_sub_from_found p text 0 _ eq_refl E1 ltac:(lia)) as [H1 H2].
      fold (find_sub p text) in H1, H2.
      split; [assumption|]. now rewrite Z.sub_0_r in H2.
    + intros H. destruct (IH H) as (q & Hq & Hr). exists q. split; [now right | assumption].
  - intros H. destruct (IH H) as (q & Hq & Hr). exists q. split; [now right | assumption].
Qed.

(** X11. [extract_main_text], once the boilerplate is cut: when none
    of the four Book I headings occurs in the first quarter of the text
    the text is returned as it is; otherwise the result starts with one
    of the headings, what precedes it being dropped. *)
Theorem extract_main_text_start (src : source) (full_text : str) :
  let region := strip_boilerplate src full_text in
  let found := find_book_one book_one_patterns region in
  (found = -1 -> extract_main_text src full_text = region)
  /\ (found <> -1 ->
      exists pattern,
        In pattern book_one_patterns
        /\ starts_with pattern (extract_main_text src full_text) = true).
Proof.
  intros region found. unfold extract_main_text, strip_preliminaries.
  fold region. fold found. cbv zeta. split.
  - intros ->. cbn [Z.ltb Z.compare]. unfold region, strip_boilerplate. cbv zeta.
    apply strip_idempotent.
  - intros Hf. destruct (find_book_one_found _ _ Hf) as (p & Hp & H0 & Hs).
    fold found in H0, Hs. exists p. split; [assumption|].
    assert (Hcut : (if 0 <? found then slice_from found region else region)
                   = skipn (Z.to_nat found) region).
    { destruct (0 <? found) eqn:E; [reflexivity|].
      apply Z.ltb_ge in E. now replace found with 0 by lia. }
    rewrite Hcut. apply starts_with_split in Hs. rewrite Hs.
    assert (Hkeep : exists rest', strip (p ++ skipn (length p) (skipn (Z.to_nat found) region))
                                  = p ++ rest').
    { cbn [book_one_patterns In] in Hp.
      destruct Hp as [<- | [<- | [<- | [<- | []]]]].
      - apply (strip_keeps_prefix _ _ "B" "I" (py "OOK I"));
          [reflexivity | reflexivity | now exists (py "BOOK ") | reflexivity].
      - apply (strip_keeps_prefix _ _ "F" "K" (py "IRST BOOK"));
          [reflexivity | reflexivity | now exists (py "FIRST BOO") | reflexivity].
      - apply (strip_keeps_prefix _ _ "B" "I" (py "ook I"));
          [reflexivity | reflexivity | now exists (py "Book ") | reflexivity].
      - apply (strip_keeps_prefix _ _ "B" "1" (py "ook 1"));
          [reflexivity | reflexivity | now exists (py "Book ") | reflexivity]. }
    destruct Hkeep as (rest' & ->).
    clear. induction p as [|c p IH]; [reflexivity|].
    cbn [app starts_with]. now rewrite Ascii.eqb_refl.
Qed.

Lemma extract_main_text_start_witness :
  exists pattern,
    In pattern book_one_patterns
    /\ starts_with pattern
         (extract_main_text (Source (py "*** START") (py "*** END"))
            (py "Preface. BOOK I The state of Greece from the earliest times to the war"))
       = true.
Proof.
  apply (extract_main_text_start (Source (py "*** START") (py "*** END"))
           (py "Preface. BOOK I The state of Greece from the earliest times to the war")).
  vm_compute. discriminate.
Defined.

(** ** The boilerplate *)





(** ** Truncation *)

Lemma rfind_from_absent (c : ascii) (s : str) :
  forall i best, ~ In c s -> rfind_from c i best s = best.
Proof.
  induction s as [|d s IH]; intros i best Hn; [reflexivity|].
  cbn [rfind_from]. destruct (Ascii.eqb c d) eqn:E.
  - apply Ascii.eqb_eq in E. subst d. exfalso. apply Hn. now left.
  - apply IH. intros H. apply Hn. now right.
Qed.

Lemma rfind_from_last (c : ascii) (u v : str) :
  forall i best, ~ In c v ->
  rfind_from c i best (u ++ c :: v) = i + len u.
Proof.
  induction u as [|d u IH]; intros i best Hn.
  - cbn [app rfind_from]. rewrite Ascii.eqb_refl.
    rewrite rfind_from_absent by assumption. unfold len. simpl. lia.
  - cbn [app rfind_from]. rewrite IH by assumption. unfold len. simpl length. lia.
Qed.

Lemma last_occurrence (c : ascii) (s : str) :
  ~ In c s \/ exists u v, s = u ++ c :: v /\ ~ In c v.
Proof.
  induction s as [|d s [IH | (u & v & -> & Hv)]].
  - left. intros [].
  - destruct (Ascii.eqb c d) eqn:E.
    + apply Ascii.eqb_eq in E. subst d. right. now exists [], s.
    + left. intros [H | H]; [|contradiction]. subst d.
      now rewrite Ascii.eqb_refl in E.
  - right. now exists (d :: u), v.
Qed.

Lemma slice_to_nonneg (b : Z) (s : str) :
  0 <= b -> slice_to b s = firstn (Z.to_nat b) s.
Proof. intros H. unfold slice_to. now replace (b <? 0) with false by lia. Qed.

Lemma slice_to_prefix (b : Z) (s : str) : exists rest, s = slice_to b s ++ rest.
Proof. unfold slice_to. eexists. symmetry. apply firstn_skipn. Qed.

(** X13. [truncate_text] returns a text that fits as it is; a longer
    text comes out within [max_length] exactly when the suffix alone is
    not longer than [max_length]. *)
Theorem truncate_text_fits (text : str) (max_length : Z) (suffix : str) :
  (len text <= max_length -> truncate_text text max_length suffix = text)
  /\ (max_length < len text ->
      (len (truncate_text text max_length suffix) <= max_length
       <-> len suffix <= max_length)).
Proof.
  unfold truncate_text. split; intros H.
  - now replace (len text <=? max_length) with true by lia.
  - replace (len text <=? max_length) with false by lia. cbv zeta.
    set (window := slice_to (max_length - len suffix) text).
    set (kept := if 0 <? rfind " " window
                 then slice_to (rfind " " window) window else window).
    unfold len at 1. rewrite length_app, Nat2Z.inj_add. fold (len kept) (len suffix).
    assert (0 <= len kept) by (unfold len; lia).
    split; intros Hs; [clearbody kept; lia|].
    assert (Hw : len window <= max_length - len suffix).
    { unfold window. rewrite slice_to_nonneg by lia.
      unfold len in *. rewrite length_firstn. lia. }
    assert (Hk : len kept <= len window).
    { unfold kept. destruct (0 <? rfind " " window); [|lia].
      unfold slice_to, len. rewrite length_firstn. lia. }
    clearbody kept window. lia.
Qed.

Lemma truncate_text_fits_witness :
  truncate_text (py "to be") 5 (py "...") = py "to be"
  /\ (len (truncate_text (py "to be or not") 9 (py "...")) <= 9
      <-> len (py "...") <= 9).
Proof.
  destruct (truncate_text_fits (py "to be") 5 (py "...")) as [H1 _].
  destruct (truncate_text_fits (py "to be or not") 9 (py "...")) as [_ H2].
  split; [apply H1 | apply H2]; vm_compute; congruence.
Defined.

(** X14. When [truncate_text] cuts, the result is a prefix of the text
    followed by the suffix; the prefix is the whole window of
    [max_length - len(suffix)] characters when that has no space after
    its first character, and otherwise it stops just before the last
    space of the window, so that no word is cut. *)
Theorem truncate_text_cut (text : str) (max_length : Z) (suffix : str) :
  len suffix <= max_length < len text ->
  exists kept dropped,
    text = kept ++ dropped
    /\ truncate_text text max_length suffix = kept ++ suffix
    /\ let window := firstn (Z.to_nat (max_length - len suffix)) text in
       (kept = window /\ ~ In " "%char (tl window))
       \/ (kept <> [] /\ exists word,
             window = kept ++ " "%char :: word /\ ~ In " "%char word).
Proof.
  intros [Hs Hl]. unfold truncate_text.
  replace (len text <=? max_length) with false by lia. cbv zeta.
  rewrite slice_to_nonneg by lia.
  set (window := firstn (Z.to_nat (max_length - len suffix)) text).
  assert (Hw : text = window ++ skipn (Z.to_nat (max_length - len suffix)) text)
    by (symmetry; apply firstn_skipn).
  destruct (last_occurrence " " window) as [Hn | (u & v & Hu & Hv)].
  - unfold rfind. rewrite rfind_from_absent by assumption.
    exists window, (skipn (Z.to_nat (max_length - len suffix)) text).
    split; [assumption|]. split; [reflexivity|].
    left. split; [reflexivity|]. intros H. apply Hn.
    destruct window; [assumption | now right].
  - unfold rfind. rewrite Hu, rfind_from_last by assumption.
    rewrite <- Hu. change (0 + len u) with (len u).
    destruct u as [|d u].
    + exists window, (skipn (Z.to_nat (max_length - len suffix)) text).
      split; [assumption|]. split; [reflexivity|].
      left. split; [reflexivity|]. now rewrite Hu.
    + replace (0 <? len (d :: u)) with true by (symmetry; apply Z.ltb_lt; unfold len; simpl length; lia).
      rewrite slice_to_nonneg by (unfold len; lia).
      unfold len. rewrite Nat2Z.id.
      assert (Hk : firstn (length (d :: u)) window = d :: u).
      { rewrite Hu. now rewrite firstn_app, Nat.sub_diag, firstn_all, firstn_O, app_nil_r. }
      rewrite Hk.
      exists (d :: u), (" "%char :: v ++ skipn (Z.to_nat (max_length - len suffix)) text).
      split.
      { rewrite Hw at 1. rewrite Hu. now rewrite <- app_assoc. }
      split; [reflexivity|]. right. split; [discriminate|].
      exists v. split; [assumption | assumption].
Qed.

Lemma truncate_text_cut_witness :
  exists kept dropped,
    py "to be or not to be" = kept ++ dropped
    /\ truncate_text (py "to be or not to be") 12 (py "...") = kept ++ py "..."
    /\ let window := firstn (Z.to_nat (12 - len (py "..."))) (py "to be or not to be") in
       (kept = window /\ ~ In " "%char (tl window))
       \/ (kept <> [] /\ exists word,
             window = kept ++ " "%char :: word /\ ~ In " "%char word).
Proof. apply (truncate_text_cut (py "to be or not to be") 12 (py "...")). vm_compute. split; congruence. Defined.

(** ** Recording a post *)

Lemma dict_lookup_set (key : str) (v : pyval) (items : list (str * pyval)) :
  dict_lookup key (dict_set key v items) = Some v.
Proof.
  induction items as [|[k x] rest IH].
  - cbn [dict_set dict_lookup]. unfold str_eqb.
    now rewrite bool_decide_eq_true_2.
  - cbn [dict_set]. destruct (dict_lookup key rest) eqn:E.
    + cbn [dict_lookup]. now rewrite IH.
    + destruct (str_eqb k key) eqn:Ek.
      * cbn [dict_lookup]. now rewrite E, Ek.
      * cbn [dict_lookup]. now rewrite IH.
Qed.

Lemma next_of_log (f : log_file) (indices : list Z) :
  log_holds f indices ->
  get_next_chunk_to_publish f
  = match indices with
    | [] => 0
    | first :: rest => fold_left Z.max rest first + 1
    end.
Proof.
  destruct f as [| |log]; cbn [log_holds].
  - now intros ->.
  - intros [].
  - intros (items & entries & -> & Hpub & Hent).
    unfold get_next_chunk_to_publish, next_chunk_body, py_get.
    rewrite Hpub. cbn -[mapM py_max_from py].
    rewrite (mapM_published _ _ Hent).
    destruct indices as [|first rest]; [reflexivity|].
    cbn -[py_max_from]. now rewrite py_max_from_ints.
Qed.

Lemma published_entry_as (i : Z) (post_id now : str) :
  published_as (published_entry i post_id now) i.
Proof. eexists. split; reflexivity. Qed.

Lemma mark_as_published_holds (f : log_file) (indices : list Z)
    (i : Z) (post_id now : str) :
  log_holds f indices ->
  exists f', mark_as_published f i post_id now = inr f'
             /\ log_holds f' (indices ++ [i]).
Proof.
  destruct f as [| |log]; cbn [log_holds].
  - intros ->. eexists. split; [reflexivity|].
    eexists _, _. split; [reflexivity|]. split; [reflexivity|].
    repeat constructor. apply published_entry_as.
  - intros [].
  - intros (items & entries & -> & Hpub & Hent).
    unfold mark_as_published. cbn [mbind result_bind mret result_ret py_getitem].
    rewrite Hpub. cbn [mbind result_bind mret result_ret].
    eexists. split; [reflexivity|].
    eexists _, _. split; [reflexivity|].
    split; [apply dict_lookup_set|].
    apply Forall2_app; [assumption|].
    repeat constructor. apply published_entry_as.
Qed.

Lemma fold_max_last (rest : list Z) (first i : Z) :
  fold_left Z.max (rest ++ [i]) first = Z.max (fold_left Z.max rest first) i.
Proof. now rewrite fold_left_app. Qed.

(** X15. On a log that is absent or holds well-formed entries,
    [mark_as_published] appends one entry for the index, and afterwards
    [get_next_chunk_to_publish] gives that index plus one on a log that
    was empty, and the larger of its previous answer and that index plus
    one otherwise. *)
Theorem mark_as_published_next (f : log_file) (indices : list Z)
    (i : Z) (post_id now : str) :
  log_holds f indices ->
  exists f',
    mark_as_published f i post_id now = inr f'
    /\ log_holds f' (indices ++ [i])
    /\ get_next_chunk_to_publish f'
       = match indices with
         | [] => i + 1
         | _ => Z.max (get_next_chunk_to_publish f) (i + 1)
         end.
Proof.
  intros H. destruct (mark_as_published_holds f indices i post_id now H)
    as (f' & Hm & Hh).
  exists f'. split; [assumption|]. split; [assumption|].
  rewrite (next_of_log _ _ Hh), (next_of_log _ _ H).
  destruct indices as [|first rest]; [reflexivity|].
  cbn [app]. rewrite fold_max_last. lia.
Qed.

Lemma mark_as_published_next_witness :
  exists f',
    mark_as_published sample_log 4 (py "77") (py "2025-01-01T06:00:00") = inr f'
    /\ log_holds f' ([3; 7; 5] ++ [4])
    /\ get_next_chunk_to_publish f'
       = Z.max (get_next_chunk_to_publish sample_log) (4 + 1).
Proof.
  apply (mark_as_published_next sample_log [3; 7; 5] 4).
  eexists _, _. split; [reflexivity|]. split; [reflexivity|].
  repeat constructor; eexists; (split; [reflexivity|]); reflexivity.
Defined.

(** ** Publishing in order *)

Lemma chunk_paragraphs_index (cfg : config) (ps : list str) (k : nat) (c : chunk) :
  nth_error (chunk_paragraphs cfg ps) k = Some c -> chunk_index c = Z.of_nat k.
Proof.
  unfold chunk_paragraphs.
  destruct (loop_cover cfg ps initial_state) as (new & groups & Hout & _ & _ & Hidx).
  simpl in Hout, Hidx. rewrite Hout. intros H.
  assert (Hk : nth_error (map chunk_index new) k = Some (chunk_index c))
    by (rewrite nth_error_map, H; reflexivity).
  rewrite Hidx, nth_error_map in Hk.
  destruct (nth_error (seq 0 (length new)) k) as [j|] eqn:Ej; [|discriminate].
  assert (Hlt : (k < length (seq 0 (length new)))%nat)
    by (apply nth_error_Some; congruence).
  rewrite length_seq in Hlt.
  rewrite (nth_error_nth' _ 0%nat) in Ej by (rewrite length_seq; assumption).
  rewrite seq_nth in Ej by assumption. simpl in Ej, Hk. congruence.
Qed.

Lemma fold_max_seq (k : nat) :
  fold_left Z.max (map Z.of_nat (seq 1 k)) 0 = Z.of_nat k.
Proof.
  induction k as [|k IH]; [reflexivity|].
  rewrite seq_S, map_app, fold_left_app, IH. simpl. lia.
Qed.

Lemma next_of_days (f : log_file) (k : nat) :
  log_holds f (map Z.of_nat (seq 0 k)) ->
  get_next_chunk_to_publish f = Z.of_nat k.
Proof.
  intros H. rewrite (next_of_log _ _ H).
  destruct k as [|k]; [reflexivity|].
  cbn [seq map]. change (Z.of_nat 0) with 0. rewrite fold_max_seq. lia.
Qed.

Lemma py_index_nat {A : Type} (l : list A) (k : nat) :
  py_index l (Z.of_nat k) = nth_error l k.
Proof.
  unfold py_index. replace (0 <=? Z.of_nat k) with true by (symmetry; apply Z.leb_le; lia).
  now rewrite Nat2Z.id.
Qed.

(** X16. Daily publishing goes through the passages in order: when
    the chunks are those of [create_chunks] and the log holds the indices
    0 to k-1, [publish_next] posts passage k, if it is enriched and the
    request succeeds, and leaves a log that holds 0 to k, on which the
    next index is k + 1. *)
Theorem publish_next_in_order (cfg : config) (text : str)
    (stored : list stored_chunk) (post : stored_chunk -> option str)
    (now : str) (f : log_file) (k : nat) (c : stored_chunk) (post_id : str) :
  map parsed stored = create_chunks cfg text ->
  log_holds f (map Z.of_nat (seq 0 k)) ->
  nth_error stored k = Some c ->
  is_Some (enriched c) ->
  post c = Some post_id ->
  exists f',
    publish_next post now f stored = Published post_id f'
    /\ log_holds f' (map Z.of_nat (seq 0 (S k)))
    /\ get_next_chunk_to_publish f' = Z.of_nat k + 1.
Proof.
  intros Hst Hlog Hk [e He] Hpost.
  assert (Hlen : (k < length stored)%nat) by (apply nth_error_Some; congruence).
  assert (Hidx : chunk_index (parsed c) = Z.of_nat k).
  { apply (chunk_paragraphs_index cfg (split_into_paragraphs text)).
    fold (create_chunks cfg text). rewrite <- Hst, nth_error_map, Hk. reflexivity. }
  destruct (mark_as_published_holds f _ (Z.of_nat k) post_id now Hlog)
    as (f' & Hm & Hh).
  assert (Hs : map Z.of_nat (seq 0 k) ++ [Z.of_nat k] = map Z.of_nat (seq 0 (S k))) by (now rewrite seq_S, map_app). rewrite Hs in Hh.
  exists f'. unfold publish_next. rewrite (next_of_days _ _ Hlog).
  replace (Z.of_nat (length stored) <=? Z.of_nat k) with false by (symmetry; apply Z.leb_gt; lia).
  rewrite py_index_nat, Hk, He, Hpost, Hidx, Hm.
  split; [reflexivity|]. split; [assumption|].
  rewrite (next_of_days _ _ Hh). lia.
Qed.

Lemma publish_next_in_order_witness :
  let stored := map (fun c => Stored c (Some JNull) None)
                    (create_chunks small_config three_paragraphs) in
  exists f',
    publish_next (fun _ => Some (py "101")) (py "2025-01-01") LogAbsent stored
    = Published (py "101") f'
    /\ log_holds f' (map Z.of_nat (seq 0 1))
    /\ get_next_chunk_to_publish f' = Z.of_nat 0 + 1.
Proof.
  intros stored.
  eapply (publish_next_in_order small_config three_paragraphs stored
            (fun _ => Some (py "101")) (py "2025-01-01") LogAbsent 0).
  - unfold stored. rewrite map_map. apply map_id.
  - reflexivity.
  - vm_compute. reflexivity.
  - simpl. eexists. reflexivity.
  - reflexivity.
Defined.



(** ** Retries *)


Lemma retry_from_outcomes (respond : nat -> option str) (n : nat) :
  forall remaining attempt : nat,
  (attempt + remaining = n)%nat ->
  match retry_from respond n attempt remaining with
  | Enriched k j =>
      (attempt <= k < n)%nat
      /\ (forall i, (attempt <= i < k)%nat -> unparseable respond i)
      /\ exists t, respond k = Some t /\ parse_response t = Some j
  | JsonParseError k =>
      (attempt <= k)%nat /\ S k = n
      /\ forall i, (attempt <= i <= k)%nat -> unparseable respond i
  | OtherError k =>
      (attempt <= k < n)%nat
      /\ (forall i, (attempt <= i < k)%nat -> unparseable respond i)
      /\ respond k = None
  | MaxRetriesExceeded => remaining = 0%nat
  end.
Proof.
  induction remaining as [|remaining IH]; intros attempt Hn; [reflexivity|].
  cbn [retry_from].
  destruct (respond attempt) as [t|] eqn:Er.
  2:{ split; [lia|]. split; [intros; lia | assumption]. }
  destruct (parse_response t) as [j|] eqn:Ep.
  { split; [lia|]. split; [intros; lia|]. now exists t. }
  assert (Hu : unparseable respond attempt) by now exists t.
  destruct (attempt <? n - 1)%nat eqn:El.
  - apply Nat.ltb_lt in El.
    specialize (IH (S attempt) ltac:(lia)).
    assert (Hi : forall k (P : nat -> Prop),
               (forall i, (S attempt <= i < k)%nat -> P i) -> P attempt ->
               forall i, (attempt <= i < k)%nat -> P i).
    { intros k P H H0 i Hi.
      destruct (Nat.eq_dec i attempt) as [-> | Hne]; [assumption | apply H; lia]. }
    destruct (retry_from respond n (S attempt) remaining) as [k j|k|k|].
    + destruct IH as (Hk & Hall & Hj). split; [lia|]. split; [|assumption].
      now apply Hi.
    + destruct IH as (Hk & Hkn & Hall). split; [lia|]. split; [assumption|].
      intros i Hi'. destruct (Nat.eq_dec i attempt) as [-> | Hne];
        [assumption | apply Hall; lia].
    + destruct IH as (Hk & Hall & Hj). split; [lia|]. split; [|assumption].
      now apply Hi.
    + lia.
  - apply Nat.ltb_ge in El. split; [lia|]. split; [lia|].
    intros i Hi. now replace i with attempt by lia.
Qed.

(** X18. The outcomes of [enrich_chunk_with_retry]. It succeeds at the
    first attempt whose response [parse_response] can read, all earlier
    responses being unreadable; an error other than a parse error stops
    it at once; it reports a parse error only after [max_retries]
    unreadable responses; and [Max retries exceeded] is returned only
    when [max_retries] is 0. *)
Theorem retry_outcomes (respond : nat -> option str) (max_retries : nat) :
  match enrich_chunk_with_retry respond max_retries with
  | Enriched k j =>
      (k < max_retries)%nat
      /\ (forall i, (i < k)%nat -> unparseable respond i)
      /\ exists t, respond k = Some t /\ parse_response t = Some j
  | JsonParseError k =>
      S k = max_retries
      /\ forall i, (i < max_retries)%nat -> unparseable respond i
  | OtherError k =>
      (k < max_retries)%nat
      /\ (forall i, (i < k)%nat -> unparseable respond i)
      /\ respond k = None
  | MaxRetriesExceeded => max_retries = 0%nat
  end.
Proof.
  unfold enrich_chunk_with_retry.
  pose proof (retry_from_outcomes respond max_retries max_retries 0%nat eq_refl) as H.
  destruct (retry_from respond max_retries 0 max_retries) as [k j|k|k|].
  - destruct H as (Hk & Hall & Hj). split; [lia|]. split; [|assumption].
    intros i Hi. apply Hall. lia.
  - destruct H as (Hk & Hkn & Hall). split; [assumption|].
    intros i Hi. apply Hall. lia.
  - destruct H as (Hk & Hall & Hj). split; [lia|]. split; [|assumption].
    intros i Hi. apply Hall. lia.
  - assumption.
Qed.

Lemma retry_outcomes_witness :
  match enrich_chunk_with_retry
          (fun i => if (i =? 0)%nat then Some (py "sorry") else Some (py "{}")) 2 with
  | Enriched k j =>
      (k < 2)%nat
      /\ (forall i, (i < k)%nat ->
           unparseable (fun i => if (i =? 0)%nat then Some (py "sorry") else Some (py "{}")) i)
      /\ exists t, (if (k =? 0)%nat then Some (py "sorry") else Some (py "{}")) = Some t
                   /\ parse_response t = Some j
  | JsonParseError k =>
      S k = 2%nat
      /\ forall i, (i < 2)%nat ->
           unparseable (fun i => if (i =? 0)%nat then Some (py "sorry") else Some (py "{}")) i
  | OtherError k =>
      (k < 2)%nat
      /\ (forall i, (i < k)%nat ->
           unparseable (fun i => if (i =? 0)%nat then Some (py "sorry") else Some (py "{}")) i)
      /\ (if (k =? 0)%nat then Some (py "sorry") else Some (py "{}")) = None
  | MaxRetriesExceeded => 2%nat = 0%nat
  end.
Proof.
  exact (retry_outcomes
           (fun i => if (i =? 0)%nat then Some (py "sorry") else Some (py "{}")) 2).
Defined.

(** ** Runs and line ends *)

Section Runs.

Context {A : Type}.

Lemma star_greedy_class_step (p : ascii -> bool) (k : mstate -> option A)
    (fuel pos : nat) (c : ascii) (s : str) (caps : list (nat * str)) :
  p c = true ->
  star_greedy (rmatch (Cls p)) k (S fuel) (MState pos (c :: s) caps)
  = match star_greedy (rmatch (Cls p)) k fuel (MState (S pos) s caps) with
    | Some x => Some x
    | None => k (MState pos (c :: s) caps)
    end.
Proof.
  intros Hc. cbn [star_greedy rmatch m_rest]. rewrite Hc.
  cbn [advance m_pos m_caps].
  replace (pos <? S pos)%nat with true by (symmetry; apply Nat.ltb_lt; lia).
  reflexivity.
Qed.

Lemma star_greedy_class_stop (p : ascii -> bool) (k : mstate -> option A)
    (fuel pos : nat) (rest : str) (caps : list (nat * str)) :
  match rest with [] => True | c :: _ => p c = false end ->
  star_greedy (rmatch (Cls p)) k fuel (MState pos rest caps)
  = k (MState pos rest caps).
Proof.
  intros Hrest. destruct fuel as [|fuel]; [reflexivity|].
  cbn [star_greedy rmatch m_rest].
  destruct rest as [|c rest]; [now destruct (k _)|].
  rewrite Hrest. now destruct (k _).
Qed.

(** A greedy repetition of a class reads a whole run of the class when
    the continuation accepts the state after the run. *)
Lemma star_greedy_run (p : ascii -> bool) (k : mstate -> option A)
    (rest : str) (caps : list (nat * str)) (x : A) :
  forall (w : str) (pos fuel : nat),
    Forall (fun c => p c = true) w ->
    match rest with [] => True | c :: _ => p c = false end ->
    (length w <= fuel)%nat ->
    k (MState (pos + length w) rest caps) = Some x ->
    star_greedy (rmatch (Cls p)) k fuel (MState pos (w ++ rest) caps) = Some x.
Proof.
  induction w as [|c w IH]; intros pos fuel Hw Hrest Hf Hk.
  - cbn [length app] in *. rewrite Nat.add_0_r in Hk.
    now rewrite star_greedy_class_stop.
  - destruct fuel as [|fuel]; [cbn [length] in Hf; lia|].
    apply Forall_cons in Hw. destruct Hw as [Hc Hw].
    cbn [app]. rewrite star_greedy_class_step by assumption.
    rewrite (IH (S pos) fuel Hw Hrest); [reflexivity | cbn [length] in Hf; lia|].
    cbn [length] in Hk.
    now replace (S pos + length w)%nat with (pos + S (length w))%nat by lia.
Qed.

(** A pattern that ends at the end of the text fails where the text
    ahead holds a character that the pattern cannot read. *)
Lemma rmatch_eol_blocked (P : ascii -> Prop) (r : regex) (c : ascii)
    (k : mstate -> option A) (st : mstate) :
  classes_within P r -> ~ P c -> c <> newline ->
  In c (m_rest st) ->
  rmatch (Seq r Eol) k st = None.
Proof.
  intros Hr Hc Hn Hin.
  change (rmatch (Seq r Eol) k st) with (rmatch r (rmatch Eol k) st).
  destruct (rmatch r (rmatch Eol k) st) as [x|] eqn:E; [|reflexivity].
  exfalso. apply (rmatch_within P r Hr) in E.
  destruct E as (st' & (w & Hw & _ & HP) & E).
  cbn [rmatch] in E.
  destruct (at_eol (m_rest st')) eqn:Ee; [|discriminate].
  rewrite Hw in Hin. apply in_app_or in Hin. destruct Hin as [Hin | Hin].
  - rewrite List.Forall_forall in HP. now apply Hc, HP.
  - destruct (m_rest st') as [|d [|e s]]; [destruct Hin | | discriminate].
    cbn [at_eol] in Ee. apply Ascii.eqb_eq in Ee. subst d.
    destruct Hin as [<- | []]. now apply Hn.
Qed.

End Runs.

(** ** The braces of a response *)

Lemma not_brace_open (w : str) :
  ~ In "{"%char w ->
  Forall (fun c => negb (existsb (Ascii.eqb c) (py "{")) = true) w.
Proof.
  intros H. apply List.Forall_forall. intros c Hc.
  cbn [py list_ascii_of_string existsb]. rewrite orb_false_r.
  destruct (Ascii.eqb c "{") eqn:E; [|reflexivity].
  apply Ascii.eqb_eq in E. subst c. contradiction.
Qed.

Lemma not_brace_close (w : str) :
  ~ In "}"%char w ->
  Forall (fun c => negb (existsb (Ascii.eqb c) (py "}")) = true) w.
Proof.
  intros H. apply List.Forall_forall. intros c Hc.
  cbn [py list_ascii_of_string existsb]. rewrite orb_false_r.
  destruct (Ascii.eqb c "}") eqn:E; [|reflexivity].
  apply Ascii.eqb_eq in E. subst c. contradiction.
Qed.

Lemma search_anchored_none (r : regex) (ma : bool) (start : nat) (s : str)
    (skipped : str) (pos : nat) :
  match_at (Seq Bol r) ma start pos s = None ->
  search_from (Seq Bol r) ma start skipped pos s = None.
Proof.
  intros H. destruct s as [|c s]; cbn [search_from]; rewrite H; [reflexivity|].
  apply search_anchored_later.
Qed.

Lemma before_brace_sub (pre u : str) :
  ~ In "{"%char pre ->
  u = [] \/ (exists v, u = "{"%char :: v) ->
  re_sub before_brace_re [] (pre ++ u) = u.
Proof.
  intros Hpre Hu. unfold re_sub, scan_all.
  replace (2 * length (pre ++ u) + 2)%nat with (S (S (2 * length (pre ++ u)))) by lia.
  assert (Hstop : forall pos caps (k : mstate -> option rmatch_result) fuel,
            star_greedy (rmatch (NoneOf (py "{"))) k fuel (MState pos u caps)
            = k (MState pos u caps)).
  { intros pos caps k fuel. destruct fuel as [|fuel]; [reflexivity|].
    cbn [star_greedy]. unfold NoneOf at 1. cbn [rmatch m_rest].
    destruct Hu as [-> | (v & ->)]; [now destruct (k _)|].
    cbn [py list_ascii_of_string existsb]. rewrite Ascii.eqb_refl. cbn [orb negb].
    now destruct (k _). }
  assert (Hfirst : match_at before_brace_re false 0 0 (pre ++ u)
                   = Some (Match 0 (length pre) [] u)).
  { unfold match_at, before_brace_re. cbn [rmatch m_pos Nat.eqb m_rest].
    unfold NoneOf. apply star_greedy_run.
    - now apply not_brace_open.
    - destruct Hu as [-> | (v & ->)]; [exact I | reflexivity].
    - rewrite length_app. lia.
    - reflexivity. }
  cbn [scan].
  assert (Hs : search_from before_brace_re false 0 [] 0 (pre ++ u)
               = Some ([], Match 0 (length pre) [] u)).
  { destruct (pre ++ u); cbn [search_from]; now rewrite Hfirst. }
  rewrite Hs. cbn [mt_end mt_start mt_after].
  assert (Hnext : search_from before_brace_re (length pre =? 0)%nat (length pre) []
                    (length pre) u = None).
  { apply search_anchored_none. unfold match_at, before_brace_re.
    cbn [rmatch m_pos].
    destruct (length pre) as [|n] eqn:El; [|reflexivity].
    cbn [Nat.eqb m_rest]. rewrite Hstop. reflexivity. }
  rewrite Hnext. cbn [flat_map fst snd expand app]. reflexivity.
Qed.

Lemma after_brace_blocked (k : mstate -> option rmatch_result) (st : mstate) :
  In "}"%char (m_rest st) -> rmatch after_brace_re k st = None.
Proof.
  intros H. unfold after_brace_re.
  apply (rmatch_eol_blocked (fun c => c <> "}"%char) _ "}"%char);
    [| tauto | discriminate | assumption].
  cbn. intros c Hc ->. discriminate.
Qed.

Lemma after_brace_search (u post : str) (ma : bool) (start : nat) :
  u = [] \/ ends_with "}" u ->
  forall (v : str) (skipped : str) (pos : nat) (m : rmatch_result),
    (exists x, u = x ++ v) ->
    match_at after_brace_re ma start (pos + length v) post = Some m ->
    ~ In "}"%char post ->
    search_from after_brace_re ma start skipped pos (v ++ post)
    = Some (reverse skipped ++ v, m).
Proof.
  intros Hu. induction v as [|c v IH]; intros skipped pos m Hv Hm Hpost.
  - cbn [app length] in *. rewrite Nat.add_0_r in Hm. rewrite app_nil_r.
    destruct post; cbn [search_from]; now rewrite Hm.
  - cbn [app search_from]. unfold match_at at 1.
    rewrite after_brace_blocked.
    + rewrite (IH (c :: skipped) (S pos) m).
      * now rewrite reverse_cons, <- app_assoc.
      * destruct Hv as (x & ->). exists (x ++ [c]). now rewrite <- app_assoc.
      * cbn [length] in Hm. now replace (S pos + length v)%nat with (pos + S (length v))%nat by lia.
      * assumption.
    + cbn [m_rest]. destruct Hv as (x & Hx).
      destruct Hu as [-> | (y & Hy)]; [now destruct x|].
      rewrite Hy in Hx.
      assert (Hl : exists z, c :: v = z ++ ["}"%char]).
      { destruct (@exists_last _ (c :: v) ltac:(discriminate)) as (z & d & Hz).
        rewrite Hz in Hx. rewrite app_assoc in Hx.
        apply app_inj_tail in Hx. destruct Hx as [_ <-]. now exists z. }
      destruct Hl as (z & Hz).
      change (c :: v ++ post) with ((c :: v) ++ post). rewrite Hz.
      apply in_or_app. left. apply in_or_app. right. now left.
Qed.

Lemma after_brace_match (post : str) (start pos : nat) :
  ~ In "}"%char post ->
  match_at after_brace_re false start pos post
  = Some (Match pos (pos + length post) [] []).
Proof.
  intros Hpost. unfold match_at, after_brace_re. cbn [rmatch m_rest].
  unfold NoneOf. rewrite <- (app_nil_r post) at 2.
  apply star_greedy_run.
  - now apply not_brace_close.
  - exact I.
  - rewrite ?app_nil_r. lia.
  - reflexivity.
Qed.

Lemma after_brace_sub (u post : str) :
  u = [] \/ ends_with "}" u ->
  ~ In "}"%char post ->
  re_sub after_brace_re [] (u ++ post) = u.
Proof.
  intros Hu Hpost. unfold re_sub, scan_all.
  assert (Hs : search_from after_brace_re false 0 [] 0 (u ++ post)
               = Some (u, Match (length u) (length u + length post) [] [])).
  { rewrite (after_brace_search u post false 0%nat Hu u [] 0%nat
               (Match (length u) (length u + length post) [] []));
      [reflexivity | now exists [] | | assumption].
    now rewrite after_brace_match. }
  destruct post as [|c post].
  - rewrite app_nil_r in *. cbn [length] in Hs. rewrite Nat.add_0_r in Hs.
    replace (2 * length u + 2)%nat with (S (S (2 * length u))) by lia.
    cbn [scan]. rewrite Hs. cbn [mt_end mt_start mt_after].
    rewrite Nat.eqb_refl. cbn [scan search_from].
    unfold match_at, after_brace_re. cbn [rmatch m_rest length star_greedy at_eol m_pos].
    rewrite Nat.eqb_refl. cbn [andb flat_map fst snd expand app].
    now rewrite !app_nil_r.
  - replace (2 * length (u ++ c :: post) + 2)%nat
      with (S (S (S (2 * length (u ++ post) + 1))))
      by (rewrite !length_app; cbn [length]; lia).
    cbn [scan]. rewrite Hs. cbn [mt_end mt_start mt_after].
    replace (length u + length (c :: post) =? length u)%nat with false
      by (symmetry; apply Nat.eqb_neq; cbn [length]; lia).
    cbn [scan search_from].
    unfold match_at, after_brace_re. cbn [rmatch m_rest length star_greedy at_eol m_pos m_caps andb].
    cbn [mt_end mt_start mt_after]. rewrite Nat.eqb_refl.
    cbn [scan search_from].
    unfold match_at. cbn [rmatch m_rest length star_greedy at_eol m_pos m_caps].
    rewrite Nat.eqb_refl. cbn [andb flat_map fst snd expand app].
    now rewrite !app_nil_r.
Qed.

(** X19. The two substitutions of the second parse attempt keep
    exactly the text from the first opening brace to the last closing
    brace. *)
Theorem aggressive_clean_braces (pre mid post : str) :
  ~ In "{"%char pre -> ~ In "}"%char post ->
  re_sub after_brace_re []
    (re_sub before_brace_re [] (pre ++ "{"%char :: mid ++ "}"%char :: post))
  = "{"%char :: mid ++ ["}"%char].
Proof.
  intros Hpre Hpost.
  rewrite before_brace_sub; [|assumption | right; eauto].
  change ("{"%char :: mid ++ "}"%char :: post)
    with (("{"%char :: mid) ++ "}"%char :: post).
  change ("}"%char :: post) with (["}"%char] ++ post). rewrite app_assoc.
  apply after_brace_sub; [|assumption].
  right. now exists ("{"%char :: mid).
Qed.

Lemma aggressive_clean_braces_witness :
  re_sub after_brace_re []
    (re_sub before_brace_re []
       (py "Here it is: " ++ "{"%char :: lit "'a': 1" ++ "}"%char :: py " Done."))
  = "{"%char :: lit "'a': 1" ++ ["}"%char].
Proof.
  apply (aggressive_clean_braces (py "Here it is: ") (lit "'a': 1") (py " Done."));
    vm_compute; intuition discriminate.
Defined.

(** ** Substitutions with a single match *)

Lemma re_sub_one (r : regex) (tpl : list repl_item) (s before : str)
    (m : rmatch_result) :
  search_from r false 0 [] 0 s = Some (before, m) ->
  search_from r (mt_end m =? mt_start m)%nat (mt_end m) [] (mt_end m) (mt_after m)
  = None ->
  re_sub r tpl s = before ++ expand tpl m ++ mt_after m.
Proof.
  intros H1 H2. unfold re_sub, scan_all.
  replace (2 * length s + 2)%nat with (S (S (2 * length s))) by lia.
  cbn [scan]. rewrite H1, H2. cbn [flat_map fst snd].
  now rewrite app_nil_r, <- app_assoc.
Qed.

Lemma search_from_skip (r : regex) (ma : bool) (start : nat)
    (B : str -> Prop) (post : str) :
  (forall (k : mstate -> option rmatch_result) st,
      B (m_rest st) -> rmatch r k st = None) ->
  forall (v skipped : str) (pos : nat) (m : rmatch_result),
    (forall x y, v = x ++ y -> y <> [] -> B (y ++ post)) ->
    match_at r ma start (pos + length v) post = Some m ->
    search_from r ma start skipped pos (v ++ post)
    = Some (reverse skipped ++ v, m).
Proof.
  intros HB. induction v as [|c v IH]; intros skipped pos m Hv Hm.
  - cbn [app length] in *. rewrite Nat.add_0_r in Hm. rewrite app_nil_r.
    destruct post; cbn [search_from]; now rewrite Hm.
  - cbn [app search_from]. unfold match_at at 1.
    rewrite HB by (apply (Hv [] (c :: v)); [reflexivity | discriminate]).
    rewrite (IH (c :: skipped) (S pos) m).
    + now rewrite reverse_cons, <- app_assoc.
    + intros x y -> Hy. apply (Hv (c :: x) y); [reflexivity | assumption].
    + cbn [length] in Hm.
      now replace (S pos + length v)%nat with (pos + S (length v))%nat by lia.
Qed.

Lemma search_from_blocked (r : regex) (ma : bool) (start : nat)
    (B : str -> Prop) :
  (forall (k : mstate -> option rmatch_result) st,
      B (m_rest st) -> rmatch r k st = None) ->
  forall (s skipped : str) (pos : nat),
    (forall x y, s = x ++ y -> B y) ->
    search_from r ma start skipped pos s = None.
Proof.
  intros HB. induction s as [|c s IH]; intros skipped pos Hs.
  - cbn [search_from]. unfold match_at.
    now rewrite HB by (apply (Hs [] []); reflexivity).
  - cbn [search_from]. unfold match_at at 1.
    rewrite HB by (apply (Hs [] (c :: s)); reflexivity).
    apply IH. intros x y ->. apply (Hs (c :: x) y). reflexivity.
Qed.

(** A non-empty end of a text that ends with [c] holds [c]. *)
Lemma suffix_holds_last (c : ascii) (b x y : str) :
  b ++ [c] = x ++ y -> y <> [] -> In c y.
Proof.
  intros H Hy.
  destruct (@exists_last _ y Hy) as (z & d & ->).
  rewrite app_assoc in H. apply app_inj_tail in H. destruct H as [_ <-].
  apply in_or_app. right. now left.
Qed.

(** ** The closing fence *)

Lemma fence_close_blocked (k : mstate -> option rmatch_result) (st : mstate) :
  In "}"%char (m_rest st) -> rmatch fence_close_re k st = None.
Proof.
  intros H.
  change (rmatch fence_close_re k st)
    with (rmatch (Seq (Seq (Opt (Chr newline)) (Seq backticks (Star Space))) Eol) k st).
  apply (rmatch_eol_blocked (fun c => c <> "}"%char) _ "}"%char);
    [| tauto | discriminate | assumption].
  cbn. repeat split; try (intros c Hc ->; discriminate); auto.
Qed.

Lemma fence_close_needs_backtick (k : mstate -> option rmatch_result) (st : mstate) :
  ~ In "`"%char (m_rest st) -> rmatch fence_close_re k st = None.
Proof.
  intros H. unfold fence_close_re, Opt, backticks.
  cbn [py list_ascii_of_string Lit fold_right].
  set (K := rmatch (Seq (Seq (Chr "`") (Seq (Chr "`") (Seq (Chr "`") Eps)))
                        (Seq (Star Space) Eol)) k).
  assert (HK : forall st', ~ In "`"%char (m_rest st') -> K st' = None).
  { intros st' Hst'. unfold K, Chr. cbn [rmatch].
    destruct (m_rest st') as [|c s]; [reflexivity|].
    destruct (Ascii.eqb "`" c) eqn:E; [|reflexivity].
    apply Ascii.eqb_eq in E. subst c. exfalso. apply Hst'. now left. }
  change (match rmatch (Chr newline) K st with
          | Some x => Some x
          | None => K st
          end = None).
  rewrite (HK st H).
  unfold Chr at 1. cbn [rmatch]. destruct (m_rest st) as [|c s] eqn:E; [reflexivity|].
  destruct (Ascii.eqb newline c); [|reflexivity].
  rewrite HK; [reflexivity|]. cbn [advance m_rest]. intros Hin. apply H. now right.
Qed.

(** ** A response that starts with its object *)

Lemma find_head (c : ascii) (s : str) : find c (c :: s) = 0.
Proof. unfold find. cbn [find_from]. now rewrite Ascii.eqb_refl. Qed.

Lemma clean_leading_object (b post : str) :
  ~ In "`"%char post ->
  (post = [] \/ exists p c, post = p ++ [c] /\ isspace c = false) ->
  let text := ("{"%char :: b ++ ["}"%char]) ++ post in
  re_search trailing_comma_re text = None ->
  clean_json_response text = text.
Proof.
  intros Htick Hend text Hcomma.
  assert (Hstrip : strip text = text).
  { unfold text. destruct Hend as [-> | (p & c & -> & Hc)].
    - rewrite app_nil_r. now apply strip_fixed.
    - change (("{"%char :: b ++ ["}"%char]) ++ p ++ [c])
        with ("{"%char :: (b ++ ["}"%char]) ++ p ++ [c]).
      rewrite app_assoc. now apply strip_fixed. }
  unfold clean_json_response. rewrite Hstrip.
  rewrite (re_sub_no_match fence_open_re) by apply fence_open_no_match.
  rewrite (re_sub_no_match fence_close_re).
  2:{ unfold text.
      apply (search_from_blocked fence_close_re false 0%nat
               (fun y => In "}"%char y \/ ~ In "`"%char y)).
      - intros k st [H | H];
          [now apply fence_close_blocked | now apply fence_close_needs_backtick].
      - intros x y Hxy.
        change ("{"%char :: b ++ ["}"%char]) with (("{"%char :: b) ++ ["}"%char]) in Hxy.
        symmetry in Hxy. apply app_eq_app in Hxy.
        destruct Hxy as (l & [[Hx Hy] | [Hx Hy]]).
        * right. intros Hin. apply Htick. rewrite Hy. apply in_or_app. now right.
        * destruct l as [|d l].
          -- right. now rewrite Hy.
          -- left. rewrite Hy. apply in_or_app. left.
             apply (suffix_holds_last _ _ _ _ Hx). discriminate. }
  rewrite Hstrip. unfold text at 1 2. cbn [app]. rewrite find_head.
  rewrite andb_false_r.
  apply re_sub_no_match. now apply re_search_none.
Qed.

Lemma scan_once_object_any (n : nat) (s : str) (ms : list (list N * json))
    (rest : str) :
  scan_once n s = Some (JObject ms, rest) ->
  exists b, s = ("{"%char :: b ++ ["}"%char]) ++ rest
            /\ forall m rest', (length b + 2 < m)%nat ->
                 scan_once m (("{"%char :: b ++ ["}"%char]) ++ rest')
                 = Some (JObject ms, rest').
Proof.
  intros H. destruct n as [|n]; [discriminate|].
  destruct s as [|c s1]; [discriminate|].
  cbn [scan_once] in H.
  destruct (Ascii.eqb c dquote) eqn:Eq.
  { destruct (scanstring s1) as [[cs rest0]|]; discriminate. }
  destruct (Ascii.eqb c "{") eqn:Eobj.
  { apply (json_object_local _ (scan_once_local n)) in H
      as (a1 & -> & (b & ->) & Hre).
    apply Ascii.eqb_eq in Eobj. subst c.
    exists b. split; [reflexivity|].
    intros m rest' Hm. destruct m as [|m]; [lia|].
    cbn [app scan_once]. rewrite Eq, Ascii.eqb_refl.
    apply Hre; rewrite length_app; cbn [length]; lia. }
  destruct (Ascii.eqb c "[").
  { unfold json_array in H.
    destruct (skip_ws s1) as [|d s2]; [discriminate|].
    destruct (Ascii.eqb d "]"); [discriminate|].
    destruct (array_items (scan_once n) n (d :: s2)) as [[vs r]|]; discriminate. }
  destruct (starts_with (py "null") (c :: s1)); [discriminate|].
  destruct (starts_with (py "true") (c :: s1)); [discriminate|].
  destruct (starts_with (py "false") (c :: s1)); [discriminate|].
  now apply scan_number_not_object in H.
Qed.

Lemma is_ws_isspace (c : ascii) : is_ws c = true -> isspace c = true.
Proof.
  unfold is_ws. intros H.
  repeat (apply orb_true_iff in H; destruct H as [H | H]);
    apply Ascii.eqb_eq in H; now subst c.
Qed.

Lemma skip_ws_visible (s : str) (c : ascii) :
  In c s -> isspace c = false -> skip_ws s <> [].
Proof.
  induction s as [|d s IH]; [intros []|].
  intros [-> | Hin] Hc; cbn [skip_ws].
  - destruct (is_ws c) eqn:E; [|discriminate].
    apply is_ws_isspace in E. congruence.
  - destruct (is_ws d); [now apply IH | discriminate].
Qed.

Lemma json_loads_extra_data (b post : str) (ms : list (list N * json)) (c : ascii) :
  json_loads ("{"%char :: b ++ ["}"%char]) = Some (JObject ms) ->
  In c post -> isspace c = false ->
  json_loads (("{"%char :: b ++ ["}"%char]) ++ post) = None.
Proof.
  intros Hvalid Hin Hc. unfold json_loads in *.
  rewrite skip_ws_stop in Hvalid by reflexivity.
  cbn [app]. rewrite skip_ws_stop by reflexivity.
  destruct (scan_once _ ("{"%char :: b ++ ["}"%char])) as [[v rest]|] eqn:E;
    [|discriminate].
  destruct (skip_ws rest) eqn:Er; [|discriminate]. injection Hvalid as ->.
  apply scan_once_object_any in E. destruct E as (b' & Hs & Hre).
  assert (Hrest : rest = []).
  { destruct rest as [|r0 rest0]; [reflexivity|]. exfalso.
    destruct (@exists_last _ (r0 :: rest0) ltac:(discriminate)) as (z & d & Hz).
    rewrite Hz in Hs, Er.
    change ("{"%char :: b ++ ["}"%char]) with (("{"%char :: b) ++ ["}"%char]) in Hs.
    rewrite app_assoc in Hs. apply app_inj_tail in Hs. destruct Hs as [_ <-].
    apply skip_ws_all in Er. rewrite forallb_app in Er.
    apply andb_true_iff in Er. destruct Er as [_ Er]. discriminate. }
  subst rest. rewrite app_nil_r in Hs.
  injection Hs as Hs. apply app_inv_tail in Hs. subst b'.
  change ("{"%char :: (b ++ ["}"%char]) ++ post)
    with (("{"%char :: b ++ ["}"%char]) ++ post).
  rewrite Hre.
  - destruct (skip_ws post) eqn:Ep; [|reflexivity].
    exfalso. now apply (skip_ws_visible post c).
  - rewrite length_app. cbn [length]. rewrite length_app. cbn [length]. lia.
Qed.

(** X20. A response made of a text that runs from an opening brace to a
    closing brace and parses to an object, directly followed by prose that
    ends with a character other than whitespace and holds neither a
    closing brace nor a backtick, where no comma of the response, in the
    object or in the prose, inside string values included, is followed,
    after optional whitespace, by a closing brace or bracket, is recovered
    by the second attempt only: the basic clean leaves the response as it
    is, the strict parse rejects it, and the parse after the aggressive
    clean gives the object. *)
Theorem trailing_prose_recovered (b post : str) (ms : list (list N * json))
    (p : str) (c : ascii) :
  let core := "{"%char :: b ++ ["}"%char] in
  json_loads core = Some (JObject ms) ->
  post = p ++ [c] -> isspace c = false ->
  ~ In "}"%char post -> ~ In "`"%char post ->
  re_search trailing_comma_re (core ++ post) = None ->
  clean_json_response (core ++ post) = core ++ post
  /\ json_loads (clean_json_response (core ++ post)) = None
  /\ parse_response (core ++ post) = Some (JObject ms).
Proof.
  intros core Hvalid Hpost Hc Hbrace Htick Hcomma.
  assert (Hclean : clean_json_response (core ++ post) = core ++ post).
  { apply clean_leading_object; [assumption | | assumption].
    right. now exists p, c. }
  assert (Hfail : json_loads (core ++ post) = None).
  { apply (json_loads_extra_data b post ms c); [assumption | | assumption].
    rewrite Hpost. apply in_or_app. right. now left. }
  split; [assumption|]. rewrite Hclean. split; [assumption|].
  unfold parse_response. rewrite Hclean, Hfail.
  assert (Hb : re_sub before_brace_re [] ([] ++ core ++ post) = core ++ post).
  { apply before_brace_sub; [intros [] |].
    right. now exists ((b ++ ["}"%char]) ++ post). }
  change ([] ++ core ++ post) with (core ++ post) in Hb. rewrite Hb.
  rewrite after_brace_sub; [assumption | | assumption].
  right. now exists ("{"%char :: b).
Qed.

Lemma trailing_prose_recovered_witness :
  parse_response (lit "{'a': 1} Hope this helps!")
  = Some (JObject [([97%N], JInt 1)]).
Proof.
  apply (trailing_prose_recovered (lit "'a': 1") (py " Hope this helps!")
           [([97%N], JInt 1)] (py " Hope this helps") "!"%char);
    try (vm_compute; reflexivity).
  - vm_compute. intuition discriminate.
  - vm_compute. intuition discriminate.
Defined.

(** ** A response wrapped in a code fence *)

Lemma match_anchored_later (r : regex) (ma : bool) (start pos : nat) (s : str) :
  pos <> 0%nat -> match_at (Seq Bol r) ma start pos s = None.
Proof. intros H. destruct pos; [congruence | reflexivity]. Qed.

Lemma space_not_letter (c : ascii) : isspace c = true -> Ascii.eqb "j" c = false.
Proof.
  intros H. destruct (Ascii.eqb "j" c) eqn:E; [|reflexivity].
  apply Ascii.eqb_eq in E. subst c. discriminate.
Qed.

Lemma fence_open_match (lang ws rest : str) :
  lang = [] \/ lang = py "json" ->
  Forall (fun c => isspace c = true) ws ->
  match_at fence_open_re false 0 0
           (py "```" ++ lang ++ ws ++ "{"%char :: rest)
  = Some (Match 0 (3 + length lang + length ws) [] ("{"%char :: rest)).
Proof.
  intros Hlang Hws.
  assert (Hrun : forall pos,
            rmatch (Seq (Star Space) (Opt (Chr newline)))
              (fun st => Some (Match 0 (m_pos st) (m_caps st) (m_rest st)))
              (MState pos (ws ++ "{"%char :: rest) [])
            = Some (Match 0 (pos + length ws) [] ("{"%char :: rest))).
  { intros pos. cbn [rmatch m_rest]. unfold Space.
    apply star_greedy_run.
    - assumption.
    - reflexivity.
    - rewrite length_app. lia.
    - reflexivity. }
  unfold match_at, fence_open_re, backticks.
  cbn [py list_ascii_of_string Lit fold_right app].
  unfold Chr at 1 2 3. cbn [rmatch m_pos Nat.eqb m_rest advance m_caps andb].
  rewrite !Ascii.eqb_refl.
  change (rmatch (Opt (Lit (py "json")))
            (rmatch (Seq (Star Space) (Opt (Chr newline)))
               (fun st => Some (Match 0 (m_pos st) (m_caps st) (m_rest st))))
            (MState 3 (lang ++ ws ++ "{"%char :: rest) [])
          = Some (Match 0 (3 + length lang + length ws) [] ("{"%char :: rest))).
  set (K := rmatch (Seq (Star Space) (Opt (Chr newline)))
              (fun st => Some (Match 0 (m_pos st) (m_caps st) (m_rest st)))) in *.
  set (st3 := MState 3 (lang ++ ws ++ "{"%char :: rest) []).
  change (match rmatch (Lit (py "json")) K st3 with
          | Some x => Some x
          | None => K st3
          end = Some (Match 0 (3 + length lang + length ws) [] ("{"%char :: rest))).
  unfold st3. destruct Hlang as [-> | ->].
  - cbn [app length]. rewrite Nat.add_0_r.
    replace (rmatch (Lit (py "json")) K (MState 3 (ws ++ "{"%char :: rest) []))
      with (@None rmatch_result).
    + apply Hrun.
    + cbn [py list_ascii_of_string Lit fold_right]. unfold Chr at 1.
      cbn [rmatch m_rest].
      destruct ws as [|c ws]; [reflexivity|].
      apply Forall_cons in Hws. destruct Hws as [Hc _].
      cbn [app]. now rewrite (space_not_letter c Hc).
  - assert (H7 : rmatch (Lit (py "json")) K
                   (MState 3 (py "json" ++ ws ++ "{"%char :: rest) [])
                 = K (MState 7 (ws ++ "{"%char :: rest) [])) by reflexivity.
    rewrite H7, (Hrun 7%nat). reflexivity.
Qed.

Lemma fence_open_sub (lang ws rest : str) :
  lang = [] \/ lang = py "json" ->
  Forall (fun c => isspace c = true) ws ->
  re_sub fence_open_re [] (py "```" ++ lang ++ ws ++ "{"%char :: rest)
  = "{"%char :: rest.
Proof.
  intros Hlang Hws.
  rewrite (re_sub_one fence_open_re [] _ []
             (Match 0 (3 + length lang + length ws) [] ("{"%char :: rest))).
  - reflexivity.
  - pose proof (fence_open_match lang ws rest Hlang Hws) as H.
    destruct (py "```" ++ lang ++ ws ++ "{"%char :: rest);
      cbn [search_from]; now rewrite H.
  - cbn [mt_end mt_start mt_after].
    apply search_anchored_none. apply match_anchored_later. cbn. lia.
Qed.

Lemma fence_close_sub (b close : str) :
  close = py "```" \/ close = newline :: py "```" ->
  re_sub fence_close_re [] (("{"%char :: b ++ ["}"%char]) ++ close)
  = "{"%char :: b ++ ["}"%char].
Proof.
  intros Hclose.
  set (core := "{"%char :: b ++ ["}"%char]).
  rewrite (re_sub_one fence_close_re [] _ core
             (Match (length core) (length core + length close) [] [])).
  - cbn [expand flat_map mt_after]. now rewrite !app_nil_r.
  - rewrite (search_from_skip fence_close_re false 0 (fun y => In "}"%char y) close
               (fun k st => fence_close_blocked k st) core [] 0%nat
               (Match (length core) (length core + length close) [] []));
      [reflexivity | |].
    + intros x y Hxy Hy. apply in_or_app. left.
      unfold core in Hxy.
      change ("{"%char :: b ++ ["}"%char]) with (("{"%char :: b) ++ ["}"%char]) in Hxy.
      now apply (suffix_holds_last _ _ _ _ Hxy).
    + cbn [Nat.add]. generalize (length core). intros n.
      destruct Hclose as [-> | ->]; unfold match_at, fence_close_re, Opt, backticks;
        cbn [py list_ascii_of_string Lit fold_right]; unfold Chr, Space;
        cbn [rmatch m_rest advance m_pos m_caps length star_greedy at_eol andb];
        rewrite ?Ascii.eqb_refl; cbn [rmatch m_rest advance m_pos m_caps length star_greedy at_eol andb];
        repeat f_equal; try lia.
  - cbn [mt_end mt_start mt_after search_from].
    unfold match_at, fence_close_re, Opt, backticks.
    cbn [py list_ascii_of_string Lit fold_right]. unfold Chr.
    cbn [rmatch m_rest]. reflexivity.
Qed.

(** X21. A response that wraps a text running from an opening brace to
    a closing brace in a code fence (three backticks, the tag json or no
    tag, optional whitespace, the text, then three backticks or a newline
    and three backticks), with nothing but whitespace before and after the
    fence, where no comma of the wrapped text, inside string values
    included, is followed, after optional whitespace, by a closing brace
    or bracket: [clean_json_response] gives the wrapped text, and
    [parse_response] gives what the strict parse makes of it. *)
Theorem fenced_response_unwrapped (w0 w1 lang ws b close : str) :
  let core := "{"%char :: b ++ ["}"%char] in
  let text := w0 ++ (py "```" ++ lang ++ ws ++ core ++ close) ++ w1 in
  forallb isspace w0 = true -> forallb isspace w1 = true ->
  lang = [] \/ lang = py "json" ->
  Forall (fun c => isspace c = true) ws ->
  close = py "```" \/ close = newline :: py "```" ->
  re_search trailing_comma_re core = None ->
  clean_json_response text = core
  /\ parse_response text = json_loads core.
Proof.
  intros core text Hw0 Hw1 Hlang Hws Hclose Hcomma.
  assert (Hstrip : strip text = py "```" ++ lang ++ ws ++ core ++ close).
  { assert (Hshape : exists mid, py "```" ++ lang ++ ws ++ core ++ close
                                 = "`"%char :: mid ++ ["`"%char]).
    { destruct Hclose as [-> | ->].
      - exists (py "``" ++ lang ++ ws ++ core ++ py "``").
        cbn [py list_ascii_of_string app]. do 3 f_equal.
        rewrite <- !app_assoc. do 3 f_equal.
      - exists (py "``" ++ lang ++ ws ++ core ++ newline :: py "``").
        cbn [py list_ascii_of_string app]. do 3 f_equal.
        rewrite <- !app_assoc. do 3 f_equal. }
    destruct Hshape as (mid & Hmid). unfold text. rewrite Hmid.
    now apply strip_core. }
  assert (Hclean : clean_json_response text = core).
  { unfold clean_json_response. rewrite Hstrip.
    change (py "```" ++ lang ++ ws ++ core ++ close)
      with (py "```" ++ lang ++ ws ++ "{"%char :: (b ++ ["}"%char]) ++ close).
    rewrite fence_open_sub by assumption.
    change ("{"%char :: (b ++ ["}"%char]) ++ close) with (core ++ close).
    unfold core. rewrite fence_close_sub by assumption.
    rewrite strip_fixed by reflexivity.
    rewrite find_head, andb_false_r.
    apply re_sub_no_match. now apply re_search_none. }
  split; [assumption|].
  unfold parse_response. rewrite Hclean.
  destruct (json_loads core) eqn:E; [reflexivity|].
  assert (Hb : re_sub before_brace_re [] ([] ++ core) = core).
  { apply before_brace_sub; [intros [] |]. right. now exists (b ++ ["}"%char]). }
  change ([] ++ core) with core in Hb. rewrite Hb.
  assert (Ha : re_sub after_brace_re [] (core ++ []) = core).
  { apply after_brace_sub; [|intros []]. right. now exists ("{"%char :: b). }
  rewrite app_nil_r in Ha. now rewrite Ha.
Qed.

Lemma fenced_response_unwrapped_witness :
  clean_json_response (py "```json" ++ newline :: lit "{'a': 1}" ++ newline :: py "```" ++ [newline])
  = lit "{'a': 1}"
  /\ parse_response (py "```json" ++ newline :: lit "{'a': 1}" ++ newline :: py "```" ++ [newline])
     = json_loads (lit "{'a': 1}").
Proof.
  apply (fenced_response_unwrapped [] [newline] (py "json") [newline]
           (lit "'a': 1") (newline :: py "```")).
  - reflexivity.
  - reflexivity.
  - now right.
  - repeat constructor.
  - now right.
  - vm_compute. reflexivity.
Defined.

(** ** Substitutions read off the text ahead *)

Section LocalMatches.

Variable r : regex.
Variable hit : str -> option (list (nat * str) * str * str).

Hypothesis hit_splits :
  forall s caps w after, hit s = Some (caps, w, after) -> s = w ++ after /\ w <> [].

Hypothesis hit_matches :
  forall ma start pos s, (start <= pos)%nat ->
    match_at r ma start pos s
    = match hit s with
      | Some (caps, w, after) => Some (Match pos (pos + length w) caps after)
      | None => None
      end.

Lemma search_local (ma : bool) (start : nat) (s : str) :
  forall skipped pos, (start <= pos)%nat ->
    search_from r ma start skipped pos s
    = match first_hit hit s with
      | Some (gap, (caps, w, after)) =>
          Some (reverse skipped ++ gap,
                Match (pos + length gap) (pos + length gap + length w) caps after)
      | None => None
      end.
Proof.
  induction s as [|c s IH]; intros skipped pos Hp.
  - cbn [search_from first_hit]. rewrite hit_matches by assumption.
    destruct (hit []) as [[[caps w] after]|]; [|reflexivity].
    cbn [length]. now rewrite app_nil_r, Nat.add_0_r.
  - cbn [search_from first_hit]. rewrite hit_matches by assumption.
    destruct (hit (c :: s)) as [[[caps w] after]|].
    + cbn [length]. now rewrite app_nil_r, Nat.add_0_r.
    + rewrite IH by lia.
      destruct (first_hit hit s) as [[gap [[caps w] after]]|]; [|reflexivity].
      rewrite reverse_cons, <- app_assoc. cbn [app length].
      now replace (S pos + length gap)%nat with (pos + S (length gap))%nat by lia.
Qed.

Lemma expand_groups (tpl : list repl_item) (a b : nat) (caps : list (nat * str))
    (after : str) :
  expand tpl (Match a b caps after) = expand tpl (Match 0 0 caps []).
Proof. reflexivity. Qed.

Lemma scan_local (tpl : list repl_item) (fuel : nat) :
  forall ma pos s,
    flat_map (fun bm => fst bm ++ expand tpl (snd bm)) (fst (scan fuel r ma pos s))
    ++ snd (scan fuel r ma pos s)
    = rewrite_with hit (fun caps => expand tpl (Match 0 0 caps [])) fuel s.
Proof.
  induction fuel as [|fuel IH]; intros ma pos s; [reflexivity|].
  cbn [scan rewrite_with]. rewrite search_local by lia.
  destruct (first_hit hit s) as [[gap [[caps w] after]]|]; [|reflexivity].
  cbn [mt_end mt_start mt_after].
  specialize (IH (pos + length gap + length w =? pos + length gap)%nat
                 (pos + length gap + length w)%nat after).
  destruct (scan fuel r _ _ after) as [ms tail].
  cbn [fst snd flat_map] in *. rewrite <- !app_assoc, IH.
  reflexivity.
Qed.

Lemma re_sub_local (tpl : list repl_item) (s : str) :
  re_sub r tpl s
  = rewrite_with hit (fun caps => expand tpl (Match 0 0 caps [])) (2 * length s + 2) s.
Proof.
  unfold re_sub, scan_all.
  pose proof (scan_local tpl (2 * length s + 2) false 0%nat s) as H.
  now destruct (scan _ r false 0 s).
Qed.

Lemma first_hit_found (s gap : str) (x : list (nat * str) * str * str) :
  first_hit hit s = Some (gap, x) ->
  exists t, s = gap ++ t /\ hit t = Some x
            /\ forall g1 g2, gap = g1 ++ g2 -> g2 <> [] -> hit (g2 ++ t) = None.
Proof.
  revert gap. induction s as [|c s IH]; intros gap; cbn [first_hit].
  - destruct (hit []) eqn:E; [|discriminate]. intros [= <- <-].
    exists []. split; [reflexivity|]. split; [assumption|].
    intros g1 g2 Hg. now destruct g1, g2.
  - destruct (hit (c :: s)) eqn:E.
    + intros [= <- <-]. exists (c :: s). split; [reflexivity|]. split; [assumption|].
      intros g1 g2 Hg. now destruct g1, g2.
    + destruct (first_hit hit s) as [[gap' x']|]; [|discriminate].
      intros [= <- <-]. destruct (IH gap' eq_refl) as (t & -> & Ht & Hgap).
      exists t. split; [reflexivity|]. split; [assumption|].
      intros g1 g2 Hg Hne. destruct g1 as [|d g1].
      * cbn [app] in Hg. subst g2. exact E.
      * injection Hg as _ Hg. now apply (Hgap g1 g2).
Qed.

Lemma first_hit_none (s : str) :
  first_hit hit s = None -> forall x y, s = x ++ y -> hit y = None.
Proof.
  induction s as [|c s IH]; cbn [first_hit].
  - destruct (hit []) eqn:E; [discriminate|]. intros _ x y Hxy.
    symmetry in Hxy. apply app_eq_nil in Hxy. destruct Hxy as [_ ->]. exact E.
  - destruct (hit (c :: s)) eqn:E; [discriminate|].
    destruct (first_hit hit s) as [[gap' x']|] eqn:Ef; [discriminate|].
    intros _ x y Hxy. destruct x as [|d x].
    + cbn [app] in Hxy. now subst y.
    + injection Hxy as _ Hxy. now apply (IH eq_refl x y).
Qed.

End LocalMatches.

(** ** Deleting a class of characters *)

Lemma class_hit_splits (p : ascii -> bool) :
  forall s caps w after,
    class_hit p s = Some (caps, w, after) -> s = w ++ after /\ w <> [].
Proof.
  intros [|c s] caps w after; cbn [class_hit]; [discriminate|].
  destruct (p c); [|discriminate]. intros [= <- <- <-]. now split.
Qed.

Lemma class_hit_matches (p : ascii -> bool) :
  forall ma start pos s, (start <= pos)%nat ->
    match_at (Cls p) ma start pos s
    = match class_hit p s with
      | Some (caps, w, after) => Some (Match pos (pos + length w) caps after)
      | None => None
      end.
Proof.
  intros ma start pos [|c s] Hp; unfold match_at; cbn [rmatch m_rest class_hit];
    [reflexivity|].
  destruct (p c); [|reflexivity]. cbn [advance m_pos m_caps m_rest length].
  replace (S pos =? start)%nat with false by (symmetry; apply Nat.eqb_neq; lia).
  rewrite andb_false_r. now rewrite Nat.add_1_r.
Qed.

Lemma rewrite_class (p : ascii -> bool) (fuel : nat) :
  forall s, (length s <= fuel)%nat ->
    rewrite_with (class_hit p) (fun _ => []) fuel s
    = List.filter (fun c => negb (p c)) s.
Proof.
  induction fuel as [|fuel IH]; intros s Hs.
  - destruct s; [reflexivity | cbn [length] in Hs; lia].
  - cbn [rewrite_with].
    destruct (first_hit (class_hit p) s) as [[gap [[caps w] after]]|] eqn:E.
    + apply first_hit_found in E. destruct E as (t & -> & Ht & Hgap).
      destruct t as [|c t]; [discriminate|]. cbn [class_hit] in Ht.
      destruct (p c) eqn:Ec; [|discriminate]. injection Ht as <- <- <-.
      rewrite List.filter_app. cbn [List.filter app]. rewrite Ec. cbn [negb].
      rewrite IH by (rewrite length_app in Hs; cbn [length] in Hs; lia).
      f_equal. clear -Hgap. induction gap as [|d gap IHg]; [reflexivity|].
      cbn [List.filter].
      pose proof (Hgap [] (d :: gap) eq_refl ltac:(discriminate)) as Hd.
      cbn [app class_hit] in Hd. destruct (p d); [discriminate|]. cbn [negb].
      f_equal. apply IHg. intros g1 g2 -> Hne. now apply (Hgap (d :: g1) g2).
    + pose proof (first_hit_none _ _ E) as Hn. clear -Hn.
      induction s as [|d s IHs]; [reflexivity|]. cbn [List.filter].
      pose proof (Hn [] (d :: s) eq_refl) as Hd. cbn [class_hit] in Hd.
      destruct (p d); [discriminate|]. cbn [negb]. f_equal.
      apply IHs. intros x y ->. now apply (Hn (d :: x) y).
Qed.

Lemma re_sub_class (p : ascii -> bool) (s : str) :
  re_sub (Cls p) [] s = List.filter (fun c => negb (p c)) s.
Proof.
  rewrite (re_sub_local (Cls p) (class_hit p) (class_hit_matches p)).
  apply rewrite_class. lia.
Qed.

(** X22. Whatever the response, the text [nuclear_json_clean] returns
    holds no control character other than tab, newline and carriage
    return. *)
Theorem nuclear_clean_no_control (text : str) :
  Forall (fun c => is_control c = false) (nuclear_json_clean text).
Proof.
  unfold nuclear_json_clean. cbv zeta. rewrite re_sub_class.
  apply List.Forall_forall. intros c Hc. apply filter_In in Hc.
  destruct Hc as [_ Hc]. now apply negb_true_iff in Hc.
Qed.

(** ** Commas before a closing brace or bracket *)

Lemma span_stop (p : ascii -> bool) (s a rest : str) :
  span p s = (a, rest) -> match rest with [] => True | c :: _ => p c = false end.
Proof.
  revert a rest. induction s as [|c s IH]; intros a rest; cbn [span].
  - now intros [= <- <-].
  - destruct (p c) eqn:E.
    + destruct (span p s) as [a' b']. intros [= <- <-]. now apply (IH a' b').
    + now intros [= <- <-].
Qed.

Lemma closer_not_space (d : ascii) : is_closer d = true -> isspace d = false.
Proof.
  unfold is_closer. cbn [py list_ascii_of_string existsb]. intros H.
  repeat (apply orb_true_iff in H; destruct H as [H | H]);
    try discriminate; apply Ascii.eqb_eq in H; now subst d.
Qed.

Lemma closer_not_comma (d : ascii) : is_closer d = true -> Ascii.eqb d "," = false.
Proof.
  unfold is_closer. cbn [py list_ascii_of_string existsb]. intros H.
  repeat (apply orb_true_iff in H; destruct H as [H | H]);
    try discriminate; apply Ascii.eqb_eq in H; now subst d.
Qed.

Lemma space_not_comma (d : ascii) : isspace d = true -> Ascii.eqb d "," = false.
Proof.
  intros H. destruct (Ascii.eqb d ",") eqn:E; [|reflexivity].
  apply Ascii.eqb_eq in E. subst d. discriminate.
Qed.

Lemma comma_hit_splits :
  forall s caps w after,
    comma_hit s = Some (caps, w, after) -> s = w ++ after /\ w <> [].
Proof.
  intros [|c s] caps w after; cbn [comma_hit]; [discriminate|].
  destruct (Ascii.eqb c ","); [|discriminate].
  destruct (span isspace s) as [ws rest] eqn:E.
  destruct rest as [|d rest]; [discriminate|].
  destruct (is_closer d); [|discriminate]. intros [= <- <- <-].
  apply span_split in E. destruct E as [-> _].
  split; [|discriminate]. cbn [app]. now rewrite <- app_assoc.
Qed.

Lemma Forall_forallb (p : ascii -> bool) (w : str) :
  Forall (fun c => p c = true) w <-> forallb p w = true.
Proof.
  induction w as [|c w IH]; cbn [forallb]; [split; [reflexivity | constructor]|].
  rewrite Forall_cons, andb_true_iff, IH. reflexivity.
Qed.

Lemma comma_hit_matches :
  forall ma start pos s, (start <= pos)%nat ->
    match_at trailing_comma_re ma start pos s
    = match comma_hit s with
      | Some (caps, w, after) => Some (Match pos (pos + length w) caps after)
      | None => None
      end.
Proof.
  intros ma start pos [|c s1] Hp; unfold match_at, trailing_comma_re, Chr;
    cbn [rmatch m_rest comma_hit]; [reflexivity|].
  rewrite (Ascii.eqb_sym "," c).
  destruct (Ascii.eqb c ","); [|reflexivity].
  cbn [advance m_pos m_caps m_rest].
  set (st1 := MState (S pos) s1 []).
  set (k1 := fun st' : mstate =>
               if ma && (m_pos (close_group 1 st1 st') =? start)%nat then None
               else Some (Match pos (m_pos (close_group 1 st1 st'))
                                (m_caps (close_group 1 st1 st'))
                                (m_rest (close_group 1 st1 st')))).
  change (star_greedy (rmatch Space) (rmatch (OneOf (py "}]")) k1) (length s1) st1
          = match (let '(ws, rest) := span isspace s1 in
                   match rest with
                   | d :: after =>
                       if is_closer d
                       then Some ([(1%nat, ws ++ [d])], c :: ws ++ [d], after)
                       else None
                   | [] => None
                   end) with
            | Some (caps, w, after) => Some (Match pos (pos + length w) caps after)
            | None => None
            end).
  destruct (span isspace s1) as [ws rest] eqn:Esp.
  pose proof (span_stop _ _ _ _ Esp) as Hstop.
  apply span_split in Esp. destruct Esp as [Hs1 Hws].
  assert (Hgo : forall d after, rest = d :: after -> is_closer d = true ->
            star_greedy (rmatch Space) (rmatch (OneOf (py "}]")) k1) (length s1) st1
            = Some (Match pos (pos + length (c :: ws ++ [d])) [(1%nat, ws ++ [d])] after)).
  { intros d after -> Hd. unfold st1, Space. rewrite Hs1.
    apply star_greedy_run.
    - now apply Forall_forallb.
    - exact Hstop.
    - rewrite length_app. lia.
    - unfold OneOf. cbn [rmatch m_rest]. fold (is_closer d). rewrite Hd.
      unfold k1, close_group. cbn [advance m_pos m_rest m_caps].
      replace (S (S pos + length ws) =? start)%nat with false
        by (symmetry; apply Nat.eqb_neq; lia).
      rewrite andb_false_r. f_equal. f_equal.
      + cbn [length]. rewrite length_app. cbn [length]. lia.
      + f_equal. f_equal. unfold st1. cbn [m_pos m_rest]. rewrite Hs1.
        replace (S (S pos + length ws) - S pos)%nat with (length ws + 1)%nat by lia.
        rewrite firstn_app, firstn_all2 by lia.
        replace (length ws + 1 - length ws)%nat with 1%nat by lia. reflexivity. }
  assert (Hno : forall x,
            star_greedy (rmatch Space) (rmatch (OneOf (py "}]")) k1) (length s1) st1
            = Some x ->
            exists e rest', rest = e :: rest' /\ is_closer e = true).
  { intros x Estar.
    apply (star_greedy_within (fun c => isspace c = true)) in Estar.
    2:{ apply (rmatch_within _ Space). cbn. auto. }
    destruct Estar as (st' & (w & Hw & _ & HP) & Ek).
    unfold OneOf in Ek. cbn [rmatch] in Ek.
    destruct (m_rest st') as [|e rest'] eqn:Er; [discriminate|].
    fold (is_closer e) in Ek. destruct (is_closer e) eqn:Ee; [|discriminate].
    unfold st1 in Hw. cbn [m_rest] in Hw.
    assert (Hspan : span isspace s1 = (w, e :: rest')).
    { rewrite Hw. apply span_rerun; [now apply Forall_forallb|].
      now apply closer_not_space. }
    assert (Hspan' : span isspace s1 = (ws, rest)).
    { rewrite Hs1. now apply span_rerun. }
    rewrite Hspan in Hspan'. injection Hspan' as <- <-. eauto. }
  destruct rest as [|d after].
  - destruct (star_greedy _ _ _ st1) as [x|] eqn:E; [|reflexivity].
    destruct (Hno x eq_refl) as (e & rest' & He & _). discriminate.
  - destruct (is_closer d) eqn:Ed; [now apply Hgo|].
    destruct (star_greedy _ _ _ st1) as [x|] eqn:E; [|reflexivity].
    destruct (Hno x eq_refl) as (e & rest' & He & Hc). congruence.
Qed.


Lemma comma_hit_closes (c : ascii) (s : str) :
  comma_hit (c :: s) = None <-> Ascii.eqb c "," && closes s = false.
Proof.
  cbn [comma_hit]. unfold closes.
  destruct (Ascii.eqb c ","); cbn [andb]; [|tauto].
  destruct (span isspace s) as [ws rest]. cbn [snd].
  destruct rest as [|d rest]; [tauto|].
  destruct (is_closer d); split; intros; congruence.
Qed.

Lemma drop_commas_gap (gap t : str) :
  (forall g1 g2, gap = g1 ++ g2 -> g2 <> [] -> comma_hit (g2 ++ t) = None) ->
  drop_commas (gap ++ t) = gap ++ drop_commas t.
Proof.
  induction gap as [|d gap IH]; intros Hgap; [reflexivity|].
  cbn [app drop_commas].
  pose proof (Hgap [] (d :: gap) eq_refl ltac:(discriminate)) as Hd.
  cbn [app] in Hd. apply comma_hit_closes in Hd. rewrite Hd.
  f_equal. apply IH. intros g1 g2 -> Hne. now apply (Hgap (d :: g1) g2).
Qed.

Lemma drop_commas_kept (w rest : str) :
  Forall (fun c => Ascii.eqb c "," = false) w ->
  drop_commas (w ++ rest) = w ++ drop_commas rest.
Proof.
  induction 1 as [|c w Hc _ IH]; [reflexivity|].
  cbn [app drop_commas]. rewrite Hc. cbn [andb]. now rewrite IH.
Qed.

Lemma rewrite_commas (fuel : nat) :
  forall s, (length s <= fuel)%nat ->
    rewrite_with comma_hit (fun caps => expand [RGroup 1] (Match 0 0 caps [])) fuel s
    = drop_commas s.
Proof.
  induction fuel as [|fuel IH]; intros s Hs.
  - destruct s; [reflexivity | cbn [length] in Hs; lia].
  - cbn [rewrite_with].
    destruct (first_hit comma_hit s) as [[gap [[caps w] after]]|] eqn:E.
    + apply first_hit_found in E. destruct E as (t & -> & Ht & Hgap).
      rewrite (drop_commas_gap gap t Hgap). f_equal.
      destruct t as [|c s1]; [discriminate|].
      pose proof Ht as Hc. cbn [comma_hit] in Ht.
      destruct (Ascii.eqb c ",") eqn:Ec; [|discriminate].
      destruct (span isspace s1) as [ws rest] eqn:Esp.
      destruct rest as [|d rest]; [discriminate|].
      destruct (is_closer d) eqn:Ed; [|discriminate].
      injection Ht as <- <- <-.
      pose proof Esp as Hsplit. apply span_split in Hsplit.
      destruct Hsplit as [-> Hws].
      cbn [drop_commas]. rewrite Ec. unfold closes. rewrite Esp. cbn [snd andb].
      rewrite Ed.
      change (expand [RGroup 1] (Match 0 0 [(1%nat, ws ++ [d])] []))
        with ((ws ++ [d]) ++ []).
      rewrite app_nil_r, <- app_assoc. cbn [app].
      rewrite drop_commas_kept.
      2:{ apply Forall_forallb in Hws. eapply Forall_impl; [exact Hws|].
          intros x Hx. now apply space_not_comma. }
      f_equal. cbn [drop_commas]. rewrite (closer_not_comma d Ed). cbn [andb].
      f_equal. apply IH.
      rewrite !length_app in Hs. cbn [length] in Hs. rewrite length_app in Hs.
      cbn [length] in Hs. lia.
    + pose proof (first_hit_none _ _ E) as Hn. clear -Hn.
      induction s as [|d s IHs]; [reflexivity|]. cbn [drop_commas].
      pose proof (Hn [] (d :: s) eq_refl) as Hd.
      apply comma_hit_closes in Hd. rewrite Hd. f_equal.
      apply IHs. intros x y ->. now apply (Hn (d :: x) y).
Qed.

Lemma re_sub_commas (s : str) :
  re_sub trailing_comma_re [RGroup 1] s = drop_commas s.
Proof.
  rewrite (re_sub_local trailing_comma_re comma_hit comma_hit_matches).
  apply rewrite_commas. lia.
Qed.

(** ** Patterns that need a character *)

Lemma demands_blocked {A : Type} (c : ascii) (r : regex) :
  demands c r ->
  forall (k : mstate -> option A) st, ~ In c (m_rest st) -> rmatch r k st = None.
Proof.
  induction r as [|p|r1 IH1 r2 IH2|r1 IH1 r2 IH2|r1 IH1|r1 IH1|n r1 IH1| |];
    cbn [demands]; intros Hd k st Hin; try contradiction.
  - cbn [rmatch]. destruct (m_rest st) as [|d s]; [reflexivity|].
    destruct (p d) eqn:E; [|reflexivity].
    apply Hd in E. subst d. exfalso. apply Hin. now left.
  - cbn [rmatch]. destruct Hd as [Hd | Hd]; [now apply IH1|].
    destruct (rmatch r1 (rmatch r2 k) st) as [x|] eqn:E; [|reflexivity].
    exfalso. apply (rmatch_within (fun _ => True)) in E.
    2:{ clear. induction r1; cbn; auto. }
    destruct E as (st1 & (w & Hw & _) & E).
    rewrite (IH2 Hd k st1) in E; [discriminate|].
    intros H. apply Hin. rewrite Hw. apply in_or_app. now right.
  - cbn [rmatch]. destruct Hd as [Hd1 Hd2].
    rewrite (IH1 Hd1 k st Hin). now apply IH2.
  - cbn [rmatch]. now apply IH1.
Qed.

Lemma demands_no_match (c : ascii) (r : regex) (s : str) :
  demands c r -> ~ In c s -> search_from r false 0 [] 0 s = None.
Proof.
  intros Hd Hs.
  apply (search_from_blocked r false 0%nat (fun y => ~ In c y)).
  - intros k st. now apply demands_blocked.
  - intros x y -> H. apply Hs. apply in_or_app. now right.
Qed.

Lemma drop_commas_subset (c : ascii) (s : str) :
  In c (drop_commas s) -> In c s.
Proof.
  induction s as [|d s IH]; [intros []|]. cbn [drop_commas].
  destruct (Ascii.eqb d "," && closes s).
  - intros H. right. now apply IH.
  - intros [-> | H]; [now left | right; now apply IH].
Qed.

Lemma fix_json_delimiters_one_line (text : str) :
  ~ In newline text -> fix_json_delimiters text = drop_commas text.
Proof.
  intros Hnl.
  unfold fix_json_delimiters. cbv zeta. rewrite re_sub_commas.
  assert (Hn : ~ In newline (drop_commas text))
    by (intros H; apply Hnl; now apply drop_commas_subset).
  do 3 (rewrite (re_sub_no_match _ _ (drop_commas text));
        [| apply (demands_no_match newline); [|assumption];
           cbn [demands]; unfold Chr; cbn [demands];
           right; right; left; intros d Hd; apply Ascii.eqb_eq in Hd; now subst d]).
  reflexivity.
Qed.

(** X23. The first substitution of [fix_json_delimiters] removes
    exactly the commas that a closing brace or bracket follows,
    whitespace apart, and nothing else; on a text without a newline this
    is all [fix_json_delimiters] does. *)
Theorem fix_json_delimiters_commas (text : str) :
  re_sub trailing_comma_re [RGroup 1] text = drop_commas text
  /\ (~ In newline text -> fix_json_delimiters text = drop_commas text).
Proof. split; [apply re_sub_commas | apply fix_json_delimiters_one_line]. Qed.

Lemma fix_json_delimiters_commas_witness :
  fix_json_delimiters (lit "{'a': [1, 2, ], 'b': 3, }")
  = drop_commas (lit "{'a': [1, 2, ], 'b': 3, }").
Proof.
  apply (fix_json_delimiters_commas (lit "{'a': [1, 2, ], 'b': 3, }")).
  vm_compute. intuition discriminate.
Defined.

(** ** A trailing comma repaired *)

Lemma closes_skip (e : ascii) (y : str) : isspace e = true -> closes (e :: y) = closes y.
Proof.
  intros He. unfold closes. cbn [span]. rewrite He.
  now destruct (span isspace y).
Qed.

Lemma closes_stop (e : ascii) (y : str) : isspace e = false -> closes (e :: y) = is_closer e.
Proof. intros He. unfold closes. cbn [span]. now rewrite He. Qed.

Lemma closes_before_comma (x : str) :
  closes (x ++ [","%char; "}"%char]) = true -> closes (x ++ ["}"%char]) = true.
Proof.
  induction x as [|e x IH]; [discriminate|].
  cbn [app]. destruct (isspace e) eqn:He.
  - now rewrite !closes_skip.
  - now rewrite !closes_stop.
Qed.

Lemma drop_last_comma (x : str) :
  (forall x1 y, x = x1 ++ y -> comma_hit (y ++ ["}"%char]) = None) ->
  drop_commas (x ++ [","%char; "}"%char]) = x ++ ["}"%char].
Proof.
  induction x as [|c x IH]; intros Hx; [reflexivity|].
  cbn [app drop_commas].
  pose proof (Hx [] (c :: x) eq_refl) as Hc. cbn [app] in Hc.
  apply comma_hit_closes in Hc.
  replace (Ascii.eqb c "," && closes (x ++ [","%char; "}"%char])) with false.
  - f_equal. apply IH. intros x1 y ->. now apply (Hx (c :: x1) y).
  - symmetry. destruct (Ascii.eqb c ","); [|reflexivity]. cbn [andb] in *.
    destruct (closes (x ++ [","%char; "}"%char])) eqn:E; [|reflexivity].
    apply closes_before_comma in E. congruence.
Qed.

Lemma re_search_commas_none (s : str) :
  re_search trailing_comma_re s = None ->
  forall x y, s = x ++ y -> comma_hit y = None.
Proof.
  intros H. apply first_hit_none.
  unfold re_search in H.
  rewrite (search_local trailing_comma_re comma_hit comma_hit_matches) in H by lia.
  destruct (first_hit comma_hit s) as [[gap [[caps w] after]]|];
    [discriminate | reflexivity].
Qed.

Lemma filter_all {A : Type} (p : A -> bool) (l : list A) :
  Forall (fun c => p c = true) l -> List.filter p l = l.
Proof.
  induction 1 as [|c l Hc _ IH]; [reflexivity|].
  cbn [List.filter]. now rewrite Hc, IH.
Qed.

(** X24. A response made of an opening brace, a body, a comma and a
    closing brace, where the body holds no newline and none of the control
    characters that [nuclear_json_clean] removes, the text without that
    last comma parses, and no comma of the text without that last comma,
    inside string values included, is followed, after optional
    whitespace, by a closing brace or bracket: [nuclear_json_clean] gives
    the text without that last comma, and [enrich_with_nuclear_option]
    stores its parse as a fully parsed record, by the method
    [nuclear_clean]. *)
Theorem nuclear_repairs_trailing_comma (b : str) (j : json) (model : str)
    (chunk : gmap string value) :
  let core := "{"%char :: b ++ ["}"%char] in
  let text := "{"%char :: b ++ [","%char; "}"%char] in
  json_loads core = Some j ->
  re_search trailing_comma_re core = None ->
  ~ In newline b ->
  Forall (fun c => is_control c = false) b ->
  nuclear_json_clean text = core
  /\ enrich_with_nuclear_option model chunk text
     = (Some (<["enrichment_model" := VText model]>
                (<["enriched" := VJson j]> chunk)),
        true, "nuclear_clean"%string).
Proof.
  intros core text Hvalid Hcomma Hnl Hctl.
  assert (Hclean : nuclear_json_clean text = core).
  { unfold nuclear_json_clean. cbv zeta.
    assert (Hshape : text = "{"%char :: (b ++ [","%char]) ++ ["}"%char])
      by (unfold text; now rewrite <- app_assoc).
    rewrite Hshape, strip_fixed by reflexivity.
    rewrite (re_sub_no_match fence_open_re) by apply fence_open_no_match.
    rewrite (re_sub_no_match fence_close_re)
      by (apply fence_close_no_match; now exists ("{"%char :: b ++ [","%char])).
    rewrite find_head.
    change ("{"%char :: (b ++ [","%char]) ++ ["}"%char])
      with (("{"%char :: b ++ [","%char]) ++ ["}"%char]).
    unfold rfind. rewrite rfind_from_last by (intros []).
    set (u := "{"%char :: b ++ [","%char]).
    replace (negb (0 =? -1) && negb (0 + len u =? -1)) with true
      by (symmetry; apply andb_true_iff; split; [reflexivity|];
          apply negb_true_iff, Z.eqb_neq; unfold len; lia).
    assert (Hslice : slice 0 (0 + len u + 1) (u ++ ["}"%char]) = u ++ ["}"%char]).
    { unfold slice. change (Z.to_nat 0) with 0%nat.
      change (skipn 0 (u ++ ["}"%char])) with (u ++ ["}"%char]).
      apply firstn_all2. rewrite length_app. cbn [length]. unfold len. lia. }
    rewrite Hslice.
    assert (Htext : u ++ ["}"%char] = ("{"%char :: b) ++ [","%char; "}"%char])
      by (unfold u; cbn [app]; now rewrite <- app_assoc).
    rewrite Htext.
    rewrite fix_json_delimiters_one_line.
    2:{ intros H. apply in_app_or in H. destruct H as [[H | H] | H].
        - discriminate.
        - contradiction.
        - cbn in H. intuition discriminate. }
    rewrite drop_last_comma.
    2:{ intros x1 y Hxy. apply (re_search_commas_none core Hcomma x1).
        unfold core. change ("{"%char :: b ++ ["}"%char]) with (("{"%char :: b) ++ ["}"%char]).
        now rewrite Hxy, <- app_assoc. }
    rewrite re_sub_class. apply filter_all.
    constructor; [reflexivity|]. apply Forall_app. split.
    - eapply Forall_impl; [exact Hctl|]. intros c Hc. now rewrite Hc.
    - repeat constructor. }
  split; [assumption|].
  unfold enrich_with_nuclear_option. now rewrite Hclean, Hvalid.
Qed.

Lemma nuclear_repairs_trailing_comma_witness :
  nuclear_json_clean ("{"%char :: lit "'a': 1" ++ [","%char; "}"%char])
  = "{"%char :: lit "'a': 1" ++ ["}"%char]
  /\ enrich_with_nuclear_option (py "model") ∅
       ("{"%char :: lit "'a': 1" ++ [","%char; "}"%char])
     = (Some (<["enrichment_model" := VText (py "model")]>
                (<["enriched" := VJson (JObject [([97%N], JInt 1)])]> ∅)),
        true, "nuclear_clean"%string).
Proof.
  apply (nuclear_repairs_trailing_comma (lit "'a': 1") (JObject [([97%N], JInt 1)])
           (py "model") ∅).
  - vm_compute. reflexivity.
  - vm_compute. reflexivity.
  - vm_compute. intuition discriminate.
  - repeat (constructor; [vm_compute; reflexivity|]). constructor.
Defined.

(** ** A response with prose around its object *)

Lemma find_from_first (c : ascii) (pre rest : str) :
  ~ In c pre -> forall i, find_from c i (pre ++ c :: rest) = i + len pre.
Proof.
  intros Hpre. induction pre as [|d pre IH]; intros i.
  - cbn [app find_from]. rewrite Ascii.eqb_refl. unfold len. cbn [length]. lia.
  - cbn [app find_from]. destruct (Ascii.eqb c d) eqn:E.
    + apply Ascii.eqb_eq in E. subst d. exfalso. apply Hpre. now left.
    + rewrite IH by (intros H; apply Hpre; now right).
      unfold len. cbn [length]. lia.
Qed.

Lemma fence_open_other_start (c : ascii) (s : str) :
  c <> "`"%char -> search_from fence_open_re false 0 [] 0 (c :: s) = None.
Proof.
  intros Hc. apply search_anchored_none.
  unfold match_at, fence_open_re, backticks.
  cbn [py list_ascii_of_string Lit fold_right]. unfold Chr at 1.
  cbn [rmatch m_pos Nat.eqb m_rest].
  destruct (Ascii.eqb "`" c) eqn:E; [|reflexivity].
  apply Ascii.eqb_eq in E. congruence.
Qed.

Lemma fence_close_absent (u post : str) :
  ~ In "`"%char post ->
  search_from fence_close_re false 0 [] 0 ((u ++ ["}"%char]) ++ post) = None.
Proof.
  intros Htick.
  apply (search_from_blocked fence_close_re false 0%nat
           (fun y => In "}"%char y \/ ~ In "`"%char y)).
  - intros k st [H | H];
      [now apply fence_close_blocked | now apply fence_close_needs_backtick].
  - intros x y Hxy. symmetry in Hxy. apply app_eq_app in Hxy.
    destruct Hxy as (l & [[Hx Hy] | [Hx Hy]]).
    + right. intros Hin. apply Htick. rewrite Hy. apply in_or_app. now right.
    + destruct l as [|d l].
      * right. now rewrite Hy.
      * left. rewrite Hy. apply in_or_app. left.
        apply (suffix_holds_last _ _ _ _ Hx). discriminate.
Qed.

(** X25. A response made of prose, a text that runs from an opening
    brace to a closing brace and parses, and possibly more prose, where
    the prose before starts with a character that is neither whitespace
    nor a backtick and holds no opening brace, the prose after is empty or
    ends with a character other than whitespace and holds neither a
    closing brace nor a backtick, and no comma of the text between the
    braces, inside string values included, is followed, after optional
    whitespace, by a closing brace or bracket, is recovered by the basic
    clean: [clean_json_response] cuts the response down to that text, from
    the first opening brace to the last closing brace, and the first
    strict parse succeeds. *)
Theorem leading_prose_recovered (pre b post : str) (j : json) (c : ascii) (p : str) :
  let core := "{"%char :: b ++ ["}"%char] in
  let text := pre ++ core ++ post in
  json_loads core = Some j ->
  pre = c :: p -> isspace c = false -> c <> "`"%char ->
  ~ In "{"%char pre ->
  ~ In "}"%char post -> ~ In "`"%char post ->
  (post = [] \/ exists q d, post = q ++ [d] /\ isspace d = false) ->
  re_search trailing_comma_re core = None ->
  clean_json_response text = core
  /\ parse_response text = Some j.
Proof.
  intros core text Hvalid Hpre Hc Htick0 Hopen Hclose Htick Hend Hcomma.
  assert (Hshape : text = (((c :: p) ++ "{"%char :: b) ++ ["}"%char]) ++ post).
  { unfold text, core. rewrite Hpre. rewrite <- !app_assoc. cbn [app].
    do 2 f_equal. now rewrite <- app_assoc. }
  assert (Hstrip : strip text = text).
  { rewrite Hshape. destruct Hend as [-> | (q & d & -> & Hd)].
    - rewrite app_nil_r. cbn [app]. now apply strip_fixed.
    - cbn [app]. rewrite app_assoc. now apply strip_fixed. }
  assert (Hclean : clean_json_response text = core).
  { unfold clean_json_response. rewrite Hstrip.
    rewrite (re_sub_no_match fence_open_re)
      by (rewrite Hshape; cbn [app]; now apply fence_open_other_start).
    rewrite (re_sub_no_match fence_close_re)
      by (rewrite Hshape; now apply fence_close_absent).
    rewrite Hstrip.
    assert (Hfind : find "{" text = len pre).
    { unfold text, core, find. cbn [app]. now rewrite find_from_first. }
    assert (Hrfind : rfind "}" text = len (pre ++ "{"%char :: b)).
    { unfold rfind. rewrite Hshape, <- Hpre.
      rewrite <- app_assoc. cbn [app].
      now rewrite rfind_from_last. }
    rewrite Hfind, Hrfind.
    replace (negb (len pre =? -1) && negb (len (pre ++ "{"%char :: b) =? -1)
             && (0 <? len pre)) with true.
    2:{ symmetry. rewrite !andb_true_iff. repeat split.
        - apply negb_true_iff, Z.eqb_neq. unfold len. lia.
        - apply negb_true_iff, Z.eqb_neq. unfold len. lia.
        - apply Z.ltb_lt. rewrite Hpre. unfold len. cbn [length]. lia. }
    assert (Hslice : slice (len pre) (len (pre ++ "{"%char :: b) + 1) text = core).
    { unfold slice, text.
      replace (Z.to_nat (len pre)) with (length pre) by (unfold len; lia).
      rewrite skipn_app, Nat.sub_diag, skipn_all. cbn [skipn app].
      replace (Z.to_nat (len (pre ++ "{"%char :: b) + 1 - len pre))
        with (length core)
        by (unfold len, core; rewrite length_app; cbn [length];
            rewrite length_app; cbn [length]; lia).
      change (skipn 0 (core ++ post)) with (core ++ post).
      now rewrite firstn_app, Nat.sub_diag, firstn_all, firstn_O, app_nil_r. }
    rewrite Hslice. apply re_sub_no_match. now apply re_search_none. }
  split; [assumption|].
  unfold parse_response. now rewrite Hclean, Hvalid.
Qed.

Lemma leading_prose_recovered_witness :
  clean_json_response (py "Here is the JSON: " ++ lit "{'a': 1}" ++ py " Enjoy!")
  = lit "{'a': 1}"
  /\ parse_response (py "Here is the JSON: " ++ lit "{'a': 1}" ++ py " Enjoy!")
     = Some (JObject [([97%N], JInt 1)]).
Proof.
  apply (leading_prose_recovered (py "Here is the JSON: ") (lit "'a': 1") (py " Enjoy!")
           (JObject [([97%N], JInt 1)]) "H"%char (py "ere is the JSON: "));
    try (vm_compute; reflexivity); try (vm_compute; intuition discriminate).
  right. exists (py " Enjoy"), "!"%char. split; reflexivity.
Defined.

Import PyStr Re Utils Parser Json FillGapsImproved FillGapsNuclear Enricher Publisher.

(** ** Enrichment *)

Lemma enrich_chunk_parsed (response : option str) (model : str) (chunk : stored_chunk) :
  parsed (enrich_chunk response model chunk) = parsed chunk.
Proof.
  unfold enrich_chunk. destruct response as [t|]; [|reflexivity].
  now destruct (parse_enrichment t).
Qed.

Lemma py_index_lookup {A : Type} (l : list A) (k : nat) :
  py_index l (Z.of_nat k) = l !! k.
Proof.
  unfold py_index.
  replace (0 <=? Z.of_nat k) with true by (symmetry; apply Z.leb_le; lia).
  rewrite Nat2Z.id. revert k. induction l as [|x l IH]; intros [|k]; try reflexivity.
  apply IH.
Qed.

Lemma py_set_index_nat {A : Type} (l : list A) (k : nat) (x : A) :
  (k < length l)%nat -> py_set_index l (Z.of_nat k) x = Some (<[k := x]> l).
Proof.
  intros Hk. unfold py_set_index.
  replace ((0 <=? Z.of_nat k) && (Z.of_nat k <? Z.of_nat (length l))) with true
    by (symmetry; apply andb_true_iff; split; [apply Z.leb_le | apply Z.ltb_lt]; lia).
  now rewrite Nat2Z.id.
Qed.

Lemma enrich_loop_range (respond : Z -> stored_chunk -> option str) (model : str)
    (start_index end_index : Z) (chunks : list stored_chunk) :
  forall (n s : nat) (cur : list stored_chunk),
    length cur = length chunks ->
    start_index <= Z.of_nat s -> Z.of_nat (s + n) <= end_index ->
    (forall k, (k < s)%nat ->
       cur !! k = enriched_at respond model start_index end_index k <$> chunks !! k) ->
    (forall k, (s <= k)%nat -> cur !! k = chunks !! k) ->
    exists cur',
      enrich_loop respond model (map Z.of_nat (seq s n)) cur = Some cur'
      /\ length cur' = length chunks
      /\ (forall k, (k < s + n)%nat ->
            cur' !! k = enriched_at respond model start_index end_index k <$> chunks !! k)
      /\ (forall k, (s + n <= k)%nat -> cur' !! k = chunks !! k).
Proof.
  induction n as [|n IH]; intros s cur Hlen Hs He Hdone Hrest.
  - exists cur. rewrite Nat.add_0_r. cbn [seq map enrich_loop]. auto.
  - cbn [seq map enrich_loop].
    destruct (Z.of_nat (length cur) <=? Z.of_nat s) eqn:Eb.
    + apply Z.leb_le in Eb. exists cur. split; [reflexivity|].
      split; [assumption|]. split.
      * intros k Hk. destruct (Nat.lt_ge_cases k s) as [Hlt | Hge]; [now apply Hdone|].
        rewrite (Hrest k Hge).
        rewrite (lookup_ge_None_2 chunks k) by lia. reflexivity.
      * intros k Hk. apply Hrest. lia.
    + apply Z.leb_gt in Eb. rewrite py_index_lookup.
      destruct (cur !! s) as [chunk|] eqn:Ec.
      2:{ apply lookup_ge_None_1 in Ec. lia. }
      assert (Horig : chunks !! s = Some chunk) by (rewrite <- (Hrest s); [assumption | lia]).
      assert (Hat : enriched_at respond model start_index end_index s chunk
                    = match enriched chunk with
                      | Some _ => chunk
                      | None => enrich_chunk (respond (Z.of_nat s) chunk) model chunk
                      end).
      { unfold enriched_at.
        replace ((start_index <=? Z.of_nat s) && (Z.of_nat s <? end_index)) with true;
          [reflexivity|].
        symmetry. apply andb_true_iff. split; [apply Z.leb_le | apply Z.ltb_lt]; lia. }
      destruct (enriched chunk) as [e|] eqn:Ee.
      * destruct (IH (S s) cur Hlen ltac:(lia) ltac:(lia)) as (cur' & Hrun & Hl & H1 & H2).
        -- intros k Hk. destruct (Nat.eq_dec k s) as [-> | Hne]; [|apply Hdone; lia].
           rewrite Ec, Horig. cbn [fmap option_fmap option_map]. now rewrite Hat.
        -- intros k Hk. apply Hrest. lia.
        -- exists cur'. split; [assumption|]. split; [assumption|].
           rewrite <- Nat.add_succ_comm. now split.
      * rewrite py_set_index_nat by lia.
        set (new := enrich_chunk (respond (Z.of_nat s) chunk) model chunk) in *.
        destruct (IH (S s) (<[s := new]> cur)) as (cur' & Hrun & Hl & H1 & H2).
        -- now rewrite length_insert.
        -- lia.
        -- lia.
        -- intros k Hk. destruct (Nat.eq_dec k s) as [-> | Hne].
           ++ rewrite list_lookup_insert_eq by lia. rewrite Horig.
              cbn [fmap option_fmap option_map]. now rewrite Hat.
           ++ rewrite list_lookup_insert_ne by congruence. apply Hdone. lia.
        -- intros k Hk. rewrite list_lookup_insert_ne by lia. apply Hrest. lia.
        -- exists cur'. split; [assumption|]. split; [assumption|].
           rewrite <- Nat.add_succ_comm. now split.
Qed.

Lemma py_range_shift (s n : nat) :
  forall a, map (fun k => Z.of_nat s + Z.of_nat k) (seq a n)
            = map Z.of_nat (seq (s + a) n).
Proof.
  induction n as [|n IH]; intros a; [reflexivity|].
  cbn [seq map]. rewrite IH. f_equal; [lia|]. now rewrite Nat.add_succ_r.
Qed.

Lemma py_range_nat (start_index end_index : Z) (s : nat) :
  start_index = Z.of_nat s ->
  py_range start_index end_index
  = map Z.of_nat (seq s (Z.to_nat (end_index - start_index))).
Proof.
  intros ->. unfold py_range. rewrite py_range_shift. now rewrite Nat.add_0_r.
Qed.

Lemma kept_refl (c : stored_chunk) : kept c c.
Proof. now split. Qed.

Lemma kept_enrich (response : option str) (model : str) (c : stored_chunk) :
  enriched c = None -> kept c (enrich_chunk response model c).
Proof.
  intros H. split; [apply enrich_chunk_parsed|].
  rewrite H. intros [x Hx]. discriminate.
Qed.

Lemma kept_trans (a b c : stored_chunk) : kept a b -> kept b c -> kept a c.
Proof.
  intros [H1 H2] [H3 H4]. split; [congruence|].
  intros Ha. specialize (H2 Ha). subst b. now apply H4.
Qed.

Lemma Forall2_kept_trans (a b c : list stored_chunk) :
  Forall2 kept a b -> Forall2 kept b c -> Forall2 kept a c.
Proof.
  intros Hab. revert c. induction Hab as [|x y l m Hxy _ IH]; intros c Hbc.
  - assumption.
  - inversion Hbc as [|y' z m' n Hyz Hmn]; subst.
    constructor; [now apply (kept_trans x y z) | now apply IH].
Qed.

Lemma py_set_index_insert {A : Type} (l : list A) (i : Z) (x y : A) (l' : list A) :
  py_index l i = Some x -> py_set_index l i y = Some l' ->
  exists j, l !! j = Some x /\ l' = <[j := y]> l.
Proof.
  unfold py_index, py_set_index. intros Hx Hy.
  assert (Hn : forall k, nth_error l k = l !! k).
  { clear. induction l as [|a l IH]; intros [|k]; try reflexivity. apply IH. }
  destruct (0 <=? i) eqn:E0.
  - destruct (i <? Z.of_nat (length l)) eqn:E1; cbn [andb] in Hy.
    + injection Hy as <-. exists (Z.to_nat i). now rewrite <- Hn.
    + apply Z.leb_le in E0.
      replace ((- Z.of_nat (length l) <=? i) && (i <? 0)) with false in Hy
        by (symmetry; apply andb_false_iff; right; apply Z.ltb_ge; lia).
      discriminate.
  - cbn [andb] in Hy. destruct (- Z.of_nat (length l) <=? i) eqn:E1; [|discriminate].
    destruct (i <? 0); cbn [andb] in Hy; [|discriminate].
    injection Hy as <-. exists (Z.to_nat (Z.of_nat (length l) + i)). now rewrite <- Hn.
Qed.

Lemma enrich_loop_kept (respond : Z -> stored_chunk -> option str) (model : str)
    (indices : list Z) :
  forall cur cur',
    enrich_loop respond model indices cur = Some cur' -> Forall2 kept cur cur'.
Proof.
  induction indices as [|i indices IH]; intros cur cur'; cbn [enrich_loop].
  - intros [= <-]. apply Forall_Forall2_diag, Forall_forall. intros; apply kept_refl.
  - destruct (Z.of_nat (length cur) <=? i).
    { intros [= <-]. apply Forall_Forall2_diag, Forall_forall. intros; apply kept_refl. }
    destruct (py_index cur i) as [chunk|] eqn:Ei; [|discriminate].
    destruct (enriched chunk) eqn:Ee; [apply IH|].
    destruct (py_set_index cur i _) as [next|] eqn:Es; [|discriminate].
    intros H. apply IH in H.
    destruct (py_set_index_insert _ _ _ _ _ Ei Es) as (j & Hj & ->).
    assert (Hstep : Forall2 kept cur (<[j := enrich_chunk (respond i chunk) model chunk]> cur)).
    { rewrite <- (list_insert_id cur j chunk Hj) at 1.
      apply Forall2_insert; [|now apply kept_enrich].
      apply Forall_Forall2_diag, Forall_forall. intros; apply kept_refl. }
    now apply (Forall2_kept_trans _ _ _ Hstep).
Qed.

(** X26. [enrich_all_chunks], whatever the range: if it returns, the
    fields of the parser are as before in every chunk, and the chunks
    that were enriched are untouched. From a start index that is not
    negative it does return, and the chunk at each position of the range
    that was not enriched is what [enrich_chunk] makes of it, every other
    chunk being as before. *)
Theorem enrich_all_chunks_effect (respond : Z -> stored_chunk -> option str)
    (model : str) (start_index : Z) (end_index : option Z)
    (chunks : list stored_chunk) :
  (forall chunks',
     enrich_all_chunks respond model start_index end_index chunks = Some chunks' ->
     map parsed chunks' = map parsed chunks
     /\ forall k c, chunks !! k = Some c -> is_Some (enriched c) ->
                    chunks' !! k = Some c)
  /\ (0 <= start_index ->
      exists chunks',
        enrich_all_chunks respond model start_index end_index chunks = Some chunks'
        /\ length chunks' = length chunks
        /\ forall k,
             chunks' !! k
             = enriched_at respond model start_index
                 (default (Z.of_nat (length chunks)) end_index) k <$> chunks !! k).
Proof.
  split.
  - intros chunks' H. unfold enrich_all_chunks in H. apply enrich_loop_kept in H.
    split.
    + induction H as [|c c' l l' [Hp _] _ IH]; [reflexivity|].
      cbn [map]. now rewrite Hp, IH.
    + intros k c Hk He.
      destruct (Forall2_lookup_l _ _ _ _ _ H Hk) as (c' & Hk' & [_ Hc]).
      rewrite Hk'. f_equal. now apply Hc.
  - intros Hstart. unfold enrich_all_chunks.
    set (stop := default (Z.of_nat (length chunks)) end_index).
    rewrite (py_range_nat start_index stop (Z.to_nat start_index)) by lia.
    assert (Hout : forall k, (start_index <=? Z.of_nat k) && (Z.of_nat k <? stop) = false ->
              chunks !! k
              = enriched_at respond model start_index stop k <$> chunks !! k).
    { intros k Hk. unfold enriched_at. rewrite Hk. now destruct (chunks !! k). }
    destruct (Z.le_gt_cases start_index stop) as [Hle | Hgt].
    + destruct (enrich_loop_range respond model start_index stop chunks
                  (Z.to_nat (stop - start_index)) (Z.to_nat start_index) chunks)
        as (cur' & Hrun & Hl & H1 & H2); try reflexivity; try lia.
      * intros k Hk. apply Hout. apply andb_false_iff. left. apply Z.leb_gt. lia.
      * exists cur'. split; [assumption|]. split; [assumption|].
        intros k.
        destruct (Nat.lt_ge_cases k (Z.to_nat start_index + Z.to_nat (stop - start_index)))
          as [Hlt | Hge]; [now apply H1|].
        rewrite (H2 k Hge). apply Hout.
        apply andb_false_iff. right. apply Z.ltb_ge. lia.
    + replace (Z.to_nat (stop - start_index)) with 0%nat by lia.
      exists chunks. split; [reflexivity|]. split; [reflexivity|].
      intros k. apply Hout.
      destruct (start_index <=? Z.of_nat k) eqn:E; [|reflexivity].
      apply Z.leb_le in E. apply Z.ltb_ge. lia.
Qed.

Lemma enrich_all_chunks_effect_witness :
  exists chunks',
    enrich_all_chunks (fun _ _ => Some (py "{}")) (py "model") 0 None
      (map fresh (create_chunks small_config three_paragraphs)) = Some chunks'
    /\ length chunks' = length (map fresh (create_chunks small_config three_paragraphs))
    /\ forall k,
         chunks' !! k
         = enriched_at (fun _ _ => Some (py "{}")) (py "model") 0
             (default (Z.of_nat (length (map fresh (create_chunks small_config three_paragraphs)))) None) k
           <$> map fresh (create_chunks small_config three_paragraphs) !! k.
Proof.
  apply (enrich_all_chunks_effect (fun _ _ => Some (py "{}")) (py "model") 0 None
           (map fresh (create_chunks small_config three_paragraphs))).
  lia.
Defined.

Import PyStr Re Utils Parser Json FillGapsImproved FillGapsNuclear Enricher Publisher.

(** ** The parse of the enricher *)

(** X27. The parse of [enrich_chunk] reads an object that has
    whitespace around it, and an object wrapped in a code fence, as the
    strict parse reads the object alone. *)
Theorem parse_enrichment_unwraps (w0 w1 lang ws b close : str) :
  let core := "{"%char :: b ++ ["}"%char] in
  forallb isspace w0 = true -> forallb isspace w1 = true ->
  lang = [] \/ lang = py "json" ->
  Forall (fun c => isspace c = true) ws ->
  close = py "```" \/ close = newline :: py "```" ->
  parse_enrichment (w0 ++ core ++ w1) = json_loads core
  /\ parse_enrichment (w0 ++ (py "```" ++ lang ++ ws ++ core ++ close) ++ w1)
     = json_loads core.
Proof.
  intros core Hw0 Hw1 Hlang Hws Hclose. split.
  - unfold parse_enrichment, core. cbv zeta.
    rewrite (strip_core w0 w1 b "{" "}") by (assumption || reflexivity).
    rewrite (re_sub_no_match fence_open_re) by apply fence_open_no_match.
    rewrite (re_sub_no_match fence_close_re)
      by (apply fence_close_no_match; now exists ("{"%char :: b)).
    now rewrite strip_fixed.
  - assert (Hshape : exists mid, py "```" ++ lang ++ ws ++ core ++ close
                                 = "`"%char :: mid ++ ["`"%char]).
    { destruct Hclose as [-> | ->].
      - exists (py "``" ++ lang ++ ws ++ core ++ py "``").
        cbn [py list_ascii_of_string app]. do 3 f_equal.
        rewrite <- !app_assoc. do 3 f_equal.
      - exists (py "``" ++ lang ++ ws ++ core ++ newline :: py "``").
        cbn [py list_ascii_of_string app]. do 3 f_equal.
        rewrite <- !app_assoc. do 3 f_equal. }
    destruct Hshape as (mid & Hmid).
    unfold parse_enrichment. cbv zeta.
    rewrite Hmid, strip_core by (assumption || reflexivity). rewrite <- Hmid.
    change (py "```" ++ lang ++ ws ++ core ++ close)
      with (py "```" ++ lang ++ ws ++ "{"%char :: (b ++ ["}"%char]) ++ close).
    rewrite fence_open_sub by assumption.
    change ("{"%char :: (b ++ ["}"%char]) ++ close)
      with (("{"%char :: b ++ ["}"%char]) ++ close).
    rewrite fence_close_sub by assumption.
    now rewrite strip_fixed.
Qed.

Lemma parse_enrichment_unwraps_witness :
  parse_enrichment ([newline] ++ lit "{'a': 1}" ++ [newline])
  = json_loads (lit "{'a': 1}")
  /\ parse_enrichment ([newline] ++ (py "```" ++ py "json" ++ [newline]
                                      ++ lit "{'a': 1}" ++ newline :: py "```")
                       ++ [newline])
     = json_loads (lit "{'a': 1}").
Proof.
  apply (parse_enrichment_unwraps [newline] [newline] (py "json") [newline]
           (lit "'a': 1") (newline :: py "```")).
  - reflexivity.
  - reflexivity.
  - now right.
  - repeat constructor.
  - now right.
Defined.

(** ** A trailing comma left unrepaired *)

Lemma first_hit_skip (hit : str -> option (list (nat * str) * str * str))
    (t : str) (v : list (nat * str) * str * str) :
  hit t = Some v ->
  forall x, (forall x1 y, x = x1 ++ y -> y <> [] -> hit (y ++ t) = None) ->
    first_hit hit (x ++ t) = Some (x, v).
Proof.
  intros Ht. induction x as [|c x IH]; intros Hx.
  - cbn [app]. destruct t; cbn [first_hit]; now rewrite Ht.
  - pose proof (Hx [] (c :: x) eq_refl ltac:(discriminate)) as Hc.
    cbn [app] in Hc |- *. cbn [first_hit]. rewrite Hc.
    rewrite IH; [reflexivity|].
    intros x1 y -> Hy. now apply (Hx (c :: x1) y).
Qed.

Lemma comma_hit_before_comma (y : str) :
  y <> [] ->
  comma_hit (y ++ ["}"%char]) = None ->
  comma_hit (y ++ [","%char; "}"%char]) = None.
Proof.
  destruct y as [|c y]; [congruence|]. intros _ H.
  cbn [app] in *. apply comma_hit_closes in H. apply comma_hit_closes.
  destruct (Ascii.eqb c ","); [|reflexivity]. cbn [andb] in *.
  destruct (closes (y ++ [","%char; "}"%char])) eqn:E; [|reflexivity].
  apply closes_before_comma in E. congruence.
Qed.

Lemma re_sub_last_comma (x : str) :
  (forall x1 y, x = x1 ++ y -> comma_hit (y ++ ["}"%char]) = None) ->
  re_sub trailing_comma_re backslash_one (x ++ [","%char; "}"%char])
  = x ++ [backslash; "1"%char].
Proof.
  intros Hx.
  rewrite (re_sub_local trailing_comma_re comma_hit comma_hit_matches).
  replace (2 * length (x ++ [","%char; "}"%char]) + 2)%nat
    with (S (S (2 * length (x ++ [","%char; "}"%char])))) by lia.
  cbn [rewrite_with].
  rewrite (first_hit_skip comma_hit [","%char; "}"%char]
             ([(1%nat, ["}"%char])], [","%char; "}"%char], [])).
  - reflexivity.
  - reflexivity.
  - intros x1 y Hxy Hy. apply comma_hit_before_comma; [assumption|].
    now apply (Hx x1 y).
Qed.

Lemma json_object_is_object (scan : str -> option (json * str)) (fuel : nat)
    (s : str) (v : json) (rest : str) :
  json_object scan fuel s = Some (v, rest) -> exists ms, v = JObject ms.
Proof.
  unfold json_object. destruct (skip_ws s) as [|c s1]; [discriminate|].
  destruct (Ascii.eqb c "}"); [intros [= <- <-]; eauto|].
  destruct (Ascii.eqb c dquote); [|discriminate].
  destruct (object_members scan fuel s1) as [[ms r]|]; [|discriminate].
  intros [= <- <-]. eauto.
Qed.

Lemma json_loads_unclosed (b : str) (c : ascii) :
  is_ws c = false -> c <> "}"%char ->
  json_loads ("{"%char :: b ++ [c]) = None.
Proof.
  intros Hws Hc. unfold json_loads.
  rewrite skip_ws_stop by reflexivity.
  destruct (scan_once _ ("{"%char :: b ++ [c])) as [[v rest]|] eqn:E; [|reflexivity].
  destruct (skip_ws rest) eqn:Er; [|reflexivity]. exfalso.
  assert (Hobj : exists ms, v = JObject ms).
  { cbn [length scan_once] in E.
    replace (Ascii.eqb "{" dquote) with false in E by reflexivity.
    rewrite Ascii.eqb_refl in E. now apply json_object_is_object in E. }
  destruct Hobj as (ms & ->).
  apply scan_once_object in E. destruct E as (b' & Hs & _).
  apply skip_ws_all in Er.
  destruct rest as [|r0 rest0].
  - rewrite app_nil_r in Hs.
    change ("{"%char :: b ++ [c]) with (("{"%char :: b) ++ [c]) in Hs.
    change ("{"%char :: b' ++ ["}"%char]) with (("{"%char :: b') ++ ["}"%char]) in Hs.
    apply app_inj_tail in Hs. destruct Hs as [_ ->]. congruence.
  - destruct (@exists_last _ (r0 :: rest0) ltac:(discriminate)) as (z & d & Hz).
    rewrite Hz in Hs, Er.
    change ("{"%char :: b ++ [c]) with (("{"%char :: b) ++ [c]) in Hs.
    rewrite app_assoc in Hs. apply app_inj_tail in Hs. destruct Hs as [_ <-].
    rewrite forallb_app in Er. apply andb_true_iff in Er. destruct Er as [_ Er].
    cbn [forallb] in Er. rewrite Hws in Er. discriminate.
Qed.

(** X28. An object without a closing brace inside it, and with a
    comma before its closing brace: [clean_json_response] puts a
    backslash and the digit 1 in the place of the comma and the brace, and
    neither parse attempt of [enrich_chunk_with_retry] reads the result. *)
Theorem trailing_comma_never_parsed (b : str) :
  let core := "{"%char :: b ++ ["}"%char] in
  let text := "{"%char :: b ++ [","%char; "}"%char] in
  re_search trailing_comma_re core = None ->
  ~ In "}"%char b ->
  clean_json_response text = "{"%char :: b ++ [backslash; "1"%char]
  /\ parse_response text = None.
Proof.
  intros core text Hcomma Hflat.
  assert (Hclean : clean_json_response text = "{"%char :: b ++ [backslash; "1"%char]).
  { unfold clean_json_response. cbv zeta.
    assert (Hshape : text = "{"%char :: (b ++ [","%char]) ++ ["}"%char])
      by (unfold text; now rewrite <- app_assoc).
    rewrite Hshape, strip_fixed by reflexivity.
    rewrite (re_sub_no_match fence_open_re) by apply fence_open_no_match.
    rewrite (re_sub_no_match fence_close_re)
      by (apply fence_close_no_match; now exists ("{"%char :: b ++ [","%char])).
    rewrite strip_fixed by reflexivity.
    rewrite find_head, andb_false_r.
    replace ("{"%char :: (b ++ [","%char]) ++ ["}"%char])
      with (("{"%char :: b) ++ [","%char; "}"%char])
      by (cbn [app]; now rewrite <- app_assoc).
    rewrite re_sub_last_comma; [reflexivity|].
    intros x1 y Hxy. apply (re_search_commas_none core Hcomma x1).
    unfold core. change ("{"%char :: b ++ ["}"%char]) with (("{"%char :: b) ++ ["}"%char]).
    now rewrite Hxy, <- app_assoc. }
  split; [assumption|].
  unfold parse_response. rewrite Hclean.
  replace ("{"%char :: b ++ [backslash; "1"%char])
    with ("{"%char :: (b ++ [backslash]) ++ ["1"%char])
    by (now rewrite <- app_assoc).
  rewrite json_loads_unclosed by (reflexivity || discriminate).
  assert (Hb : re_sub before_brace_re []
                 ([] ++ "{"%char :: (b ++ [backslash]) ++ ["1"%char])
               = "{"%char :: (b ++ [backslash]) ++ ["1"%char]).
  { apply before_brace_sub; [intros [] | right; eauto]. }
  cbn [app] in Hb. rewrite Hb.
  assert (Ha : re_sub after_brace_re []
                 ([] ++ "{"%char :: (b ++ [backslash]) ++ ["1"%char]) = []).
  { apply after_brace_sub; [now left|].
    intros [H | H]; [discriminate|].
    apply in_app_or in H. destruct H as [H | H].
    - apply in_app_or in H. destruct H as [H | H]; [contradiction|].
      cbn in H. intuition discriminate.
    - cbn in H. intuition discriminate. }
  cbn [app] in Ha. rewrite Ha. reflexivity.
Qed.

Lemma trailing_comma_never_parsed_witness :
  clean_json_response ("{"%char :: lit "'a': 1, 'b': [2]" ++ [","%char; "}"%char])
  = "{"%char :: lit "'a': 1, 'b': [2]" ++ [backslash; "1"%char]
  /\ parse_response ("{"%char :: lit "'a': 1, 'b': [2]" ++ [","%char; "}"%char]) = None.
Proof.
  apply (trailing_comma_never_parsed (lit "'a': 1, 'b': [2]")).
  - vm_compute. reflexivity.
  - vm_compute. intuition discriminate.
Defined.
